(** * nexen: pattern registries, backoff, response normalisation, batch calls

    A shallow embedding of the core of the nexen LLM facade:
    - [connectors]: services/connectors/registry.go (constructor registry);
    - [models]: the model-metadata registry, llm_request.go and
      llm_response.go;
    - [common]: the retry policy and CalculateBackoff of
      services/connectors/common/base_llm_connection.go;
    - [mistral]: the Mistral connector's Call and BatchCall.

    Go values are modelled as follows.  [int] is a 64-bit two's complement
    integer carried as a [Z] with its wrap-around written out.  A Go map is
    a [gmap]; the order in which [range] visits a map is not specified by
    the language, so every function that ranges over a map takes the visit
    order as an argument, and the theorems quantify over every order that
    enumerates the map.  A result pair [(T, error)] is a sum: [Ok v] when
    the error is nil, [Err e] otherwise.  A pointer that is only tested
    against nil and read is an [option].  A float64 is a binary64 number of
    the standard library's specification of IEEE 754 arithmetic
    ([spec_float]), each operation rounded once, to nearest even. *)

From Stdlib Require Import ZArith String Ascii List Lia Bool SpecFloat Reals Lra.
From stdpp Require Import gmap strings list fin_maps pretty.

Open Scope Z_scope.

(** ** Go basics *)

Module go.

Inductive result (A E : Type) : Type :=
| Ok (v : A)
| Err (e : E).
Arguments Ok {A E} v.
Arguments Err {A E} e.

(** [int] on the 64-bit targets the repository builds for. *)
Definition min_int : Z := - 2 ^ 63.
Definition max_int : Z := 2 ^ 63 - 1.

Definition wrap (z : Z) : Z := (z + 2 ^ 63) mod 2 ^ 64 - 2 ^ 63.

Definition int_add (x y : Z) : Z := wrap (x + y).
Definition int_mul (x y : Z) : Z := wrap (x * y).

Definition in_int (z : Z) : Prop := min_int <= z <= max_int.

End go.

Export go.

(** ** Package regexp

    The standard library's regular expressions are not part of the
    repository.  The registries use two entry points, [regexp.Compile] and
    [regexp.MatchString]; the second is, as in the library, the first
    followed by the compiled expression's own [MatchString]. *)

Module regexp.

Class Engine : Type := {
  Regexp : Type;
  SyntaxError : Type;
  Compile : string -> result Regexp SyntaxError;
  Regexp_MatchString : Regexp -> string -> bool
}.

(** func MatchString(pattern string, s string) (matched bool, err error) *)
Definition MatchString `{Engine} (pattern s : string) : result bool SyntaxError :=
  match Compile pattern with
  | Ok re => Ok (Regexp_MatchString re s)
  | Err err => Err err
  end.

End regexp.

(** *** An engine for a fragment of the RE2 syntax

    Enough of Go's syntax to run the patterns the repository registers:
    literals, [.], bracket expressions with ranges and negation, the
    anchors [^] and [$], grouping, alternation and the postfix operators
    [*], [+] and [?], over ASCII text.  [Compile] reports Go's own error
    codes for what Go rejects; syntax that Go accepts but that lies outside
    the fragment (escapes such as \d, counted repetition, flags, lazy
    operators) is reported as [ErrOutsideFragment]. *)

Module re2.

Inductive re : Type :=
| Fail
| Eps
| Lit (c : ascii)
| Dot
| Class (neg : bool) (ranges : list (ascii * ascii))
| Bol
| Eol
| Cat (r1 r2 : re)
| Alt (r1 r2 : re)
| Star (r : re).

Inductive ErrorCode : Type :=
| ErrMissingBracket          (* missing closing ] *)
| ErrMissingParen            (* missing closing ) *)
| ErrUnexpectedParen         (* unexpected ) *)
| ErrMissingRepeatArgument   (* missing argument to repetition operator *)
| ErrInvalidRepeatOp         (* invalid nested repetition operator *)
| ErrTrailingBackslash       (* trailing backslash at end of expression *)
| ErrInvalidCharRange        (* invalid character class range *)
| ErrOutsideFragment.

Definition chr_is (c : ascii) (d : string) : bool :=
  match d with
  | String d' EmptyString => Ascii.eqb c d'
  | _ => false
  end.

Definition code (c : ascii) : N := N_of_ascii c.

Definition is_repeat_op (c : ascii) : bool := chr_is c "*" || chr_is c "+" || chr_is c "?".

(** Punctuation may be escaped with a backslash and then stands for itself. *)
Definition is_punct (c : ascii) : bool :=
  let n := code c in
  ((33 <=? n) && (n <=? 47) || (58 <=? n) && (n <=? 64) ||
   (91 <=? n) && (n <=? 96) || (123 <=? n) && (n <=? 126))%N.

Definition cat (r1 r2 : re) : re :=
  match r1, r2 with
  | Fail, _ | _, Fail => Fail
  | Eps, r | r, Eps => r
  | _, _ => Cat r1 r2
  end.

Definition alt (r1 r2 : re) : re :=
  match r1, r2 with
  | Fail, r | r, Fail => r
  | _, _ => Alt r1 r2
  end.

Definition apply_repeat (op : ascii) (r : re) : re :=
  if chr_is op "*" then Star r
  else if chr_is op "+" then Cat r (Star r)
  else Alt r Eps.

(** The inside of a bracket expression, after the opening bracket and the
    optional negation sign. *)
Fixpoint parse_class (cs : list ascii) (acc : list (ascii * ascii))
  : result (list (ascii * ascii) * list ascii) ErrorCode :=
  match cs with
  | [] => Err ErrMissingBracket
  | lo :: tl =>
    if chr_is lo "]" then Ok (rev acc, tl)
    else if chr_is lo "\" || chr_is lo "[" then Err ErrOutsideFragment
    else
      match tl with
      | dash :: hi :: tl' =>
        if chr_is dash "-" && negb (chr_is hi "]") then
          if chr_is hi "\" || chr_is hi "[" then Err ErrOutsideFragment
          else if (code lo <=? code hi)%N then parse_class tl' ((lo, hi) :: acc)
          else Err ErrInvalidCharRange
        else parse_class tl ((lo, lo) :: acc)
      | _ => parse_class tl ((lo, lo) :: acc)
      end
  end.

Definition parse_bracket (cs : list ascii) : result (re * list ascii) ErrorCode :=
  let '(neg, body) :=
    match cs with
    | c :: tl => if chr_is c "^" then (true, tl) else (false, cs)
    | [] => (false, cs)
    end in
  match body with
  | c :: _ => if chr_is c "]" then Err ErrOutsideFragment else
      match parse_class body [] with
      | Ok (ranges, rest) => Ok (Class neg ranges, rest)
      | Err e => Err e
      end
  | [] => Err ErrMissingBracket
  end.

Fixpoint parse_alt (n : nat) (cs : list ascii) : result (re * list ascii) ErrorCode :=
  match n with
  | O => Err ErrOutsideFragment
  | S n =>
    match parse_cat n cs with
    | Err e => Err e
    | Ok (r, rest) =>
      match rest with
      | c :: rest' =>
        if chr_is c "|" then
          match parse_alt n rest' with
          | Err e => Err e
          | Ok (r', rest'') => Ok (Alt r r', rest'')
          end
        else Ok (r, rest)
      | [] => Ok (r, rest)
      end
    end
  end
with parse_cat (n : nat) (cs : list ascii) : result (re * list ascii) ErrorCode :=
  match n with
  | O => Err ErrOutsideFragment
  | S n =>
    match cs with
    | [] => Ok (Eps, cs)
    | c :: _ =>
      if chr_is c "|" || chr_is c ")" then Ok (Eps, cs)
      else
        match parse_rep n cs with
        | Err e => Err e
        | Ok (r, rest) =>
          match parse_cat n rest with
          | Err e => Err e
          | Ok (r', rest') => Ok (cat r r', rest')
          end
        end
    end
  end
with parse_rep (n : nat) (cs : list ascii) : result (re * list ascii) ErrorCode :=
  match n with
  | O => Err ErrOutsideFragment
  | S n =>
    match parse_atom n cs with
    | Err e => Err e
    | Ok (r, rest) =>
      match rest with
      | op :: rest' =>
        if is_repeat_op op then
          match rest' with
          | op' :: _ =>
            if is_repeat_op op' then
              if chr_is op' "?" then Err ErrOutsideFragment else Err ErrInvalidRepeatOp
            else Ok (apply_repeat op r, rest')
          | [] => Ok (apply_repeat op r, rest')
          end
        else Ok (r, rest)
      | [] => Ok (r, rest)
      end
    end
  end
with parse_atom (n : nat) (cs : list ascii) : result (re * list ascii) ErrorCode :=
  match n with
  | O => Err ErrOutsideFragment
  | S n =>
    match cs with
    | [] => Ok (Eps, cs)
    | c :: rest =>
      if chr_is c "(" then
        match rest with
        | q :: _ => if chr_is q "?" then Err ErrOutsideFragment else
            match parse_alt n rest with
            | Err e => Err e
            | Ok (r, close :: rest') =>
              if chr_is close ")" then Ok (r, rest') else Err ErrMissingParen
            | Ok (_, []) => Err ErrMissingParen
            end
        | [] => Err ErrMissingParen
        end
      else if chr_is c "[" then parse_bracket rest
      else if chr_is c "." then Ok (Dot, rest)
      else if chr_is c "^" then Ok (Bol, rest)
      else if chr_is c "$" then Ok (Eol, rest)
      else if chr_is c "\" then
        match rest with
        | e :: rest' => if is_punct e then Ok (Lit e, rest') else Err ErrOutsideFragment
        | [] => Err ErrTrailingBackslash
        end
      else if is_repeat_op c then Err ErrMissingRepeatArgument
      else if chr_is c ")" then Err ErrUnexpectedParen
      else if chr_is c "{" || chr_is c "}" || chr_is c "]" then Err ErrOutsideFragment
      else if (128 <=? code c)%N then Err ErrOutsideFragment
      else Ok (Lit c, rest)
    end
  end.

Definition Compile (pattern : string) : result re ErrorCode :=
  let cs := list_ascii_of_string pattern in
  match parse_alt (4 * length cs + 8) cs with
  | Err e => Err e
  | Ok (r, []) => Ok r
  | Ok (_, _ :: _) => Err ErrUnexpectedParen
  end.

(** Matching, by derivatives.  [bot] and [eot] say whether the current
    position is the beginning, respectively the end, of the text. *)

Definition in_class (c : ascii) (neg : bool) (ranges : list (ascii * ascii)) : bool :=
  xorb neg (existsb (fun '(lo, hi) => (code lo <=? code c)%N && (code c <=? code hi)%N) ranges).

Fixpoint nullable (bot eot : bool) (r : re) : bool :=
  match r with
  | Fail | Lit _ | Dot | Class _ _ => false
  | Eps | Star _ => true
  | Bol => bot
  | Eol => eot
  | Cat r1 r2 => nullable bot eot r1 && nullable bot eot r2
  | Alt r1 r2 => nullable bot eot r1 || nullable bot eot r2
  end.

Fixpoint deriv (bot : bool) (c : ascii) (r : re) : re :=
  match r with
  | Fail | Eps | Bol | Eol => Fail
  | Lit d => if Ascii.eqb c d then Eps else Fail
  | Dot => if (code c =? 10)%N then Fail else Eps
  | Class neg ranges => if in_class c neg ranges then Eps else Fail
  | Cat r1 r2 =>
    let left := cat (deriv bot c r1) r2 in
    if nullable bot false r1 then alt left (deriv bot c r2) else left
  | Alt r1 r2 => alt (deriv bot c r1) (deriv bot c r2)
  | Star r1 => cat (deriv bot c r1) (Star r1)
  end.

Fixpoint matches_from (bot : bool) (r : re) (s : string) : bool :=
  match s with
  | EmptyString => nullable bot true r
  | String c s' => matches_from false (deriv bot c r) s'
  end.

Definition any_text : re := Star (Class true []).

(** The method MatchString of a compiled expression reports whether the text contains any match. *)
Definition MatchString (r : re) (s : string) : bool :=
  matches_from true (Cat any_text (Cat r any_text)) s.

#[export] Instance engine : regexp.Engine := {|
  regexp.Regexp := re;
  regexp.SyntaxError := ErrorCode;
  regexp.Compile := Compile;
  regexp.Regexp_MatchString := MatchString
|}.

End re2.

(** ** float64

    IEEE 754 binary64, as the standard library specifies it: 53 bits of
    precision, round to nearest even. *)

Module float64.

Definition prec : Z := 53.
Definition emax : Z := 1024.

Definition t : Type := spec_float.

(** float64(z) for an integer z. *)
Definition of_int (z : Z) : t := binary_normalize prec emax z 0 false.

Definition add : t -> t -> t := SFadd prec emax.
Definition sub : t -> t -> t := SFsub prec emax.
Definition mul : t -> t -> t := SFmul prec emax.
Definition div : t -> t -> t := SFdiv prec emax.
Definition ltb : t -> t -> bool := SFltb.

(** The constant num/den of the source text, rounded once. *)
Definition const (num den : Z) : t := div (of_int num) (of_int den).

Definition inf (s : bool) : t := S754_infinity s.

(** int64(x): the fraction is discarded.  Go leaves the result of the
    conversion to the implementation when the value does not fit, and for
    NaN; such conversions are [None] here. *)
Definition to_int64 (x : t) : option Z :=
  match x with
  | S754_zero _ => Some 0
  | S754_finite s m e =>
    let z := cond_Zopp s (Z.shiftl (Zpos m) e) in
    if (min_int <=? z) && (z <=? max_int) then Some z else None
  | S754_infinity _ | S754_nan => None
  end.

End float64.

(** ** Reading float64 numbers as reals

    What the proofs about float64 arithmetic are stated with: the number of
    binary digits of a mantissa, the real value of mantissa and exponent, the
    mantissas the format holds at an exponent, and the outcome of a
    rounding as the standard library computes it. *)

Module ieee.

Definition digits (m : positive) : Z := Zpos (digits2_pos m).

Definition bpow (e : Z) : R := powerRZ 2 e.

(** The value of mantissa [m] at exponent [e]. *)
Definition F2R (m e : Z) : R := (IZR m * bpow e)%R.

(** The exponent is the one the format gives to numbers of this size. *)
Definition canonical (m : positive) (e : Z) : Prop :=
  fexp 53 1024 (digits m + e) = e.

Definition val (x : spec_float) : R :=
  match x with
  | S754_finite s m e => F2R (cond_Zopp s (Zpos m)) e
  | _ => 0%R
  end.

(** Zero, or a positive number of the format. *)
Definition nonneg_format (x : spec_float) : Prop :=
  match x with
  | S754_zero false => True
  | S754_finite false m e => canonical m e /\ e <= 971
  | _ => False
  end.

Definition nonneg_or_inf (x : spec_float) : Prop :=
  x = S754_infinity false \/ nonneg_format x.

(** Some bit was lost in the shifts so far. *)
Definition inexact (mrs : shr_record) : bool := shr_r mrs || shr_s mrs.

(** The outcome of rounding: [m2] and [e2] are the mantissa and exponent
    left after the second normalisation. *)
Definition rounded (s : bool) (m2 e2 : Z) : spec_float :=
  match m2 with
  | Z0 => S754_zero s
  | Zpos p => if e2 <=? 971 then S754_finite s p e2 else S754_infinity s
  | Zneg _ => S754_nan
  end.

End ieee.

(** ** Packages math and time

    Not part of the repository; modelled from the documentation of the Go
    standard library. *)

Module math.

(** math.Pow(2, float64(n)) for an int n that is not negative: the power of
    two itself while it is a float64, and +Inf from 2^1024 on (float64(n) is
    at least 1024 exactly when n is). *)
Definition Pow_2 (n : Z) : float64.t :=
  if n <=? 1023 then S754_finite false (2 ^ 52) (n - 52) else float64.inf false.

Definition is_zero (x : float64.t) : bool :=
  match x with S754_zero _ => true | _ => false end.

Definition Signbit (x : float64.t) : bool :=
  match x with
  | S754_zero s | S754_infinity s | S754_finite s _ _ => s
  | S754_nan => false
  end.

(** func Min(x, y float64) float64, with its special cases:
    Min(x, -Inf) = Min(-Inf, x) = -Inf, Min(x, NaN) = Min(NaN, x) = NaN,
    Min(-0, ±0) = Min(±0, -0) = -0. *)
Definition Min (x y : float64.t) : float64.t :=
  match x, y with
  | S754_infinity true, _ | _, S754_infinity true => float64.inf true
  | S754_nan, _ | _, S754_nan => S754_nan
  | _, _ =>
    if is_zero x && is_zero y then (if Signbit x then x else y)
    else if float64.ltb x y then x else y
  end.

End math.

Module time.

(** A Duration is an int64 count of nanoseconds. *)
Definition Duration : Type := Z.

Definition Millisecond : Duration := 1000000.
Definition Second : Duration := 1000000000.

End time.

(** ** Package net/http

    Of a client the repository sets the timeout only; a timeout of zero
    means no timeout. *)

Module http.

Record Client : Type := {
  Timeout : time.Duration
}.

End http.

(** ** Package connectors: registry.go *)

Module connectors.

Section registry.

Context `{regexp.Engine}.

(** type constructorFn func(model string, opts ...Option) (LLM, error).
    The registry stores and returns constructors and never calls them. *)
Context {constructorFn : Type}.

Inductive error : Type :=
| ErrInvalidRegex (regex : string) (err : regexp.SyntaxError)
    (* fmt.Errorf: invalid regex %s: %w *)
| ErrNoConstructor (model : string)
    (* fmt.Errorf: no LLM constructor found for model %s *).

(** The package variables [registry] and [resolveCache]; the mutex [mu]
    serialises the bodies below, which are modelled one call at a time. *)
Record state : Type := {
  registry : gmap string constructorFn;
  resolveCache : gmap string constructorFn
}.

Definition init : state := {| registry := ∅; resolveCache := ∅ |}.

(** func Register(modelRegex string, constructor constructorFn) error.
    The test for an existing registration has an empty body. *)
Definition Register (modelRegex : string) (constructor : constructorFn) (st : state)
  : option error * state :=
  (None, {| registry := <[modelRegex := constructor]> (registry st);
            resolveCache := ∅ |}).

(** [for regex, ctor := range registry]: [order] is the sequence of entries
    in the order this execution of the loop visits them.  [None] means the
    loop ran to its end without returning. *)
Fixpoint range_registry (order : list (string * constructorFn)) (model : string)
  : option (result constructorFn error) :=
  match order with
  | [] => None
  | (regex, ctor) :: order' =>
    match regexp.MatchString regex model with
    | Err err => Some (Err (ErrInvalidRegex regex err))
    | Ok true => Some (Ok ctor)
    | Ok false => range_registry order' model
    end
  end.

(** func Resolve(model string) (constructorFn, error) *)
Definition Resolve (order : list (string * constructorFn)) (model : string) (st : state)
  : result constructorFn error * state :=
  match resolveCache st !! model with
  | Some ctor => (Ok ctor, st)
  | None =>
    (* Double-check cache under write-lock *)
    match resolveCache st !! model with
    | Some ctor => (Ok ctor, st)
    | None =>
      match range_registry order model with
      | Some (Ok ctor) =>
        (Ok ctor, {| registry := registry st;
                     resolveCache := <[model := ctor]> (resolveCache st) |})
      | Some (Err e) => (Err e, st)
      | None => (Err (ErrNoConstructor model), st)
      end
    end
  end.

(** An order in which [range] may visit the map [m]: each entry once. *)
Definition visits (m : gmap string constructorFn) (order : list (string * constructorFn)) : Prop :=
  order ≡ₚ map_to_list m.

(** The states the package can be in: the initial one, and those reached by
    calls of Register and Resolve. *)
Inductive reachable : state -> Prop :=
| reachable_init : reachable init
| reachable_Register st modelRegex constructor :
    reachable st -> reachable (Register modelRegex constructor st).2
| reachable_Resolve st order model :
    reachable st -> visits (registry st) order ->
    reachable (Resolve order model st).2.

(** What it means for the cache to agree with the registry: every cached
    constructor is the payload of a registered pattern that matches the
    cached model name. *)
Definition cache_consistent (st : state) : Prop :=
  ∀ model ctor, resolveCache st !! model = Some ctor →
    ∃ regex, registry st !! regex = Some ctor ∧
             regexp.MatchString regex model = Ok true.

End registry.

Section llm.

Context `{regexp.Engine}.

(** The types Option and LLM of the package, and the errors a constructor
    returns.  NewLLM hands the options to the constructor and returns what
    the constructor returns; it looks into none of them. *)
Context {Option LLM constructor_error : Type}.

(** type constructorFn func(model string, opts ...Option) (LLM, error) *)
Abbreviation constructorFn := (string → list Option → result LLM constructor_error).

(** The error of NewLLM is the one Resolve returned or the one the
    constructor returned. *)
Inductive llm_error : Type :=
| ErrResolve (err : error)
| ErrConstructor (err : constructor_error).

(** func NewLLM(model string, opts ...Option) (LLM, error) *)
Definition NewLLM (order : list (string * constructorFn)) (model : string)
    (opts : list Option) (st : state) : result LLM llm_error * state :=
  match Resolve order model st with
  | (Err err, st') => (Err (ErrResolve err), st')
  | (Ok ctor, st') =>
    match ctor model opts with
    | Ok llm => (Ok llm, st')
    | Err err => (Err (ErrConstructor err), st')
    end
  end.

End llm.

End connectors.

(** ** Package strings

    Of the standard library's package the registry uses [EqualFold], which
    reports whether two strings are equal under simple Unicode case
    folding.  The folding tables are those of the Unicode standard and are
    not part of the repository. *)

Module strings.

Class Folding : Type := {
  EqualFold : string -> string -> bool
}.

(** EqualFold on ASCII text, as the library's loop over bytes below 0x80
    computes it: the bytes are equal, or the smaller is an upper-case
    letter and the larger the same letter in lower case; and both strings
    end together. *)
Definition fold_eq (sr tr : N) : bool :=
  if (tr =? sr)%N then true
  else
    let '(sr, tr) := if (tr <? sr)%N then (tr, sr) else (sr, tr) in
    ((65 <=? sr) && (sr <=? 90) && (tr =? sr + 32))%N.

Fixpoint EqualFold_ascii (s t : string) : bool :=
  match s, t with
  | EmptyString, EmptyString => true
  | String sr s', String tr t' =>
    fold_eq (N_of_ascii sr) (N_of_ascii tr) && EqualFold_ascii s' t'
  | _, _ => false
  end.

Definition ascii : Folding := {| EqualFold := EqualFold_ascii |}.

End strings.

(** ** Package models: the model registry *)

Module models.

(** type CostTier string *)
Definition CostTier : Type := string.

Definition ProfileChat : string := "chat".
Definition ProfileThinking : string := "thinking".
Definition ProfileAgent : string := "agent".
Definition ProfileRAG : string := "rag".
Definition ProfileCreative : string := "creative".
Definition ProfileCode : string := "code".
Definition ProviderOpenAI : string := "openai".
Definition ProviderAnthropic : string := "anthropic".
Definition ProviderGoogle : string := "google".
Definition ProviderMistral : string := "mistral".
Definition ProviderLlama : string := "llama".
Definition ProviderCustom : string := "custom".
Definition CostTierBasic : CostTier := "basic".
Definition CostTierStandard : CostTier := "standard".
Definition CostTierPremium : CostTier := "premium".

Record ModelInfo : Type := {
  ID : string;
  Profiles : list string;
  MaxTokens : Z;
  CostPerToken : float64.t;
  Provider : string;
  CostTier_ : CostTier;
  Version : string
}.

(** resolvedInfo := info; resolvedInfo.ID = model *)
Definition with_ID (info : ModelInfo) (model : string) : ModelInfo :=
  {| ID := model;
     Profiles := Profiles info;
     MaxTokens := MaxTokens info;
     CostPerToken := CostPerToken info;
     Provider := Provider info;
     CostTier_ := CostTier_ info;
     Version := Version info |}.

Section registry.

Context `{regexp.Engine}.

Inductive error : Type :=
| ErrInvalidRegex (regexPattern : string) (err : regexp.SyntaxError)
    (* Register, fmt.Errorf: invalid regex %q: %w *)
| ErrInvalidRegexDuringResolve (pattern : string) (err : regexp.SyntaxError)
    (* Resolve, fmt.Errorf: invalid regex %q during resolve: %w *)
| ErrModelNotFound (model : string)
    (* fmt.Errorf: model not found: %s *).

(** The package variables [registry] (regex -> ModelInfo) and [cache]
    (model name -> resolved ModelInfo). *)
Record state : Type := {
  registry : gmap string ModelInfo;
  cache : gmap string ModelInfo
}.

Definition init : state := {| registry := ∅; cache := ∅ |}.

(** func Register(regexPattern string, info ModelInfo) error *)
Definition Register (regexPattern : string) (info : ModelInfo) (st : state)
  : option error * state :=
  (* Validate regex compiles *)
  match regexp.Compile regexPattern with
  | Err err => (Some (ErrInvalidRegex regexPattern err), st)
  | Ok _ =>
    (None, {| registry := <[regexPattern := info]> (registry st);
              cache := ∅ |})
  end.

(** [for pattern, info := range registry], visiting the entries in [order]. *)
Fixpoint range_registry (order : list (string * ModelInfo)) (model : string)
  : option (result ModelInfo error) :=
  match order with
  | [] => None
  | (pattern, info) :: order' =>
    match regexp.MatchString pattern model with
    | Err err => Some (Err (ErrInvalidRegexDuringResolve pattern err))
    | Ok true =>
      (* Create a copy with the exact ID that was requested *)
      Some (Ok (with_ID info model))
    | Ok false => range_registry order' model
    end
  end.

(** func Resolve(model string) (ModelInfo, error) *)
Definition Resolve (order : list (string * ModelInfo)) (model : string) (st : state)
  : result ModelInfo error * state :=
  match cache st !! model with
  | Some info => (Ok info, st)
  | None =>
    (* Double-check cache under write lock *)
    match cache st !! model with
    | Some info => (Ok info, st)
    | None =>
      match range_registry order model with
      | Some (Ok resolvedInfo) =>
        (Ok resolvedInfo, {| registry := registry st;
                             cache := <[model := resolvedInfo]> (cache st) |})
      | Some (Err e) => (Err e, st)
      | None => (Err (ErrModelNotFound model), st)
      end
    end
  end.

(** func NewModelInfo(info ModelInfo, patterns ...string) error *)
Fixpoint NewModelInfo (info : ModelInfo) (patterns : list string) (st : state)
  : option error * state :=
  match patterns with
  | [] => (None, st)
  | p :: patterns' =>
    match Register p info st with
    | (Some err, st') => (Some err, st')
    | (None, st') => NewModelInfo info patterns' st'
    end
  end.

(** func ClearRegistry() *)
Definition ClearRegistry (st : state) : state := {| registry := ∅; cache := ∅ |}.

Definition visits (m : gmap string ModelInfo) (order : list (string * ModelInfo)) : Prop :=
  order ≡ₚ map_to_list m.

Inductive reachable : state -> Prop :=
| reachable_init : reachable init
| reachable_Register st regexPattern info :
    reachable st -> reachable (Register regexPattern info st).2
| reachable_Resolve st order model :
    reachable st -> visits (registry st) order ->
    reachable (Resolve order model st).2
| reachable_ClearRegistry st :
    reachable st -> reachable (ClearRegistry st).

(** Every cached value is the rewritten copy of the metadata of a
    registered pattern that matches the cached model name. *)
Definition cache_consistent (st : state) : Prop :=
  ∀ model resolved, cache st !! model = Some resolved →
    ∃ pattern info, registry st !! pattern = Some info ∧
                    regexp.MatchString pattern model = Ok true ∧
                    resolved = with_ID info model.

(** Register admits a pattern only after compiling it. *)
Definition patterns_compile (st : state) : Prop :=
  ∀ pattern info, registry st !! pattern = Some info →
    ∃ re, regexp.Compile pattern = Ok re.

(** func ListModels() []string: the loop appends each pattern it visits
    to [patterns].  A slice is a list here, nil and empty alike. *)
Fixpoint ListModels_range (order : list (string * ModelInfo)) (patterns : list string)
  : list string :=
  match order with
  | [] => patterns
  | (pattern, _) :: order' => ListModels_range order' (patterns ++ [pattern])
  end.

Definition ListModels (order : list (string * ModelInfo)) : list string :=
  ListModels_range order [].

(** [for _, p := range profiles { if p == profile ... }]: the inner loop of
    ListModelsByProfile and of HasProfile, which both stop at the first
    profile that is equal. *)
Fixpoint has_profile (profiles : list string) (profile : string) : bool :=
  match profiles with
  | [] => false
  | p :: profiles' => if String.eqb p profile then true else has_profile profiles' profile
  end.

(** func ListModelsByProfile(profile string) []ModelInfo *)
Fixpoint ListModelsByProfile_range (order : list (string * ModelInfo)) (profile : string)
    (models : list ModelInfo) : list ModelInfo :=
  match order with
  | [] => models
  | (_, info) :: order' =>
    ListModelsByProfile_range order' profile
      (if has_profile (Profiles info) profile then models ++ [info] else models)
  end.

Definition ListModelsByProfile (order : list (string * ModelInfo)) (profile : string)
  : list ModelInfo :=
  ListModelsByProfile_range order profile [].

(** func ListModelsByProvider(provider string) []ModelInfo *)
Fixpoint ListModelsByProvider_range `{strings.Folding}
    (order : list (string * ModelInfo)) (provider : string)
    (models : list ModelInfo) : list ModelInfo :=
  match order with
  | [] => models
  | (_, info) :: order' =>
    ListModelsByProvider_range order' provider
      (if strings.EqualFold (Provider info) provider then models ++ [info] else models)
  end.

Definition ListModelsByProvider `{strings.Folding}
    (order : list (string * ModelInfo)) (provider : string) : list ModelInfo :=
  ListModelsByProvider_range order provider [].

(** func HasProfile(model, profile string) (bool, error) *)
Definition HasProfile (order : list (string * ModelInfo)) (model profile : string) (st : state)
  : result bool error * state :=
  match Resolve order model st with
  | (Err err, st') => (Err err, st')
  | (Ok info, st') => (Ok (has_profile (Profiles info) profile), st')
  end.

(** func Init(): seven calls of NewModelInfo, whose errors are dropped. *)
Definition Init (st : state) : state :=
  (* OpenAI models *)
  let st :=
    (NewModelInfo
       {| ID := "gpt-4-turbo";
          Profiles := [ProfileChat; ProfileThinking; ProfileAgent; ProfileRAG];
          MaxTokens := 128000;
          CostPerToken := float64.const 1 100000;
          Provider := ProviderOpenAI;
          CostTier_ := CostTierPremium;
          Version := "1.0" |}
       ["gpt-4-turbo.*"] st).2 in
  let st :=
    (NewModelInfo
       {| ID := "gpt-4";
          Profiles := [ProfileChat; ProfileThinking; ProfileAgent];
          MaxTokens := 8192;
          CostPerToken := float64.const 3 100000;
          Provider := ProviderOpenAI;
          CostTier_ := CostTierPremium;
          Version := "1.0" |}
       ["gpt-4$"; "gpt-4-.*"] st).2 in
  let st :=
    (NewModelInfo
       {| ID := "gpt-3.5-turbo";
          Profiles := [ProfileChat; ProfileAgent];
          MaxTokens := 16385;
          CostPerToken := float64.const 2 1000000;
          Provider := ProviderOpenAI;
          CostTier_ := CostTierStandard;
          Version := "1.0" |}
       ["gpt-3.5-turbo.*"] st).2 in
  (* Anthropic models *)
  let st :=
    (NewModelInfo
       {| ID := "claude-3-opus";
          Profiles := [ProfileChat; ProfileThinking; ProfileRAG; ProfileCreative];
          MaxTokens := 200000;
          CostPerToken := float64.const 2 100000;
          Provider := ProviderAnthropic;
          CostTier_ := CostTierPremium;
          Version := "1.0" |}
       ["claude-3-opus.*"] st).2 in
  let st :=
    (NewModelInfo
       {| ID := "claude-3-sonnet";
          Profiles := [ProfileChat; ProfileThinking; ProfileRAG];
          MaxTokens := 200000;
          CostPerToken := float64.const 1 100000;
          Provider := ProviderAnthropic;
          CostTier_ := CostTierStandard;
          Version := "1.0" |}
       ["claude-3-sonnet.*"] st).2 in
  (* Google models *)
  let st :=
    (NewModelInfo
       {| ID := "gemini-pro";
          Profiles := [ProfileChat; ProfileAgent; ProfileRAG];
          MaxTokens := 32768;
          CostPerToken := float64.const 5 1000000;
          Provider := ProviderGoogle;
          CostTier_ := CostTierStandard;
          Version := "1.0" |}
       ["gemini-pro.*"] st).2 in
  (* Mistral models *)
  (NewModelInfo
     {| ID := "mistral-large";
        Profiles := [ProfileChat; ProfileThinking];
        MaxTokens := 32768;
        CostPerToken := float64.const 8 1000000;
        Provider := ProviderMistral;
        CostTier_ := CostTierStandard;
        Version := "1.0" |}
     ["mistral-large.*"] st).2.

(** The state that successful registrations of the entries [l], in this
    order, lead to: the entries written one after the other, and the
    cache emptied if there was any. *)
Definition registered (l : list (string * ModelInfo)) (st : state) : state :=
  match l with
  | [] => st
  | _ :: _ =>
    {| registry := foldl (λ m (e : string * ModelInfo), <[e.1 := e.2]> m) (registry st) l;
       cache := ∅ |}
  end.

End registry.

(** *** llm_request.go and llm_response.go *)

(** type BaseTool interface { Name() string; Declaration() (string, error) } *)
Class Tool (BaseTool error : Type) : Type := {
  Name : BaseTool → string;
  Declaration : BaseTool → result string error
}.

Section messages.

(** The element type of [Parts []any] and of the metadata bags; the
    functions below only count or copy such values. *)
Context {any : Type}.

(** type BaseTool interface: tools are stored, never called, here. *)
Context {BaseTool : Type}.

Record Content : Type := {
  Role : string;
  Message : string;
  Parts : list any
}.

Record ToolDeclaration : Type := {
  FunctionDeclarations : list string
}.

Record GenerateContentConfig : Type := {
  SystemInstruction : string;
  Tools : list ToolDeclaration;
  ResponseSchema : option any;
  ResponseMimeType : string;
  Temperature : float64.t;
  TopP : float64.t;
  Config_MaxTokens : Z;
  StopSequences : list string
}.

Record LiveConnectConfig : Type := {
  EnableStreaming : bool;
  StreamTimeout : Z;
  CallbackURI : string;
  CustomConfig : gmap string any
}.

Record LLMRequest : Type := {
  Model : string;
  Contents : list Content;
  Config : option GenerateContentConfig;
  LiveConnect : LiveConnectConfig;
  ToolsDict : gmap string BaseTool
}.

Inductive request_error : Type :=
| ErrModelRequired      (* model ID is required *)
| ErrNoContents         (* request must contain at least one content message *).

(** func (r *LLMRequest) Validate() error *)
Definition Validate (r : LLMRequest) : option request_error :=
  if String.eqb (Model r) EmptyString then Some ErrModelRequired
  else if (length (Contents r) =? 0)%nat then Some ErrNoContents
  else None.

Record UsageMetrics : Type := {
  PromptTokens : Z;
  CompletionTokens : Z;
  TotalTokens : Z;
  LatencyMs : float64.t;
  CostCents : float64.t
}.

Record Citation : Type := {
  SourceID : string;
  Title : string;
  URL : string;
  StartIndex : Z;
  EndIndex : Z
}.

Record GroundingMetadata : Type := {
  Citations : list Citation;
  GroundingScore : float64.t
}.

Record Candidate : Type := {
  Candidate_Content : option Content;
  FinishReason : string;
  FinishMessage : string;
  Candidate_GroundingMetadata : option GroundingMetadata
}.

Record PromptFeedback : Type := {
  BlockReason : string;
  BlockReasonMessage : string
}.

Record GenerateContentResponse : Type := {
  Candidates : list Candidate;
  Response_PromptFeedback : option PromptFeedback;
  Response_Usage : UsageMetrics
}.

Record LLMResponse : Type := {
  LLMResponse_Content : option Content;
  LLMResponse_GroundingMetadata : option GroundingMetadata;
  Partial : option bool;
  TurnComplete : option bool;
  ErrorCode : option string;
  ErrorMessage : option string;
  Interrupted : option bool;
  CustomMetadata : gmap string any;
  Usage : UsageMetrics
}.

(** [var result LLMResponse; result.Usage = usage] followed by the
    assignments of one branch: the fields a branch does not assign keep
    their zero value. *)
Definition response (usage : UsageMetrics)
    (content : option Content) (grounding : option GroundingMetadata)
    (code message : option string) : LLMResponse :=
  {| LLMResponse_Content := content;
     LLMResponse_GroundingMetadata := grounding;
     Partial := None;
     TurnComplete := None;
     ErrorCode := code;
     ErrorMessage := message;
     Interrupted := None;
     CustomMetadata := ∅;
     Usage := usage |}.

(** cand.Content != nil, and it has at least one part or a non-empty message. *)
Definition has_content (cand : Candidate) : bool :=
  match Candidate_Content cand with
  | Some content =>
    (0 <? length (Parts content))%nat || negb (String.eqb (Message content) EmptyString)
  | None => false
  end.

(** What the branch test is meant to decide: the content is there and has a
    message or at least one part. *)
Definition usable (cand : Candidate) (content : Content) : Prop :=
  Candidate_Content cand = Some content ∧
  (Message content ≠ EmptyString ∨ Parts content ≠ []).

(** func CreateLLMResponse(resp *GenerateContentResponse) LLMResponse *)
Definition CreateLLMResponse (resp : GenerateContentResponse) : LLMResponse :=
  let usage :=
    {| PromptTokens := PromptTokens (Response_Usage resp);
       CompletionTokens := CompletionTokens (Response_Usage resp);
       TotalTokens := int_add (PromptTokens (Response_Usage resp))
                              (CompletionTokens (Response_Usage resp));
       LatencyMs := LatencyMs (Response_Usage resp);
       CostCents := CostCents (Response_Usage resp) |} in
  match Candidates resp with
  | cand :: _ =>
    if has_content cand then
      response usage (Candidate_Content cand) (Candidate_GroundingMetadata cand) None None
    else
      (* Candidate present but no content parts: treat as error *)
      response usage None None (Some (FinishReason cand)) (Some (FinishMessage cand))
  | [] =>
    (* No candidates: check prompt feedback *)
    match Response_PromptFeedback resp with
    | Some pf =>
      response usage None None (Some (BlockReason pf)) (Some (BlockReasonMessage pf))
    | None =>
      (* Fallback unknown error *)
      response usage None None (Some "UNKNOWN_ERROR") (Some "Unknown error occurred.")
    end
  end.

Definition not_nil {A : Type} (p : option A) : bool :=
  match p with Some _ => true | None => false end.

(** func (r *LLMResponse) IsError() bool *)
Definition IsError (r : LLMResponse) : bool :=
  not_nil (ErrorCode r) || not_nil (ErrorMessage r).

(** func (r *LLMResponse) Error() string *)
Definition Error (r : LLMResponse) : string :=
  match ErrorMessage r with
  | Some msg => msg
  | None =>
    match ErrorCode r with
    | Some code => "Error: " +:+ code
    | None => "Unknown error"
    end
  end.

(** *** The builders of llm_request.go

    The methods write to the request they are called on; here they return
    the request as they leave it. *)

(** &GenerateContentConfig{}: every field at its zero value. *)
Definition zero_config : GenerateContentConfig :=
  {| SystemInstruction := EmptyString;
     Tools := [];
     ResponseSchema := None;
     ResponseMimeType := EmptyString;
     Temperature := S754_zero false;
     TopP := S754_zero false;
     Config_MaxTokens := 0;
     StopSequences := [] |}.

(** r.Config after [if r.Config == nil { r.Config = &GenerateContentConfig{} }] *)
Definition config_or_zero (r : LLMRequest) : GenerateContentConfig :=
  match Config r with
  | Some config => config
  | None => zero_config
  end.

(** Two line feeds, the separator of instructions. *)
Definition blank_line : string := String "010" (String "010" EmptyString).

(** The loop of AppendInstructions: [i] is the index of the instruction at
    the head of [instructions], [joined] the text so far. *)
Fixpoint join_from (i : nat) (instructions : list string) (joined : string) : string :=
  match instructions with
  | [] => joined
  | instr :: instructions' =>
    let joined := if (0 <? i)%nat then joined +:+ blank_line else joined in
    join_from (S i) instructions' (joined +:+ instr)
  end.

(** func (r *LLMRequest) AppendInstructions(instructions ...string) *)
Definition AppendInstructions (r : LLMRequest) (instructions : list string) : LLMRequest :=
  let config := config_or_zero r in
  let joined := join_from 0 instructions EmptyString in
  let system :=
    if negb (String.eqb (SystemInstruction config) EmptyString)
    then SystemInstruction config +:+ (blank_line +:+ joined)
    else joined in
  {| Model := Model r;
     Contents := Contents r;
     Config :=
       Some {| SystemInstruction := system;
               Tools := Tools config;
               ResponseSchema := ResponseSchema config;
               ResponseMimeType := ResponseMimeType config;
               Temperature := Temperature config;
               TopP := TopP config;
               Config_MaxTokens := Config_MaxTokens config;
               StopSequences := StopSequences config |};
     LiveConnect := LiveConnect r;
     ToolsDict := ToolsDict r |}.

(** The errors of the tools' Declaration method. *)
Context {tool_error : Type} `{!Tool BaseTool tool_error}.

Inductive tools_error : Type :=
| ErrGettingDeclaration (name : string) (err : tool_error)
    (* fmt.Errorf: getting declaration from tool %s: %w *).

(** The loop of AppendTools: [decls] and [dict] are the declarations
    collected and the dictionary as written so far; the loop returns at the
    first tool whose Declaration fails.  A nil dictionary reads as the empty
    one and is replaced by a new one before the loop. *)
Fixpoint AppendTools_range (tools : list BaseTool) (decls : list string)
    (dict : gmap string BaseTool) : result (list string) tools_error * gmap string BaseTool :=
  match tools with
  | [] => (Ok decls, dict)
  | tool :: tools' =>
    match Declaration tool with
    | Err err => (Err (ErrGettingDeclaration (Name tool) err), dict)
    | Ok declaration =>
      AppendTools_range tools' (decls ++ [declaration]) (<[Name tool := tool]> dict)
    end
  end.

(** func (r *LLMRequest) AppendTools(tools ...BaseTool) error *)
Definition AppendTools (r : LLMRequest) (tools : list BaseTool)
  : option tools_error * LLMRequest :=
  match tools with
  | [] => (None, r)
  | _ :: _ =>
    let config := config_or_zero r in
    match AppendTools_range tools [] (ToolsDict r) with
    | (Err err, dict) =>
      (Some err,
       {| Model := Model r;
          Contents := Contents r;
          Config := Some config;
          LiveConnect := LiveConnect r;
          ToolsDict := dict |})
    | (Ok decls, dict) =>
      (None,
       {| Model := Model r;
          Contents := Contents r;
          Config :=
            Some {| SystemInstruction := SystemInstruction config;
                    Tools := Tools config ++ [ {| FunctionDeclarations := decls |} ];
                    ResponseSchema := ResponseSchema config;
                    ResponseMimeType := ResponseMimeType config;
                    Temperature := Temperature config;
                    TopP := TopP config;
                    Config_MaxTokens := Config_MaxTokens config;
                    StopSequences := StopSequences config |};
          LiveConnect := LiveConnect r;
          ToolsDict := dict |})
    end
  end.

(** func (r *LLMRequest) SetOutputSchema(schema any); a nil schema is [None]. *)
Definition SetOutputSchema (r : LLMRequest) (schema : option any) : LLMRequest :=
  let config := config_or_zero r in
  {| Model := Model r;
     Contents := Contents r;
     Config :=
       Some {| SystemInstruction := SystemInstruction config;
               Tools := Tools config;
               ResponseSchema := schema;
               ResponseMimeType := "application/json";
               Temperature := Temperature config;
               TopP := TopP config;
               Config_MaxTokens := Config_MaxTokens config;
               StopSequences := StopSequences config |};
     LiveConnect := LiveConnect r;
     ToolsDict := ToolsDict r |}.

End messages.

Arguments Content : clear implicits.
Arguments GenerateContentConfig : clear implicits.
Arguments LiveConnectConfig : clear implicits.
Arguments LLMRequest : clear implicits.
Arguments Candidate : clear implicits.
Arguments GenerateContentResponse : clear implicits.
Arguments LLMResponse : clear implicits.

End models.

(** ** Package context

    Of a context the connectors observe only [Err()]: nil while the context
    is live, then the reason it ended. *)

Module context.

Inductive error : Type :=
| Canceled            (* context canceled *)
| DeadlineExceeded    (* context deadline exceeded *).

End context.

(** ** Package common: configuration and retry policy *)

Module common.

Record RetryConfig : Type := {
  MaxRetries : Z;
  MinBackoff : Z;          (* milliseconds *)
  MaxBackoff : Z;          (* milliseconds *)
  StatusCodesToRetry : list Z
}.

Definition DefaultRetryStatusCodes : list Z := [429; 500; 502; 503; 504].

Definition DefaultRetryConfig : RetryConfig :=
  {| MaxRetries := 3;
     MinBackoff := 100;
     MaxBackoff := 5000;
     StatusCodesToRetry := DefaultRetryStatusCodes |}.

(** func rand() float64: float64(time.Now().UnixNano()%1000) / 1000.0, where
    [now] is the clock reading in nanoseconds; Go's remainder takes the sign
    of the dividend. *)
Definition rand (now : Z) : float64.t :=
  float64.div (float64.of_int (Z.rem now 1000)) (float64.of_int 1000).

(** The factor 2*rand() - 1 of the jitter when the clock's last three
    digits are [k], and the facts about it the proofs use: it is zero, or
    has a full mantissa, magnitude at most one and, when positive, value at
    most 499/500. *)
Definition jitter_factor (k : Z) : float64.t :=
  float64.sub (float64.mul (float64.of_int 2)
                 (float64.div (float64.of_int k) (float64.of_int 1000)))
              (float64.of_int 1).

Definition jitter_factor_ok (t : float64.t) : bool :=
  match t with
  | S754_zero _ => true
  | S754_finite s m e =>
    (2 ^ 52 <=? Zpos m) && (e <=? 0) && (Zpos m <=? 2 ^ (- e)) &&
    (s || (500 * Zpos m <=? 499 * 2 ^ (- e)))
  | _ => false
  end.

(** func CalculateBackoff(attempt int, config RetryConfig) time.Duration.
    [now] is what the clock reads when rand is called.  The result is
    [None] when the conversion of the float64 backoff to a Duration is one
    Go does not define. *)
Definition CalculateBackoff (now : Z) (attempt : Z) (config : RetryConfig)
  : option time.Duration :=
  let attempt := if attempt <? 0 then 0 else attempt in
  (* Exponential backoff with jitter: min(maxBackoff, minBackoff * 2^attempt) with 20% jitter *)
  let backoff := float64.mul (float64.of_int (MinBackoff config)) (math.Pow_2 attempt) in
  let backoff := math.Min backoff (float64.of_int (MaxBackoff config)) in
  (* Add jitter (±20%) *)
  let jitter :=
    float64.mul (float64.mul backoff (float64.const 1 5))
      (float64.sub (float64.mul (float64.of_int 2) (rand now)) (float64.of_int 1)) in
  let backoff := float64.add backoff jitter in
  match float64.to_int64 backoff with
  | Some d => Some (int_mul d time.Millisecond)
  | None => None
  end.

(** func ShouldRetry(statusCode int, config RetryConfig) bool *)
Definition ShouldRetry (statusCode : Z) (config : RetryConfig) : bool :=
  existsb (Z.eqb statusCode) (StatusCodesToRetry config).

(** *** Configuration and options *)

Definition DefaultTimeoutSeconds : Z := 30.

Record RegionRouting : Type := {
  EnableRegionRouting : bool;
  PreferredRegions : list string;
  FailoverStrategy : string
}.

Section config.

(** The values of CustomOptions, of type interface{}, and the errors an
    option may return. *)
Context {any error : Type}.

Record LLMConfig : Type := {
  APIKey : string;
  OrgID : string;
  EndpointOverride : string;
  Timeout : Z;                                  (* seconds *)
  LLMConfig_RetryConfig : RetryConfig;
  LLMConfig_RegionRouting : RegionRouting;
  CustomOptions : option (gmap string any)      (* nil, or a map *)
}.

(** type Option func(config *LLMConfig) error: an option may write to the
    configuration it is given, and returns an error or nil. *)
Definition Option : Type := LLMConfig → option error * LLMConfig.

(** func DefaultLLMConfig() *LLMConfig *)
Definition DefaultLLMConfig : LLMConfig :=
  {| APIKey := EmptyString;
     OrgID := EmptyString;
     EndpointOverride := EmptyString;
     Timeout := DefaultTimeoutSeconds;
     LLMConfig_RetryConfig := DefaultRetryConfig;
     LLMConfig_RegionRouting :=
       {| EnableRegionRouting := false;
          PreferredRegions := [];
          FailoverStrategy := "sequential" |};
     CustomOptions := Some ∅ |}.

(** func ApplyOptions(config *LLMConfig, opts ...Option) error.  The
    configuration is returned as the options applied so far have left it. *)
Fixpoint ApplyOptions (config : LLMConfig) (opts : list Option) : option error * LLMConfig :=
  match opts with
  | [] => (None, config)
  | opt :: opts' =>
    match opt config with
    | (Some err, config') => (Some err, config')
    | (None, config') => ApplyOptions config' opts'
    end
  end.

(** func WithAPIKey(apiKey string) Option *)
Definition WithAPIKey (apiKey : string) : Option := fun config =>
  (None, {| APIKey := apiKey;
            OrgID := OrgID config;
            EndpointOverride := EndpointOverride config;
            Timeout := Timeout config;
            LLMConfig_RetryConfig := LLMConfig_RetryConfig config;
            LLMConfig_RegionRouting := LLMConfig_RegionRouting config;
            CustomOptions := CustomOptions config |}).

(** func WithOrgID(orgID string) Option *)
Definition WithOrgID (orgID : string) : Option := fun config =>
  (None, {| APIKey := APIKey config;
            OrgID := orgID;
            EndpointOverride := EndpointOverride config;
            Timeout := Timeout config;
            LLMConfig_RetryConfig := LLMConfig_RetryConfig config;
            LLMConfig_RegionRouting := LLMConfig_RegionRouting config;
            CustomOptions := CustomOptions config |}).

(** func WithEndpoint(endpoint string) Option *)
Definition WithEndpoint (endpoint : string) : Option := fun config =>
  (None, {| APIKey := APIKey config;
            OrgID := OrgID config;
            EndpointOverride := endpoint;
            Timeout := Timeout config;
            LLMConfig_RetryConfig := LLMConfig_RetryConfig config;
            LLMConfig_RegionRouting := LLMConfig_RegionRouting config;
            CustomOptions := CustomOptions config |}).

(** func WithTimeout(timeoutSec int) Option *)
Definition WithTimeout (timeoutSec : Z) : Option := fun config =>
  (None, {| APIKey := APIKey config;
            OrgID := OrgID config;
            EndpointOverride := EndpointOverride config;
            Timeout := timeoutSec;
            LLMConfig_RetryConfig := LLMConfig_RetryConfig config;
            LLMConfig_RegionRouting := LLMConfig_RegionRouting config;
            CustomOptions := CustomOptions config |}).

(** func WithRetryConfig(maxRetries, minBackoff, maxBackoff int, statusCodes []int) Option *)
Definition WithRetryConfig (maxRetries minBackoff maxBackoff : Z) (statusCodes : list Z)
  : Option := fun config =>
  (None, {| APIKey := APIKey config;
            OrgID := OrgID config;
            EndpointOverride := EndpointOverride config;
            Timeout := Timeout config;
            LLMConfig_RetryConfig :=
              {| MaxRetries := maxRetries;
                 MinBackoff := minBackoff;
                 MaxBackoff := maxBackoff;
                 StatusCodesToRetry := statusCodes |};
            LLMConfig_RegionRouting := LLMConfig_RegionRouting config;
            CustomOptions := CustomOptions config |}).

(** func WithRegionRouting(enable bool, regions []string, strategy string) Option *)
Definition WithRegionRouting (enable : bool) (regions : list string) (strategy : string)
  : Option := fun config =>
  (None, {| APIKey := APIKey config;
            OrgID := OrgID config;
            EndpointOverride := EndpointOverride config;
            Timeout := Timeout config;
            LLMConfig_RetryConfig := LLMConfig_RetryConfig config;
            LLMConfig_RegionRouting :=
              {| EnableRegionRouting := enable;
                 PreferredRegions := regions;
                 FailoverStrategy := strategy |};
            CustomOptions := CustomOptions config |}).

(** func WithCustomOption(key string, value interface{}) Option: a nil map
    is replaced by a new one before the write. *)
Definition WithCustomOption (key : string) (value : any) : Option := fun config =>
  let options :=
    match CustomOptions config with
    | None => ∅
    | Some options => options
    end in
  (None, {| APIKey := APIKey config;
            OrgID := OrgID config;
            EndpointOverride := EndpointOverride config;
            Timeout := Timeout config;
            LLMConfig_RetryConfig := LLMConfig_RetryConfig config;
            LLMConfig_RegionRouting := LLMConfig_RegionRouting config;
            CustomOptions := Some (<[key := value]> options) |}).

(** The options the package provides. *)
Inductive provided : Option → Prop :=
| provided_WithAPIKey apiKey : provided (WithAPIKey apiKey)
| provided_WithOrgID orgID : provided (WithOrgID orgID)
| provided_WithEndpoint endpoint : provided (WithEndpoint endpoint)
| provided_WithTimeout timeoutSec : provided (WithTimeout timeoutSec)
| provided_WithRetryConfig maxRetries minBackoff maxBackoff statusCodes :
    provided (WithRetryConfig maxRetries minBackoff maxBackoff statusCodes)
| provided_WithRegionRouting enable regions strategy :
    provided (WithRegionRouting enable regions strategy)
| provided_WithCustomOption key value : provided (WithCustomOption key value).

(** func CreateEndpointURL(baseEndpoint string, config *LLMConfig) string.
    The region is PreferredRegions[0], which the test before it shows to
    exist; Sprintf joins the two with a slash. *)
Definition CreateEndpointURL (baseEndpoint : string) (config : LLMConfig) : string :=
  if negb (String.eqb (EndpointOverride config) EmptyString) then EndpointOverride config
  else
    match EnableRegionRouting (LLMConfig_RegionRouting config),
          PreferredRegions (LLMConfig_RegionRouting config) with
    | false, _ | _, [] => baseEndpoint
    | true, region :: _ => baseEndpoint +:+ "/" +:+ region
    end.

End config.

Arguments LLMConfig : clear implicits.
Arguments Option : clear implicits.

(** func NewHTTPClientWithTimeout(timeoutSec int) *http.Client *)
Definition NewHTTPClientWithTimeout (timeoutSec : Z) : http.Client :=
  let timeoutSec := if timeoutSec <=? 0 then DefaultTimeoutSeconds else timeoutSec in
  {| http.Timeout := int_mul timeoutSec time.Second |}.

End common.

(** ** Package mistral: the Mistral connector *)

Module mistral.

Section client.

Context {any BaseTool : Type}.

Abbreviation LLMRequest := (models.LLMRequest any BaseTool).
Abbreviation LLMResponse := (models.LLMResponse any).

(** Of the client the calls below read the model name only. *)
Record MistralClient : Type := {
  modelName : string
}.

Inductive error : Type :=
| ErrContext (err : context.error)
    (* return nil, ctx.Err() *)
| ErrInvalidRequest (err : models.request_error)
    (* fmt.Errorf: invalid request: %w *)
| ErrProcessingRequest (i : nat) (err : error)
    (* fmt.Errorf: error processing request %d: %w *).

Definition context_message (err : context.error) : string :=
  match err with
  | context.Canceled => "context canceled"
  | context.DeadlineExceeded => "context deadline exceeded"
  end.

Definition request_message (err : models.request_error) : string :=
  match err with
  | models.ErrModelRequired => "model ID is required"
  | models.ErrNoContents => "request must contain at least one content message"
  end.

(** The text of an error: the format strings of the source, with the index
    printed in decimal by the verb d and the wrapped error's text by w. *)
Fixpoint Error (e : error) : string :=
  match e with
  | ErrContext err => context_message err
  | ErrInvalidRequest err => "invalid request: " +:+ request_message err
  | ErrProcessingRequest i err =>
    "error processing request " +:+ pretty i +:+ ": " +:+ Error err
  end.

(** The usage block of the mock response. *)
Definition mockUsage : models.UsageMetrics :=
  {| models.PromptTokens := 90;
     models.CompletionTokens := 40;
     models.TotalTokens := 130;
     models.LatencyMs := float64.of_int 350;
     models.CostCents := float64.const 1 100 |}.

(** func (c *MistralClient) Call(ctx, request): a response or an error.
    [ctx_Err] is what [ctx.Err()] returns when the call starts. *)
Definition Call (c : MistralClient) (ctx_Err : option context.error) (request : LLMRequest)
  : result LLMResponse error :=
  match ctx_Err with
  | Some err => Err (ErrContext err)
  | None =>
    match models.Validate request with
    | Some err => Err (ErrInvalidRequest err)
    | None =>
      Ok (models.response mockUsage
            (Some {| models.Role := "assistant";
                     models.Message := "This is a mock response from " +:+ modelName c;
                     models.Parts := [] |})
            None None None)
    end
  end.

(** The loop of BatchCall from index [i] on: [requests] are the requests
    not yet visited, [responses] the slice as filled so far.  [ctx j] is
    what the context reports during the call for request [j]. *)
Fixpoint BatchCall_from (c : MistralClient) (ctx : nat -> option context.error)
    (i : nat) (requests : list LLMRequest) (responses : list (option LLMResponse))
  : list (option LLMResponse) * option error :=
  match requests with
  | [] => (responses, None)
  | req :: requests' =>
    match Call c (ctx i) req with
    | Ok r => BatchCall_from c ctx (S i) requests' (<[i := Some r]> responses)
    | Err err => (<[i := None]> responses, Some (ErrProcessingRequest i err))
    end
  end.

(** func (c *MistralClient) BatchCall(ctx, requests): the slice of responses and an error. *)
Definition BatchCall (c : MistralClient) (ctx : nat -> option context.error)
    (requests : list LLMRequest) : list (option LLMResponse) * option error :=
  BatchCall_from c ctx 0 requests (replicate (length requests) None).

(** The provider response Call makes up, [mockResponse] in the source. *)
Definition mockResponse (c : MistralClient) : models.GenerateContentResponse any :=
  {| models.Candidates :=
       [ {| models.Candidate_Content :=
              Some {| models.Role := "assistant";
                      models.Message := "This is a mock response from " +:+ modelName c;
                      models.Parts := [] |};
            models.FinishReason := "stop";
            models.FinishMessage := EmptyString;
            models.Candidate_GroundingMetadata := None |} ];
     models.Response_PromptFeedback := None;
     models.Response_Usage := mockUsage |}.

(** func (c *MistralClient) SupportedModels() []string *)
Definition SupportedModels (c : MistralClient) : list string :=
  ["mistral-small"; "mistral-medium"; "mistral-large"].

End client.

Section constructor.

(** The values of the custom options, and the errors of the options. *)
Context {any option_error : Type}.

Abbreviation LLMConfig := (common.LLMConfig any).
Abbreviation Option := (common.Option any option_error).

Definition defaultMistralEndpoint : string := "https://api.mistral.ai/v1".

(** List of model patterns the Mistral connector supports *)
Definition supportedModelPatterns : list string := ["mistral-.*"].

Inductive constructor_error : Type :=
| ErrApplyingOptions (err : option_error)
    (* fmt.Errorf: applying options: %w *)
| ErrAPIKeyRequired
    (* Mistral API key is required *).

(** func NewMistralClient(model string, opts ...common.Option) (common.LLM, error).
    The client made is the pair of its two fields: the configuration,
    which no method reads, and the model name, in the record the methods
    take. *)
Definition NewMistralClient (model : string) (opts : list Option)
  : result (LLMConfig * MistralClient) constructor_error :=
  match common.ApplyOptions common.DefaultLLMConfig opts with
  | (Some err, _) => Err (ErrApplyingOptions err)
  | (None, config) =>
    (* Validate required config *)
    if String.eqb (common.APIKey config) EmptyString then Err ErrAPIKeyRequired
    else Ok (config, {| modelName := model |})
  end.

(** func init(): registers this adapter with the connectors registry. *)
Definition init `{regexp.Engine} (st : connectors.state) : connectors.state :=
  foldl (fun st pattern => (connectors.Register pattern NewMistralClient st).2)
        st supportedModelPatterns.

End constructor.

Arguments constructor_error : clear implicits.

End mistral.

(** ** Package llama: the connector for locally hosted models *)

Module llama.

Section constructor.

Context {any option_error : Type}.

Abbreviation LLMConfig := (common.LLMConfig any).
Abbreviation Option := (common.Option any option_error).

Definition defaultLlamaEndpoint : string := "http://localhost:8080/v1".

Record LlamaClient : Type := {
  config : LLMConfig;
  modelName : string
}.

Inductive constructor_error : Type :=
| ErrApplyingOptions (err : option_error)
    (* fmt.Errorf: applying options: %w *).

(** func NewLlamaClient(model string, opts ...common.Option) (common.LLM, error) *)
Definition NewLlamaClient (model : string) (opts : list Option)
  : result LlamaClient constructor_error :=
  match common.ApplyOptions common.DefaultLLMConfig opts with
  | (Some err, _) => Err (ErrApplyingOptions err)
  | (None, config) =>
    (* For locally-hosted models, we might not need an API key
       but we do need a valid endpoint *)
    let config :=
      if String.eqb (common.EndpointOverride config) EmptyString then
        {| common.APIKey := common.APIKey config;
           common.OrgID := common.OrgID config;
           common.EndpointOverride := defaultLlamaEndpoint;
           common.Timeout := common.Timeout config;
           common.LLMConfig_RetryConfig := common.LLMConfig_RetryConfig config;
           common.LLMConfig_RegionRouting := common.LLMConfig_RegionRouting config;
           common.CustomOptions := common.CustomOptions config |}
      else config in
    Ok {| config := config; modelName := model |}
  end.

End constructor.

Arguments LlamaClient : clear implicits.
Arguments constructor_error : clear implicits.

End llama.

(** ** Package custom: the connector for custom endpoints *)

Module custom.

Section constructor.

Context {any option_error : Type}.

Abbreviation LLMConfig := (common.LLMConfig any).
Abbreviation Option := (common.Option any option_error).

Record CustomClient : Type := {
  config : LLMConfig;
  modelName : string
}.

Inductive constructor_error : Type :=
| ErrApplyingOptions (err : option_error)
    (* fmt.Errorf: applying options: %w *)
| ErrEndpointRequired
    (* custom model requires EndpointOverride to be set *).

(** func NewCustomClient(model string, opts ...common.Option) (common.LLM, error) *)
Definition NewCustomClient (model : string) (opts : list Option)
  : result CustomClient constructor_error :=
  match common.ApplyOptions common.DefaultLLMConfig opts with
  | (Some err, _) => Err (ErrApplyingOptions err)
  | (None, config) =>
    (* Validate required config - custom models must have endpoint overrides *)
    if String.eqb (common.EndpointOverride config) EmptyString then Err ErrEndpointRequired
    else Ok {| config := config; modelName := model |}
  end.

End constructor.

Arguments CustomClient : clear implicits.
Arguments constructor_error : clear implicits.

End custom.

(** ** Data of the repository's tests and of Init

    The constructors the connectors register, the two overlapping OpenAI
    entries of [models.Init], and the states the tests set up, run with the
    engine [re2]. *)

Module fixtures.

#[local] Existing Instance re2.engine.

Inductive constructorFn : Type :=
| mockConstructor
| NewMistralClient.

(** registry_test.go: Register of test-.* with the mock constructor. *)
Definition connectors_test : connectors.state :=
  (connectors.Register "test-.*" mockConstructor connectors.init).2.

(** A registration that regexp.Compile rejects. *)
Definition connectors_invalid : connectors.state :=
  (connectors.Register "[invalid" mockConstructor connectors.init).2.

Definition gpt_4_turbo : models.ModelInfo :=
  {| models.ID := "gpt-4-turbo";
     models.Profiles := [models.ProfileChat; models.ProfileThinking;
                         models.ProfileAgent; models.ProfileRAG];
     models.MaxTokens := 128000;
     models.CostPerToken := float64.const 1 100000;
     models.Provider := models.ProviderOpenAI;
     models.CostTier_ := models.CostTierPremium;
     models.Version := "1.0" |}.

Definition gpt_4 : models.ModelInfo :=
  {| models.ID := "gpt-4";
     models.Profiles := [models.ProfileChat; models.ProfileThinking; models.ProfileAgent];
     models.MaxTokens := 8192;
     models.CostPerToken := float64.const 3 100000;
     models.Provider := models.ProviderOpenAI;
     models.CostTier_ := models.CostTierPremium;
     models.Version := "1.0" |}.

(** The first two calls of NewModelInfo in Init, without the pattern gpt-4$. *)
Definition models_openai : models.state :=
  (models.NewModelInfo gpt_4 ["gpt-4-.*"]
     (models.NewModelInfo gpt_4_turbo ["gpt-4-turbo.*"] models.init).2).2.

Definition models_openai_order : list (string * models.ModelInfo) :=
  [("gpt-4-turbo.*", gpt_4_turbo); ("gpt-4-.*", gpt_4)].

(** response_test.go, TestCreateLLMResponse.  Parts are strings there. *)

Definition usage (prompt completion total : Z) : models.UsageMetrics :=
  {| models.PromptTokens := prompt;
     models.CompletionTokens := completion;
     models.TotalTokens := total;
     models.LatencyMs := float64.of_int 0;
     models.CostCents := float64.of_int 0 |}.



Definition candidate_with_error : models.GenerateContentResponse string :=
  {| models.Candidates :=
       [ {| models.Candidate_Content := None;
            models.FinishReason := "MAX_TOKENS";
            models.FinishMessage := "Response exceeded maximum token limit";
            models.Candidate_GroundingMetadata := None |} ];
     models.Response_PromptFeedback := None;
     models.Response_Usage := usage 10 0 0 |}.

(** The same candidate as the provider sends it when it gives no finish
    message: the field is omitted and decodes to the empty string. *)
Definition candidate_without_message : models.GenerateContentResponse string :=
  {| models.Candidates :=
       [ {| models.Candidate_Content := None;
            models.FinishReason := "MAX_TOKENS";
            models.FinishMessage := EmptyString;
            models.Candidate_GroundingMetadata := None |} ];
     models.Response_PromptFeedback := None;
     models.Response_Usage := usage 10 0 0 |}.


Definition empty_response : models.GenerateContentResponse string :=
  {| models.Candidates := [];
     models.Response_PromptFeedback := None;
     models.Response_Usage := usage 10 0 0 |}.

(** A batch of three requests whose second has no model name. *)

Inductive BaseTool : Type := .

Definition request (model : string) : models.LLMRequest string BaseTool :=
  {| models.Model := model;
     models.Contents := [ {| models.Role := "user"; models.Message := "Hi"; models.Parts := [] |} ];
     models.Config := None;
     models.LiveConnect :=
       {| models.EnableStreaming := false;
          models.StreamTimeout := 0;
          models.CallbackURI := EmptyString;
          models.CustomConfig := ∅ |};
     models.ToolsDict := ∅ |}.

Definition batch : list (models.LLMRequest string BaseTool) :=
  [request "mistral-small"; request EmptyString; request "mistral-large"].

Definition client : mistral.MistralClient := {| mistral.modelName := "mistral-small" |}.

(** A context that stays live. *)
Definition background : nat -> option context.error := fun _ => None.

(** Retry policies: one with a negative minimum, one with a negative
    maximum, and one whose backoff does not fit a Duration. *)
Definition policy (minBackoff maxBackoff : Z) : common.RetryConfig :=
  {| common.MaxRetries := 3;
     common.MinBackoff := minBackoff;
     common.MaxBackoff := maxBackoff;
     common.StatusCodesToRetry := common.DefaultRetryStatusCodes |}.

(** registry_test.go of package models, setupTestRegistry: three models,
    two under their own name and one under a pattern. *)

Definition test_model_1 : models.ModelInfo :=
  {| models.ID := "test-model-1";
     models.Profiles := [models.ProfileChat; models.ProfileThinking];
     models.MaxTokens := 4096;
     models.CostPerToken := float64.const 1 10000;
     models.Provider := models.ProviderOpenAI;
     models.CostTier_ := models.CostTierStandard;
     models.Version := EmptyString |}.

Definition test_model_2 : models.ModelInfo :=
  {| models.ID := "test-model-2";
     models.Profiles := [models.ProfileChat; models.ProfileAgent; models.ProfileRAG];
     models.MaxTokens := 8192;
     models.CostPerToken := float64.const 2 10000;
     models.Provider := models.ProviderAnthropic;
     models.CostTier_ := models.CostTierPremium;
     models.Version := EmptyString |}.

Definition test_regex_model : models.ModelInfo :=
  {| models.ID := "test-regex-model";
     models.Profiles := [models.ProfileChat];
     models.MaxTokens := 16384;
     models.CostPerToken := float64.const 3 10000;
     models.Provider := models.ProviderGoogle;
     models.CostTier_ := models.CostTierPremium;
     models.Version := EmptyString |}.

Definition setupTestRegistry (st : models.state) : models.state :=
  let st := models.ClearRegistry st in
  let st := (models.NewModelInfo test_model_1 ["test-model-1"] st).2 in
  let st := (models.NewModelInfo test_model_2 ["test-model-2"] st).2 in
  (models.NewModelInfo test_regex_model ["test-regex-.*"] st).2.

Definition test_order : list (string * models.ModelInfo) :=
  [("test-regex-.*", test_regex_model); ("test-model-1", test_model_1);
   ("test-model-2", test_model_2)].

(** request_test.go: the mock tool, a name with the declaration and the
    error its Declaration method returns. *)

Inductive tool_error : Type :=
| ErrNoDeclaration.

Record mockTool : Type := {
  name : string;
  decl : string;
  err : option tool_error
}.

#[export] Instance mockTool_Tool : models.Tool mockTool tool_error := {|
  models.Name m := name m;
  models.Declaration m :=
    match err m with
    | Some e => Err e
    | None => Ok (decl m)
    end
|}.

(** The quotation mark of the JSON declarations of the test. *)
Definition quoted (s : string) : string :=
  String "034"%char s +:+ String "034"%char EmptyString.

(** The declaration of a tool of the test: name and description as JSON. *)
Definition declaration (n d : string) : string :=
  "{" +:+ quoted "name" +:+ ":" +:+ quoted n +:+ "," +:+
  quoted "description" +:+ ":" +:+ quoted d +:+ "}".

Definition tool1 : mockTool :=
  {| name := "tool1"; decl := declaration "tool1" "Tool 1"; err := None |}.

Definition tool2 : mockTool :=
  {| name := "tool2"; decl := declaration "tool2" "Tool 2"; err := None |}.

Definition broken_tool : mockTool :=
  {| name := "broken"; decl := EmptyString; err := Some ErrNoDeclaration |}.

Definition tool_request : models.LLMRequest string mockTool :=
  {| models.Model := "gpt-4";
     models.Contents :=
       [ {| models.Role := "user"; models.Message := "Hello"; models.Parts := [] |} ];
     models.Config := None;
     models.LiveConnect :=
       {| models.EnableStreaming := false;
          models.StreamTimeout := 0;
          models.CallbackURI := EmptyString;
          models.CustomConfig := ∅ |};
     models.ToolsDict := ∅ |}.

(** An option that refuses the configuration it is given. *)

Inductive option_error : Type :=
| ErrRefused.

Definition refusing : common.Option string option_error :=
  fun config => (Some ErrRefused, config).

End fixtures.

(** * Properties *)

(** ** The registries *)

Section connectors_registry.

Context `{regexp.Engine} {constructorFn : Type}.

Implicit Types (st : connectors.state (constructorFn := constructorFn)).
Implicit Types (order : list (string * constructorFn)).

Lemma connectors_range_found order model ctor :
  connectors.range_registry order model = Some (Ok ctor) →
  ∃ regex, (regex, ctor) ∈ order ∧ regexp.MatchString regex model = Ok true.
Proof.
  induction order as [|[regex c] order IH]; simpl; [done|].
  destruct (regexp.MatchString regex model) as [[|]|err] eqn:Hm.
  - intros [= ->]. exists regex. split; [left | done].
  - intros Hr. destruct (IH Hr) as (regex' & Hin & Hm'). exists regex'. split; [by right | done].
  - done.
Qed.

Lemma connectors_range_none order model :
  connectors.range_registry order model = None ↔
  ∀ regex ctor, (regex, ctor) ∈ order → regexp.MatchString regex model = Ok false.
Proof.
  induction order as [|[regex c] order IH]; simpl.
  - split; [intros _ ? ? Hin; inversion Hin | done].
  - destruct (regexp.MatchString regex model) as [[|]|err] eqn:Hm.
    + split; [done|]. intros Hall. specialize (Hall regex c (list_elem_of_here _ _)). congruence.
    + rewrite IH. split.
      * intros Hall regex' c' Hin. apply elem_of_cons in Hin as [[= -> ->]|Hin]; eauto.
      * intros Hall regex' c' Hin. apply (Hall regex' c'). by right.
    + split; [done|]. intros Hall. specialize (Hall regex c (list_elem_of_here _ _)). congruence.
Qed.

Lemma connectors_visits_elem m order regex ctor :
  connectors.visits m order → (regex, ctor) ∈ order ↔ m !! regex = Some ctor.
Proof.
  unfold connectors.visits. intros Hp. rewrite Hp. apply elem_of_map_to_list.
Qed.

Lemma connectors_Resolve_hit order model st ctor :
  connectors.resolveCache st !! model = Some ctor →
  connectors.Resolve order model st = (Ok ctor, st).
Proof. intros Hc. unfold connectors.Resolve. by rewrite Hc. Qed.

Lemma connectors_Resolve_miss order model st :
  connectors.resolveCache st !! model = None →
  connectors.Resolve order model st =
    match connectors.range_registry order model with
    | Some (Ok ctor) =>
      (Ok ctor, {| connectors.registry := connectors.registry st;
                   connectors.resolveCache := <[model := ctor]> (connectors.resolveCache st) |})
    | Some (Err e) => (Err e, st)
    | None => (Err (connectors.ErrNoConstructor model), st)
    end.
Proof. intros Hc. unfold connectors.Resolve. by rewrite Hc. Qed.

Lemma connectors_Resolve_Ok order model st ctor st' :
  connectors.Resolve order model st = (Ok ctor, st') →
  connectors.resolveCache st' !! model = Some ctor ∧
  connectors.registry st' = connectors.registry st.
Proof.
  destruct (connectors.resolveCache st !! model) as [c|] eqn:Hc.
  - rewrite (connectors_Resolve_hit _ _ _ _ Hc). intros [= -> ->]. done.
  - rewrite (connectors_Resolve_miss _ _ _ Hc).
    destruct (connectors.range_registry order model) as [[c|e]|]; intros [= <- <-]; simpl.
    split; [apply lookup_insert_eq | done].
Qed.

Lemma connectors_Resolve_Err order model st e st' :
  connectors.Resolve order model st = (Err e, st') →
  st' = st ∧ connectors.resolveCache st !! model = None.
Proof.
  destruct (connectors.resolveCache st !! model) as [c|] eqn:Hc.
  - rewrite (connectors_Resolve_hit _ _ _ _ Hc). done.
  - rewrite (connectors_Resolve_miss _ _ _ Hc).
    destruct (connectors.range_registry order model) as [[c|e']|]; intros [= <- <-]; done.
Qed.

Lemma connectors_Resolve_registry order model st :
  connectors.registry (connectors.Resolve order model st).2 = connectors.registry st.
Proof.
  destruct (connectors.Resolve order model st) as [[c|e] st'] eqn:Hr; simpl.
  - by apply connectors_Resolve_Ok in Hr as [_ ?].
  - by apply connectors_Resolve_Err in Hr as [-> _].
Qed.

Lemma connectors_cache_consistent st :
  connectors.reachable st → connectors.cache_consistent st.
Proof.
  induction 1 as [|st regex c Hst IH|st order model Hst IH Hv].
  - intros model ctor. simpl. by rewrite lookup_empty.
  - intros model ctor. simpl. by rewrite lookup_empty.
  - intros model' ctor.
    destruct (connectors.resolveCache st !! model) as [c0|] eqn:Hc0.
    { rewrite (connectors_Resolve_hit _ _ _ _ Hc0). apply IH. }
    rewrite (connectors_Resolve_miss _ _ _ Hc0).
    destruct (connectors.range_registry order model) as [[c1|e1]|] eqn:Hrange; simpl;
      [|apply IH..].
    destruct (decide (model = model')) as [<-|Hne].
    + rewrite lookup_insert_eq. intros [= <-].
      destruct (connectors_range_found _ _ _ Hrange) as (regex & Hin & Hm).
      exists regex. split; [|done]. by apply (connectors_visits_elem _ order).
    + rewrite lookup_insert_ne by done. apply IH.
Qed.

End connectors_registry.

Section regexp_facts.

Context `{regexp.Engine}.

Lemma MatchString_Err pattern s err :
  regexp.MatchString pattern s = Err err ↔ regexp.Compile pattern = Err err.
Proof.
  unfold regexp.MatchString. destruct (regexp.Compile pattern); split; congruence.
Qed.

Lemma MatchString_Ok pattern s b :
  regexp.MatchString pattern s = Ok b → ∃ re, regexp.Compile pattern = Ok re.
Proof.
  unfold regexp.MatchString. destruct (regexp.Compile pattern); [eauto | done].
Qed.

End regexp_facts.

Section models_registry.

Context `{regexp.Engine}.

Implicit Types (st : models.state) (order : list (string * models.ModelInfo)).

Lemma models_range_found order model resolved :
  models.range_registry order model = Some (Ok resolved) →
  ∃ pattern info, (pattern, info) ∈ order ∧
    regexp.MatchString pattern model = Ok true ∧ resolved = models.with_ID info model.
Proof.
  induction order as [|[pattern info] order IH]; simpl; [done|].
  destruct (regexp.MatchString pattern model) as [[|]|err] eqn:Hm; [| |done].
  - intros [= <-]. exists pattern, info. repeat split; [left | done].
  - intros (p & i & Hin & Hrest)%IH. exists p, i. split; [by right | done].
Qed.

Lemma models_range_none order model :
  models.range_registry order model = None ↔
  ∀ pattern info, (pattern, info) ∈ order → regexp.MatchString pattern model = Ok false.
Proof.
  induction order as [|[pattern info] order IH]; simpl.
  - split; [intros _ ? ? Hin; inversion Hin | done].
  - destruct (regexp.MatchString pattern model) as [[|]|err] eqn:Hm.
    + split; [done|]. intros Hall. specialize (Hall pattern info (list_elem_of_here _ _)). congruence.
    + rewrite IH. split.
      * intros Hall p i Hin. apply elem_of_cons in Hin as [[= -> ->]|Hin]; eauto.
      * intros Hall p i Hin. apply (Hall p i). by right.
    + split; [done|]. intros Hall. specialize (Hall pattern info (list_elem_of_here _ _)). congruence.
Qed.

Lemma models_range_error order model e :
  models.range_registry order model = Some (Err e) →
  ∃ pattern info err, (pattern, info) ∈ order ∧ regexp.Compile pattern = Err err.
Proof.
  induction order as [|[pattern info] order IH]; simpl; [done|].
  destruct (regexp.MatchString pattern model) as [[|]|err] eqn:Hm; [done| |].
  - intros (p & i & err & Hin & Hc)%IH. exists p, i, err. split; [by right | done].
  - intros _. exists pattern, info, err. split; [left | by apply (MatchString_Err pattern model)].
Qed.

Lemma models_visits_elem m order pattern info :
  models.visits m order → (pattern, info) ∈ order ↔ m !! pattern = Some info.
Proof.
  unfold models.visits. intros Hp. rewrite Hp. apply elem_of_map_to_list.
Qed.

Lemma models_Resolve_hit order model st info :
  models.cache st !! model = Some info →
  models.Resolve order model st = (Ok info, st).
Proof. intros Hc. unfold models.Resolve. by rewrite Hc. Qed.

Lemma models_Resolve_miss order model st :
  models.cache st !! model = None →
  models.Resolve order model st =
    match models.range_registry order model with
    | Some (Ok resolved) =>
      (Ok resolved, {| models.registry := models.registry st;
                       models.cache := <[model := resolved]> (models.cache st) |})
    | Some (Err e) => (Err e, st)
    | None => (Err (models.ErrModelNotFound model), st)
    end.
Proof. intros Hc. unfold models.Resolve. by rewrite Hc. Qed.

Lemma models_Resolve_Ok order model st info st' :
  models.Resolve order model st = (Ok info, st') →
  models.cache st' !! model = Some info ∧ models.registry st' = models.registry st.
Proof.
  destruct (models.cache st !! model) as [c|] eqn:Hc.
  - rewrite (models_Resolve_hit _ _ _ _ Hc). intros [= -> ->]. done.
  - rewrite (models_Resolve_miss _ _ _ Hc).
    destruct (models.range_registry order model) as [[c|e]|]; intros [= <- <-]; simpl.
    split; [apply lookup_insert_eq | done].
Qed.

Lemma models_Resolve_Err order model st e st' :
  models.Resolve order model st = (Err e, st') →
  st' = st ∧ models.cache st !! model = None.
Proof.
  destruct (models.cache st !! model) as [c|] eqn:Hc.
  - rewrite (models_Resolve_hit _ _ _ _ Hc). done.
  - rewrite (models_Resolve_miss _ _ _ Hc).
    destruct (models.range_registry order model) as [[c|e']|]; intros [= <- <-]; done.
Qed.

Lemma models_Register_Ok regexPattern info st :
  (models.Register regexPattern info st).1 = None →
  (∃ re, regexp.Compile regexPattern = Ok re) ∧
  (models.Register regexPattern info st).2 =
    {| models.registry := <[regexPattern := info]> (models.registry st);
       models.cache := ∅ |}.
Proof.
  unfold models.Register. destruct (regexp.Compile regexPattern) as [re|err]; [eauto | done].
Qed.

Lemma models_Register_Err regexPattern info st err :
  regexp.Compile regexPattern = Err err →
  models.Register regexPattern info st = (Some (models.ErrInvalidRegex regexPattern err), st).
Proof. intros Hc. unfold models.Register. by rewrite Hc. Qed.

Lemma models_invariant st :
  models.reachable st → models.cache_consistent st ∧ models.patterns_compile st.
Proof.
  induction 1 as [|st p info Hst [IHc IHp]|st order model Hst [IHc IHp] Hv|st Hst _].
  - split; intros ? ?; simpl; by rewrite lookup_empty.
  - unfold models.Register.
    destruct (regexp.Compile p) as [re|err] eqn:Hcomp; simpl; [|done].
    split.
    + intros model resolved. simpl. by rewrite lookup_empty.
    + intros p' info'. simpl.
      destruct (decide (p = p')) as [<-|Hne].
      * eauto.
      * rewrite lookup_insert_ne by done. apply IHp.
  - destruct (models.cache st !! model) as [c0|] eqn:Hc0.
    { by rewrite (models_Resolve_hit _ _ _ _ Hc0). }
    rewrite (models_Resolve_miss _ _ _ Hc0).
    destruct (models.range_registry order model) as [[r|e]|] eqn:Hrange; simpl; [|done..].
    split; [|done].
    intros model' resolved. simpl.
    destruct (decide (model = model')) as [<-|Hne].
    + rewrite lookup_insert_eq. intros [= <-].
      destruct (models_range_found _ _ _ Hrange) as (p & i & Hin & Hm & ->).
      exists p, i. split; [|done]. by apply (models_visits_elem _ order).
    + rewrite lookup_insert_ne by done. apply IHc.
  - split; intros ? ?; simpl; by rewrite lookup_empty.
Qed.

End models_registry.

(** ** Claims about the registries *)

Lemma visits_of_list_to_map {V : Type} (order : list (string * V)) (m : gmap string V) :
  NoDup order.*1 → list_to_map order = m → order ≡ₚ map_to_list m.
Proof. intros Hnd <-. symmetry. by apply map_to_list_to_map. Qed.

(** C4.  Every successful Register empties the whole resolution cache, in
    both registries; the Resolve that follows, of any identifier and with
    any visit order, returns what the scan of the registered patterns gives,
    whatever was cached before; and in every reachable state each cache
    entry is the payload of a registered pattern matching the cached
    identifier. *)
Theorem Register_invalidates_cache `{regexp.Engine} {constructorFn : Type} :
  (∀ (st : connectors.state (constructorFn := constructorFn)) regex ctor,
     (connectors.Register regex ctor st).1 = None ∧
     connectors.resolveCache (connectors.Register regex ctor st).2 = ∅ ∧
     ∀ order model,
       (connectors.Resolve order model (connectors.Register regex ctor st).2).1 =
       match connectors.range_registry order model with
       | Some r => r
       | None => Err (connectors.ErrNoConstructor model)
       end) ∧
  (∀ st : connectors.state (constructorFn := constructorFn),
     connectors.reachable st → connectors.cache_consistent st) ∧
  (∀ (st : models.state) pattern info,
     (models.Register pattern info st).1 = None →
     models.cache (models.Register pattern info st).2 = ∅ ∧
     ∀ order model,
       (models.Resolve order model (models.Register pattern info st).2).1 =
       match models.range_registry order model with
       | Some r => r
       | None => Err (models.ErrModelNotFound model)
       end) ∧
  (∀ st : models.state, models.reachable st → models.cache_consistent st).
Proof.
  split; [|split; [|split]].
  - intros st regex ctor. split; [done|]. split; [done|].
    intros order model. rewrite connectors_Resolve_miss by apply lookup_empty.
    by destruct (connectors.range_registry order model) as [[?|?]|].
  - apply @connectors_cache_consistent.
  - intros st pattern info [_ ->]%models_Register_Ok. split; [done|].
    intros order model. rewrite models_Resolve_miss by apply lookup_empty.
    by destruct (models.range_registry order model) as [[?|?]|].
  - intros st Hst. by apply models_invariant.
Qed.


Lemma models_NewModelInfo_reachable `{regexp.Engine} info patterns st :
  models.reachable st → models.reachable (models.NewModelInfo info patterns st).2.
Proof.
  revert st. induction patterns as [|p patterns IH]; intros st Hst; simpl; [done|].
  pose proof (models.reachable_Register st p info Hst) as Hstep.
  destruct (models.Register p info st) as [[err|] st']; simpl in *; [done|].
  by apply IH.
Qed.


Section registries_on_fixtures.

#[local] Existing Instance re2.engine.

(** The hypotheses of C4 at the states of the tests and of Init. *)
Lemma Register_invalidates_cache_witness :
  connectors.cache_consistent fixtures.connectors_test ∧
  models.cache (models.Register "gpt-4-.*" fixtures.gpt_4 models.init).2 = ∅ ∧
  models.cache_consistent fixtures.models_openai.
Proof.
  destruct (@Register_invalidates_cache re2.engine fixtures.constructorFn)
    as (_ & Hc & Hm & Hmc).
  split; [|split].
  - apply Hc. apply connectors.reachable_Register, connectors.reachable_init.
  - apply (Hm models.init "gpt-4-.*" fixtures.gpt_4). reflexivity.
  - apply Hmc. unfold fixtures.models_openai.
    apply models_NewModelInfo_reachable, models_NewModelInfo_reachable, models.reachable_init.
Defined.


(** C1, where the code departs from it.  The pattern [[invalid] does not
    compile.  models.Register refuses it and leaves the state as it was.
    connectors.Register never compiles its pattern: it returns nil and
    stores the entry, and a later Resolve of any model that reaches the
    entry stops at it with an invalid-regex error. *)
Theorem connectors_Register_accepts_invalid_pattern :
  regexp.Compile "[invalid" = Err re2.ErrMissingBracket ∧
  (∀ (st : models.state) info,
     models.Register "[invalid" info st =
       (Some (models.ErrInvalidRegex "[invalid" re2.ErrMissingBracket), st)) ∧
  (∀ (st : connectors.state) (ctor : fixtures.constructorFn),
     (connectors.Register "[invalid" ctor st).1 = None ∧
     connectors.registry (connectors.Register "[invalid" ctor st).2 !! "[invalid" = Some ctor) ∧
  connectors.Resolve [("[invalid", fixtures.mockConstructor)] "test-model"
      fixtures.connectors_invalid =
    (Err (connectors.ErrInvalidRegex "[invalid" re2.ErrMissingBracket),
     fixtures.connectors_invalid).
Proof.
  split; [reflexivity|]. split; [|split].
  - intros st info. by apply models_Register_Err.
  - intros st ctor. split; [reflexivity|]. simpl. apply lookup_insert_eq.
  - reflexivity.
Qed.

(** C10 as stated fails when two registered patterns match the identifier:
    Init registers gpt-4-turbo.* and gpt-4-.*, both match
    gpt-4-turbo-preview, and a scan that meets gpt-4-turbo.* first returns
    the copy of that entry, not of the entry of gpt-4-.*. *)
Lemma models_Resolve_overlap_counterexample :
  ¬ (∀ (st : models.state) pattern info model order resolved st',
       models.reachable st →
       models.registry st !! pattern = Some info →
       regexp.MatchString pattern model = Ok true →
       models.visits (models.registry st) order →
       models.Resolve order model st = (Ok resolved, st') →
       resolved = models.with_ID info model).
Proof.
  intros Hclaim.
  specialize (Hclaim fixtures.models_openai "gpt-4-.*" fixtures.gpt_4 "gpt-4-turbo-preview"
                fixtures.models_openai_order
                (models.with_ID fixtures.gpt_4_turbo "gpt-4-turbo-preview")
                (models.Resolve fixtures.models_openai_order "gpt-4-turbo-preview"
                   fixtures.models_openai).2).
  assert (models.with_ID fixtures.gpt_4_turbo "gpt-4-turbo-preview" =
          models.with_ID fixtures.gpt_4 "gpt-4-turbo-preview") as Heq.
  { apply Hclaim.
    - apply models_NewModelInfo_reachable, models_NewModelInfo_reachable, models.reachable_init.
    - reflexivity.
    - reflexivity.
    - apply visits_of_list_to_map; [|reflexivity].
      apply (bool_decide_unpack _). reflexivity.
    - reflexivity. }
  apply (f_equal models.MaxTokens) in Heq. discriminate Heq.
Qed.

End registries_on_fixtures.

Lemma with_ID_fields info model :
  models.ID (models.with_ID info model) = model ∧
  models.Profiles (models.with_ID info model) = models.Profiles info ∧
  models.MaxTokens (models.with_ID info model) = models.MaxTokens info ∧
  models.CostPerToken (models.with_ID info model) = models.CostPerToken info ∧
  models.Provider (models.with_ID info model) = models.Provider info ∧
  models.CostTier_ (models.with_ID info model) = models.CostTier_ info ∧
  models.Version (models.with_ID info model) = models.Version info.
Proof. by repeat split. Qed.

(** C10, amended.  A successful models.Resolve of an identifier returns the
    metadata of some registered pattern that matches the identifier, with
    the ID replaced by the identifier and every other field kept; it is the
    copy of a given pattern's metadata whenever that pattern is the only
    registered one matching the identifier.  The registry is unchanged, the
    copy is in the cache, and every later resolution of the identifier
    returns it, whatever order it would scan in. *)
Theorem models_Resolve_copy_with_requested_ID `{regexp.Engine}
    (st : models.state) model order resolved st' :
  models.reachable st →
  models.visits (models.registry st) order →
  models.Resolve order model st = (Ok resolved, st') →
  (∃ pattern info,
     models.registry st !! pattern = Some info ∧
     regexp.MatchString pattern model = Ok true ∧
     resolved = models.with_ID info model) ∧
  (∀ pattern info,
     models.registry st !! pattern = Some info →
     regexp.MatchString pattern model = Ok true →
     (∀ pattern', is_Some (models.registry st !! pattern') →
                  regexp.MatchString pattern' model = Ok true → pattern' = pattern) →
     resolved = models.with_ID info model) ∧
  models.ID resolved = model ∧
  models.registry st' = models.registry st ∧
  models.cache st' !! model = Some resolved ∧
  (∀ order', models.Resolve order' model st' = (Ok resolved, st')).
Proof.
  intros Hst Hv Hr.
  assert (∃ pattern info,
     models.registry st !! pattern = Some info ∧
     regexp.MatchString pattern model = Ok true ∧
     resolved = models.with_ID info model) as Hsome.
  { destruct (models.cache st !! model) as [c|] eqn:Hc.
    - rewrite (models_Resolve_hit _ _ _ _ Hc) in Hr. injection Hr as -> <-.
      by apply (proj1 (models_invariant _ Hst)).
    - rewrite (models_Resolve_miss _ _ _ Hc) in Hr.
      destruct (models.range_registry order model) as [[c|e]|] eqn:Hrange; [|done..].
      injection Hr as -> <-.
      destruct (models_range_found _ _ _ Hrange) as (p & i & Hin & Hm & ->).
      exists p, i. split; [|done]. by apply (models_visits_elem _ order). }
  destruct (models_Resolve_Ok _ _ _ _ _ Hr) as [Hcache Hreg].
  split; [done|]. split; [|split; [|split; [done|split; [done|]]]].
  - intros pattern info Hlook Hm Huniq.
    destruct Hsome as (p & i & Hp & Hpm & ->).
    assert (p = pattern) as -> by (apply Huniq; [by eexists | done]).
    congruence.
  - by destruct Hsome as (p & i & _ & _ & ->).
  - intros order'. by apply models_Resolve_hit.
Qed.

(** The hypotheses of the amended C10 at an identifier that one of the two
    OpenAI patterns matches. *)
Lemma models_Resolve_copy_with_requested_ID_witness :
  models.ID (models.with_ID fixtures.gpt_4 "gpt-4-32k") = "gpt-4-32k" ∧
  models.cache
    (@models.Resolve re2.engine fixtures.models_openai_order "gpt-4-32k"
       fixtures.models_openai).2 !! "gpt-4-32k" =
  Some (models.with_ID fixtures.gpt_4 "gpt-4-32k").
Proof.
  destruct (@models_Resolve_copy_with_requested_ID re2.engine
              fixtures.models_openai "gpt-4-32k" fixtures.models_openai_order
              (models.with_ID fixtures.gpt_4 "gpt-4-32k")
              (@models.Resolve re2.engine fixtures.models_openai_order "gpt-4-32k"
                 fixtures.models_openai).2) as (_ & _ & Hid & _ & Hcache & _).
  - apply models_NewModelInfo_reachable, models_NewModelInfo_reachable, models.reachable_init.
  - apply visits_of_list_to_map; [|reflexivity].
    apply (bool_decide_unpack _). reflexivity.
  - reflexivity.
  - split; [exact Hid | exact Hcache].
Defined.

(** ** Claims about the response normaliser *)

Lemma wrap_in_int z : in_int z → wrap z = z.
Proof.
  unfold in_int, min_int, max_int, wrap. intros Hz.
  rewrite Z.mod_small; lia.
Qed.

Lemma int_add_exact x y : in_int (x + y) → int_add x y = x + y.
Proof. apply wrap_in_int. Qed.

Section normaliser.

Context {any : Type}.

Implicit Types (resp : models.GenerateContentResponse any) (r : models.LLMResponse any).

(** The usage block every branch of CreateLLMResponse installs. *)
Lemma CreateLLMResponse_Usage resp :
  models.Usage (models.CreateLLMResponse resp) =
  {| models.PromptTokens := models.PromptTokens (models.Response_Usage resp);
     models.CompletionTokens := models.CompletionTokens (models.Response_Usage resp);
     models.TotalTokens :=
       int_add (models.PromptTokens (models.Response_Usage resp))
               (models.CompletionTokens (models.Response_Usage resp));
     models.LatencyMs := models.LatencyMs (models.Response_Usage resp);
     models.CostCents := models.CostCents (models.Response_Usage resp) |}.
Proof.
  unfold models.CreateLLMResponse.
  destruct (models.Candidates resp) as [|cand rest].
  - by destruct (models.Response_PromptFeedback resp).
  - by destruct (models.has_content cand).
Qed.


(** Token counts whose sum fits an int give the exact sum. *)
Lemma usage_total_without_overflow resp :
  in_int (models.PromptTokens (models.Response_Usage resp) +
          models.CompletionTokens (models.Response_Usage resp)) →
  models.TotalTokens (models.Usage (models.CreateLLMResponse resp)) =
    models.PromptTokens (models.Response_Usage resp) +
    models.CompletionTokens (models.Response_Usage resp).
Proof.
  intros Hfit. rewrite CreateLLMResponse_Usage. simpl. by apply int_add_exact.
Qed.

Lemma has_content_usable (cand : models.Candidate any) :
  models.has_content cand = true ↔ ∃ content, models.usable cand content.
Proof.
  unfold models.has_content, models.usable.
  destruct (models.Candidate_Content cand) as [content|]; [|split; [done | by intros (? & ? & _)]].
  rewrite orb_true_iff, negb_true_iff, Nat.ltb_lt.
  split.
  - intros [Hparts|Hmsg]; exists content; (split; [done|]).
    + right. intros Hnil. rewrite Hnil in Hparts. simpl in Hparts. lia.
    + left. intros Hnil. rewrite Hnil in Hmsg. by rewrite String.eqb_refl in Hmsg.
  - intros (content' & [= <-] & [Hmsg|Hparts]).
    + right. by apply String.eqb_neq.
    + left. destruct (models.Parts content); [done | simpl; lia].
Qed.


End normaliser.

Section normaliser_on_fixtures.


(** C8 as stated fails: a candidate without content whose finish message
    the provider left out is normalised to a failure whose error message is
    there but is the empty string. *)
Lemma CreateLLMResponse_empty_message_counterexample :
  ¬ (∀ resp : models.GenerateContentResponse string,
       models.IsError (models.CreateLLMResponse resp) = true →
       ∃ code message,
         models.ErrorCode (models.CreateLLMResponse resp) = Some code ∧
         code ≠ EmptyString ∧
         models.ErrorMessage (models.CreateLLMResponse resp) = Some message ∧
         message ≠ EmptyString).
Proof.
  intros Hclaim.
  destruct (Hclaim fixtures.candidate_without_message eq_refl)
    as (code & message & _ & _ & Hmessage & Hnonempty).
  simpl in Hmessage. injection Hmessage as <-. by apply Hnonempty.
Qed.

End normaliser_on_fixtures.

(** C8, amended.  Every failure response the normaliser produces has both
    the error code and the error message present, and no content; the two
    strings are the provider's finish reason and message or block reason and
    message as they came, and may be empty; those of the unknown-error
    fallback are not empty.  IsError is true exactly when the error code or
    the error message is present, whatever the content and the other fields
    hold. *)
Theorem failure_carries_code_and_message {any : Type} :
  (∀ resp : models.GenerateContentResponse any,
     models.IsError (models.CreateLLMResponse resp) = true →
     (∃ code message,
        models.ErrorCode (models.CreateLLMResponse resp) = Some code ∧
        models.ErrorMessage (models.CreateLLMResponse resp) = Some message) ∧
     models.LLMResponse_Content (models.CreateLLMResponse resp) = None) ∧
  (∀ resp : models.GenerateContentResponse any,
     models.Candidates resp = [] → models.Response_PromptFeedback resp = None →
     ∃ code message,
       models.ErrorCode (models.CreateLLMResponse resp) = Some code ∧ code ≠ EmptyString ∧
       models.ErrorMessage (models.CreateLLMResponse resp) = Some message ∧
       message ≠ EmptyString) ∧
  (∀ r : models.LLMResponse any,
     models.IsError r = true ↔ models.ErrorCode r ≠ None ∨ models.ErrorMessage r ≠ None) ∧
  (∀ (r : models.LLMResponse any) (content : option (models.Content any)) grounding
     partial turn interrupted (metadata : gmap string any) usage,
     models.IsError
       {| models.LLMResponse_Content := content;
          models.LLMResponse_GroundingMetadata := grounding;
          models.Partial := partial;
          models.TurnComplete := turn;
          models.ErrorCode := models.ErrorCode r;
          models.ErrorMessage := models.ErrorMessage r;
          models.Interrupted := interrupted;
          models.CustomMetadata := metadata;
          models.Usage := usage |} = models.IsError r).
Proof.
  split; [|split; [|split]].
  - intros resp. unfold models.CreateLLMResponse.
    destruct (models.Candidates resp) as [|cand rest].
    + destruct (models.Response_PromptFeedback resp); intros _; split; eauto.
    + destruct (models.has_content cand); [done|]. intros _. split; eauto.
  - intros resp Hc Hf. unfold models.CreateLLMResponse. rewrite Hc, Hf. simpl.
    exists "UNKNOWN_ERROR", "Unknown error occurred.". by repeat split.
  - intros r. unfold models.IsError.
    destruct (models.ErrorCode r), (models.ErrorMessage r); simpl;
      (split; [intros _; (left; discriminate) || (right; discriminate) | done]) ||
      (split; [done | intros [Hn|Hn]; by destruct Hn]).
  - done.
Qed.

(** The hypotheses of the amended C8 at the truncated candidate and at the
    empty response of response_test.go. *)
Lemma failure_carries_code_and_message_witness :
  (∃ code message,
     models.ErrorCode (models.CreateLLMResponse fixtures.candidate_with_error) = Some code ∧
     models.ErrorMessage (models.CreateLLMResponse fixtures.candidate_with_error) =
       Some message) ∧
  (∃ code message,
     models.ErrorCode (models.CreateLLMResponse fixtures.empty_response) = Some code ∧
     code ≠ EmptyString ∧
     models.ErrorMessage (models.CreateLLMResponse fixtures.empty_response) = Some message ∧
     message ≠ EmptyString).
Proof.
  destruct (@failure_carries_code_and_message string) as (Hfail & Hunknown & _).
  split.
  - apply (Hfail fixtures.candidate_with_error). reflexivity.
  - apply (Hunknown fixtures.empty_response); reflexivity.
Defined.

(** ** Claims about BatchCall *)

Section batch.

Context {any BaseTool : Type}.

Implicit Types (c : mistral.MistralClient) (ctx : nat → option context.error).
Implicit Types (requests : list (models.LLMRequest any BaseTool)).
Implicit Types (responses : list (option (models.LLMResponse any))).

(** The loop started at index [k] on a slice in which some request fails:
    it returns at the first such request, [n] places further on. *)
Lemma BatchCall_from_fails c ctx n : ∀ k requests responses req err,
  requests !! n = Some req →
  mistral.Call c (ctx (k + n)%nat) req = Err err →
  (∀ j req_j, (j < n)%nat → requests !! j = Some req_j →
     ∃ r, mistral.Call c (ctx (k + j)%nat) req_j = Ok r) →
  ∃ responses',
    mistral.BatchCall_from c ctx k requests responses =
      (responses', Some (mistral.ErrProcessingRequest (k + n) err)) ∧
    length responses' = length responses ∧
    (∀ j req_j, (j < n)%nat → requests !! j = Some req_j →
       (k + j < length responses)%nat →
       ∃ r, mistral.Call c (ctx (k + j)%nat) req_j = Ok r ∧
            responses' !! (k + j)%nat = Some (Some r)) ∧
    ((k + n < length responses)%nat → responses' !! (k + n)%nat = Some None) ∧
    (∀ j, (j < k ∨ k + n < j)%nat → responses' !! j = responses !! j).
Proof.
  induction n as [|n IH]; intros k requests responses req err Hreq Hfail Hbefore.
  - destruct requests as [|req0 requests]; [done|]. injection Hreq as ->.
    rewrite Nat.add_0_r in *. simpl. rewrite Hfail.
    eexists. split; [done|]. split; [by rewrite length_insert|].
    split; [intros; lia|]. split.
    + intros Hk. by apply list_lookup_insert_eq.
    + intros j Hj. apply list_lookup_insert_ne. lia.
  - destruct requests as [|req0 requests]; [done|]. simpl in Hreq.
    destruct (Hbefore 0%nat req0) as [r0 Hr0]; [lia | done |].
    rewrite Nat.add_0_r in Hr0. simpl. rewrite Hr0.
    destruct (IH (S k) requests (<[k := Some r0]> responses) req err) as
      (responses' & Hrun & Hlen & Hfilled & Hnil & Hother).
    { done. }
    { by replace (S k + n)%nat with (k + S n)%nat by lia. }
    { intros j req_j Hj Hlook. replace (S k + j)%nat with (k + S j)%nat by lia.
      apply Hbefore; [lia | done]. }
    replace (S k + n)%nat with (k + S n)%nat in * by lia.
    exists responses'. split; [done|]. rewrite length_insert in Hlen.
    split; [done|]. split; [|split].
    + intros [|j] req_j Hj Hlook Hk.
      * injection Hlook as <-. rewrite Nat.add_0_r. exists r0. split; [done|].
        rewrite Hother by lia. apply list_lookup_insert_eq. lia.
      * replace (k + S j)%nat with (S k + j)%nat by lia.
        apply Hfilled; [lia | done | rewrite length_insert; lia].
    + intros Hk. apply Hnil. rewrite length_insert. lia.
    + intros j Hj. rewrite Hother by lia. apply list_lookup_insert_ne. lia.
Qed.

(** C9.  When the request at index [i] is the first whose Call fails,
    BatchCall returns the failure that names [i], its text starting with
    the words error processing request and the index in decimal; the slice
    it returns holds the responses of the requests before [i] and nil from
    [i] on; and the requests after [i] play no part: with any other
    requests in their place the failure is the same. *)
Theorem BatchCall_stops_at_first_failure c ctx requests i req err :
  requests !! i = Some req →
  mistral.Call c (ctx i) req = Err err →
  (∀ j req_j, (j < i)%nat → requests !! j = Some req_j →
     ∃ r, mistral.Call c (ctx j) req_j = Ok r) →
  (mistral.BatchCall c ctx requests).2 = Some (mistral.ErrProcessingRequest i err) ∧
  mistral.Error (mistral.ErrProcessingRequest i err) =
    "error processing request " +:+ pretty i +:+ ": " +:+ mistral.Error err ∧
  length (mistral.BatchCall c ctx requests).1 = length requests ∧
  (∀ j req_j, (j < i)%nat → requests !! j = Some req_j →
     ∃ r, mistral.Call c (ctx j) req_j = Ok r ∧
          (mistral.BatchCall c ctx requests).1 !! j = Some (Some r)) ∧
  (∀ j, (i ≤ j < length requests)%nat →
     (mistral.BatchCall c ctx requests).1 !! j = Some None) ∧
  (∀ later,
     (mistral.BatchCall c ctx (take (S i) requests ++ later)).2 =
       Some (mistral.ErrProcessingRequest i err)).
Proof.
  intros Hreq Hfail Hbefore.
  pose proof (lookup_lt_Some _ _ _ Hreq) as Hi.
  destruct (BatchCall_from_fails c ctx i 0 requests
              (replicate (length requests) None) req err Hreq Hfail Hbefore)
    as (responses' & Hrun & Hlen & Hfilled & Hnil & Hother).
  simpl in *. rewrite length_replicate in *.
  unfold mistral.BatchCall at 1 2 3 4. rewrite Hrun. simpl.
  split; [done|]. split; [done|]. split; [done|]. split; [|split].
  - intros j req_j Hj Hlook. apply Hfilled; [done | done | lia].
  - intros j Hj. destruct (decide (j = i)) as [->|Hne].
    + by apply Hnil.
    + rewrite Hother by lia. apply lookup_replicate_2. lia.
  - intros later.
    assert ((take (S i) requests ++ later) !! i = Some req) as Hreq'.
    { rewrite lookup_app_l by (rewrite length_take; lia).
      rewrite lookup_take_lt by lia. done. }
    destruct (BatchCall_from_fails c ctx i 0 (take (S i) requests ++ later)
                (replicate (length (take (S i) requests ++ later)) None) req err Hreq' Hfail)
      as (responses'' & Hrun' & _).
    { intros j req_j Hj Hlook. apply Hbefore; [done|].
      rewrite lookup_app_l in Hlook by (rewrite length_take; lia).
      by rewrite lookup_take_lt in Hlook by lia. }
    unfold mistral.BatchCall. by rewrite Hrun'.
Qed.

(** A batch all of whose requests succeed returns every response and no
    error. *)
Lemma BatchCall_from_succeeds c ctx : ∀ requests k responses,
  (∀ j req_j, requests !! j = Some req_j →
     ∃ r, mistral.Call c (ctx (k + j)%nat) req_j = Ok r) →
  (mistral.BatchCall_from c ctx k requests responses).2 = None.
Proof.
  induction requests as [|req requests IH]; intros k responses Hall; [done|].
  destruct (Hall 0%nat req eq_refl) as [r Hr]. rewrite Nat.add_0_r in Hr.
  simpl. rewrite Hr. apply IH.
  intros j req_j Hlook. replace (S k + j)%nat with (k + S j)%nat by lia. by apply Hall.
Qed.

End batch.

(** The hypotheses of C9 at the batch of three requests whose second is
    invalid: the failure names index 1 and the third response is nil. *)
Lemma BatchCall_stops_at_first_failure_witness :
  (mistral.BatchCall fixtures.client fixtures.background fixtures.batch).2 =
    Some (mistral.ErrProcessingRequest 1
            (mistral.ErrInvalidRequest models.ErrModelRequired)) ∧
  mistral.Error (mistral.ErrProcessingRequest 1
                   (mistral.ErrInvalidRequest models.ErrModelRequired)) =
    "error processing request 1: invalid request: model ID is required" ∧
  (mistral.BatchCall fixtures.client fixtures.background fixtures.batch).1 !! 2%nat =
    Some None.
Proof.
  destruct (BatchCall_stops_at_first_failure fixtures.client fixtures.background
              fixtures.batch 1 (fixtures.request EmptyString)
              (mistral.ErrInvalidRequest models.ErrModelRequired))
    as (Herr & Htext & _ & _ & Hnil & _).
  - reflexivity.
  - reflexivity.
  - intros [|j] req_j Hj Hlook; [|lia]. injection Hlook as <-. eexists. reflexivity.
  - split; [exact Herr|]. split; [exact Htext|]. apply Hnil. simpl. lia.
Defined.

(** ** float64 arithmetic

    The rounding of the standard library's specification, taken apart: the
    shifts, the rounding step, and from them the two facts the backoff
    needs of a product or a sum of float64 numbers: it is off by one unit
    in the last place at most, and it stays below every float64 number the
    exact result is below. *)

Import ieee.

Lemma digits_pos m : 1 <= digits m.
Proof. unfold digits. lia. Qed.

Lemma digits_bounds m : 2 ^ (digits m - 1) <= Zpos m < 2 ^ digits m.
Proof.
  unfold digits. induction m as [m IH|m IH|]; simpl digits2_pos.
  - rewrite Pos2Z.inj_succ, Z.pow_succ_r by lia.
    replace (Z.succ (Zpos (digits2_pos m)) - 1) with (Z.succ (Zpos (digits2_pos m) - 1)) by lia.
    rewrite Z.pow_succ_r by lia. lia.
  - rewrite Pos2Z.inj_succ, Z.pow_succ_r by lia.
    replace (Z.succ (Zpos (digits2_pos m)) - 1) with (Z.succ (Zpos (digits2_pos m) - 1)) by lia.
    rewrite Z.pow_succ_r by lia. lia.
  - simpl. lia.
Qed.

Lemma digits_le m k : 0 <= k -> Zpos m < 2 ^ k -> digits m <= k.
Proof.
  intros Hk Hm. destruct (digits_bounds m) as [Hlo _].
  assert (2 ^ (digits m - 1) < 2 ^ k) as Hlt by lia.
  apply Z.pow_lt_mono_r_iff in Hlt; lia.
Qed.

Lemma digits_ge m k : 0 <= k -> 2 ^ k <= Zpos m -> k + 1 <= digits m.
Proof.
  intros Hk Hm. destruct (digits_bounds m) as [_ Hhi].
  assert (2 ^ k < 2 ^ digits m) as Hlt by lia.
  apply Z.pow_lt_mono_r_iff in Hlt; pose proof (digits_pos m); lia.
Qed.

Lemma half_unique q r : 0 <= r < 2 -> q = (2 * q + r) / 2.
Proof. intros Hr. apply (Z.div_unique _ 2 q r); lia. Qed.

Lemma shr_1_spec m r s :
  0 <= m ->
  shr_m (shr_1 (Build_shr_record m r s)) = m / 2 /\
  inexact (shr_1 (Build_shr_record m r s)) = Z.odd m || (r || s).
Proof.
  intros Hm. unfold inexact.
  destruct m as [|[p|p|]|]; [| | | |lia]; unfold shr_1; cbn [shr_m shr_r shr_s];
    (split; [|reflexivity]).
  - reflexivity.
  - rewrite Pos2Z.inj_xI. apply half_unique. lia.
  - rewrite Pos2Z.inj_xO. replace (2 * Z.pos p) with (2 * Z.pos p + 0) by lia.
    apply half_unique. lia.
  - reflexivity.
Qed.

Lemma mod_pow2_split m a b :
  0 <= m -> 0 <= a -> 0 <= b ->
  (m mod 2 ^ (a + b) =? 0) = (m mod 2 ^ a =? 0) && ((m / 2 ^ a) mod 2 ^ b =? 0).
Proof.
  intros Hm Ha Hb. rewrite Z.pow_add_r by lia.
  assert (0 < 2 ^ a) by (apply Z.pow_pos_nonneg; lia).
  assert (0 < 2 ^ b) by (apply Z.pow_pos_nonneg; lia).
  rewrite Z.rem_mul_r by lia.
  pose proof (Z.mod_pos_bound m (2 ^ a)). pose proof (Z.mod_pos_bound (m / 2 ^ a) (2 ^ b)).
  destruct (Z.eqb_spec (m mod 2 ^ a) 0) as [E1|E1], (Z.eqb_spec ((m / 2 ^ a) mod 2 ^ b) 0) as [E2|E2];
    simpl; apply Z.eqb_eq || apply Z.eqb_neq; nia.
Qed.

Lemma iter_pos_xI {A} (f : A -> A) p x :
  SpecFloat.iter_pos f p~1 x = SpecFloat.iter_pos f p (SpecFloat.iter_pos f p (f x)).
Proof. reflexivity. Qed.

Lemma iter_pos_xO {A} (f : A -> A) p x :
  SpecFloat.iter_pos f p~0 x = SpecFloat.iter_pos f p (SpecFloat.iter_pos f p x).
Proof. reflexivity. Qed.

Lemma iter_shr_spec p : forall m r s,
  0 <= m ->
  shr_m (SpecFloat.iter_pos shr_1 p (Build_shr_record m r s)) = m / 2 ^ Zpos p /\
  inexact (SpecFloat.iter_pos shr_1 p (Build_shr_record m r s)) =
    negb (m mod 2 ^ Zpos p =? 0) || (r || s).
Proof.
  induction p as [p IH|p IH|]; intros m r s Hm.
  - rewrite iter_pos_xI.
    destruct (shr_1_spec m r s Hm) as [H1 H2].
    destruct (shr_1 (Build_shr_record m r s)) as [m1 r1 s1]. simpl in H1. unfold inexact in H2. simpl in H2.
    assert (0 <= m1) as Hm1 by (subst m1; apply Z.div_pos; lia).
    destruct (IH m1 r1 s1 Hm1) as [H3 H4].
    destruct (SpecFloat.iter_pos shr_1 p (Build_shr_record m1 r1 s1)) as [m2 r2 s2]. simpl in H3. unfold inexact in H4. simpl in H4.
    assert (0 <= m2) as Hm2 by (subst m2; apply Z.div_pos; [lia | apply Z.pow_pos_nonneg; lia]).
    destruct (IH m2 r2 s2 Hm2) as [H5 H6].
    replace (Zpos p~1) with (1 + (Zpos p + Zpos p)) by lia.
    split.
    + rewrite H5, H3, H1. rewrite !Z.div_div by (try apply Z.pow_pos_nonneg; lia).
      f_equal. rewrite !Z.pow_add_r by lia. reflexivity.
    + rewrite H6, H4, H2, H3, H1.
      rewrite (mod_pow2_split m 1 (Zpos p + Zpos p)) by lia.
      rewrite (mod_pow2_split (m / 2 ^ 1) (Zpos p) (Zpos p)) by (try apply Z.div_pos; lia).
      change (2 ^ 1) with 2.
      assert (Z.odd m = negb (m mod 2 =? 0)) as ->.
      { rewrite Zmod_odd. destruct (Z.odd m); reflexivity. }
      destruct (m mod 2 =? 0), ((m / 2) mod 2 ^ Zpos p =? 0), ((m / 2 / 2 ^ Zpos p) mod 2 ^ Zpos p =? 0), r, s; reflexivity.
  - rewrite iter_pos_xO.
    destruct (IH m r s Hm) as [H3 H4].
    destruct (SpecFloat.iter_pos shr_1 p (Build_shr_record m r s)) as [m2 r2 s2]. simpl in H3. unfold inexact in H4. simpl in H4.
    assert (0 <= m2) as Hm2 by (subst m2; apply Z.div_pos; [lia | apply Z.pow_pos_nonneg; lia]).
    destruct (IH m2 r2 s2 Hm2) as [H5 H6].
    replace (Zpos p~0) with (Zpos p + Zpos p) by lia.
    split.
    + rewrite H5, H3. rewrite !Z.div_div by (try apply Z.pow_pos_nonneg; lia).
      f_equal. rewrite !Z.pow_add_r by lia. reflexivity.
    + rewrite H6, H4, H3.
      rewrite (mod_pow2_split m (Zpos p) (Zpos p)) by lia.
      destruct (m mod 2 ^ Zpos p =? 0), ((m / 2 ^ Zpos p) mod 2 ^ Zpos p =? 0), r, s; reflexivity.
  - change (SpecFloat.iter_pos shr_1 1 (Build_shr_record m r s)) with (shr_1 (Build_shr_record m r s)).
    destruct (shr_1_spec m r s Hm) as [H1 H2]. split.
    + rewrite H1. reflexivity.
    + rewrite H2. change (2 ^ 1) with 2. rewrite Zmod_odd. destruct (Z.odd m); reflexivity.
Qed.

Lemma fexp64 e : fexp 53 1024 e = Z.max (e - 53) (-1074).
Proof. reflexivity. Qed.

Lemma loc_exact_inexact mrs :
  loc_of_shr_record mrs = loc_Exact <-> inexact mrs = false.
Proof. destruct mrs as [m [|] [|]]; unfold inexact; simpl; split; congruence. Qed.

Lemma round_nearest_even_bounds q l :
  q <= round_nearest_even q l <= q + 1 /\ (l = loc_Exact -> round_nearest_even q l = q).
Proof.
  destruct l as [|[| |]]; simpl; try destruct (Z.even q); split; try lia; try congruence.
Qed.

Lemma shr_round_spec m e n :
  0 < m -> 0 <= n ->
  exists mrs,
    shr (Build_shr_record m false false) e n = (mrs, e + n) /\
    m / 2 ^ n <= round_nearest_even (shr_m mrs) (loc_of_shr_record mrs) <= m / 2 ^ n + 1 /\
    (m mod 2 ^ n = 0 ->
     round_nearest_even (shr_m mrs) (loc_of_shr_record mrs) = m / 2 ^ n).
Proof.
  intros Hm Hn. destruct n as [|p|p]; [| |lia].
  - exists (Build_shr_record m false false). simpl shr.
    rewrite Z.add_0_r, Z.pow_0_r, Z.div_1_r. simpl. split; [reflexivity|]. split; [lia | reflexivity].
  - exists (SpecFloat.iter_pos shr_1 p (Build_shr_record m false false)).
    split; [reflexivity|].
    destruct (iter_shr_spec p m false false ltac:(lia)) as [Hq Hi].
    set (mrs := SpecFloat.iter_pos shr_1 p _) in *.
    rewrite Hq. destruct (round_nearest_even_bounds (m / 2 ^ Z.pos p) (loc_of_shr_record mrs)) as [Hb He].
    split; [exact Hb|]. intros Hdiv. apply He. apply loc_exact_inexact.
    rewrite Hi, Hdiv. reflexivity.
Qed.

Lemma div_pow2_upper m d n k :
  0 <= m < 2 ^ d -> 0 <= n -> 0 <= k -> d - n <= k -> m / 2 ^ n < 2 ^ k.
Proof.
  intros Hm Hn Hk Hd.
  assert (0 < 2 ^ n) by (apply Z.pow_pos_nonneg; lia).
  apply Z.div_lt_upper_bound; [lia|].
  rewrite <- Z.pow_add_r by lia.
  destruct (Z.le_gt_cases 0 d) as [Hd0|Hd0].
  - assert (2 ^ d <= 2 ^ (n + k)) by (apply Z.pow_le_mono_r; lia). lia.
  - rewrite Z.pow_neg_r in Hm by lia. lia.
Qed.

Lemma div_pow2_lower m d n k :
  2 ^ (d - 1) <= m -> 0 <= n -> 0 <= k -> k + n <= d - 1 -> 2 ^ k <= m / 2 ^ n.
Proof.
  intros Hm Hn Hk Hd.
  assert (0 < 2 ^ n) by (apply Z.pow_pos_nonneg; lia).
  apply Z.div_le_lower_bound; [lia|].
  rewrite <- Z.pow_add_r by lia.
  assert (2 ^ (n + k) <= 2 ^ (d - 1)) by (apply Z.pow_le_mono_r; lia). lia.
Qed.

Lemma binary_round_aux_spec s m e :
  0 <= fexp 53 1024 (digits m + e) - e ->
  exists m1 m2 e2,
    let n := fexp 53 1024 (digits m + e) - e in
    Zpos m / 2 ^ n <= m1 <= Zpos m / 2 ^ n + 1 /\
    (Zpos m mod 2 ^ n = 0 -> m1 = Zpos m / 2 ^ n) /\
    0 <= e2 - (e + n) <= 1 /\
    m1 = m2 * 2 ^ (e2 - (e + n)) /\
    0 <= m2 /\
    (0 < m2 -> fexp 53 1024 (Zdigits2 m2 + e2) = e2) /\
    (-1074 < e + n -> 2 ^ 52 <= m1) /\
    binary_round_aux 53 1024 s (Zpos m) e loc_Exact = rounded s m2 e2.
Proof.
  intros Hn. set (n := fexp 53 1024 (digits m + e) - e) in *.
  unfold binary_round_aux, shr_fexp.
  change (Zdigits2 (Z.pos m)) with (digits m). fold n.
  change (shr_record_of_loc (Z.pos m) loc_Exact) with (Build_shr_record (Z.pos m) false false).
  destruct (shr_round_spec (Z.pos m) e n ltac:(lia) Hn) as (mrs & -> & Hb & Hex).
  set (m1 := round_nearest_even (shr_m mrs) (loc_of_shr_record mrs)) in *.
  set (e1 := e + n) in *.
  pose proof (digits_bounds m) as [Hdlo Hdhi]. pose proof (digits_pos m) as Hdpos.
  assert (e1 = Z.max (digits m + e - 53) (-1074)) as He1 by (unfold e1, n; rewrite fexp64; lia).
  assert (0 < 2 ^ n) as Hpn by (apply Z.pow_pos_nonneg; lia).
  assert (0 <= Z.pos m / 2 ^ n) as Hq0 by (apply Z.div_pos; lia).
  assert (Z.pos m / 2 ^ n < 2 ^ 53) as Hq53.
  { apply (div_pow2_upper _ (digits m)); lia. }
  assert (-1074 < e1 -> 2 ^ 52 <= Z.pos m / 2 ^ n) as Hq52.
  { intros Hnorm. apply (div_pow2_lower _ (digits m)); lia. }
  change (shr_record_of_loc m1 loc_Exact) with (Build_shr_record m1 false false).
  destruct (Z.eq_dec m1 0) as [Hz|Hnz].
  - (* rounded to zero *)
    exists m1, 0, e1. rewrite Hz in *. simpl Zdigits2.
    assert (fexp 53 1024 (0 + e1) - e1 <= 0) as Hn2 by (rewrite fexp64; lia).
    assert (shr (Build_shr_record 0 false false) e1 (fexp 53 1024 (0 + e1) - e1) =
            (Build_shr_record 0 false false, e1)) as ->.
    { destruct (fexp 53 1024 (0 + e1) - e1); try reflexivity; lia. }
    simpl. repeat split; try lia; try exact Hex; try reflexivity.
  - assert (0 < m1) as Hm1 by lia.
    destruct m1 as [|p1|p1]; try lia.
    change (Zdigits2 (Z.pos p1)) with (digits p1).
    pose proof (digits_bounds p1) as [Hd1lo Hd1hi].
    destruct (Z.eq_dec (Z.pos p1) (2 ^ 53)) as [Hcarry|Hnocarry].
    + (* the mantissa overflowed to 2^53: one more shift *)
      assert (p1 = 9007199254740992%positive) as Hp1 by lia.
      assert (fexp 53 1024 (digits p1 + e1) - e1 = 1) as ->.
      { rewrite fexp64, Hp1. change (digits 9007199254740992) with 54. lia. }
      exists (Z.pos p1), 4503599627370496, (e1 + 1).
      replace (e1 + 1 - e1) with 1 by lia.
      split; [exact Hb|]. split; [exact Hex|]. split; [lia|].
      rewrite Hp1. split; [reflexivity|]. split; [lia|]. split; [|split; [lia | reflexivity]].
      intros _. rewrite fexp64. change (Zdigits2 4503599627370496) with 53. lia.
    + assert (Z.pos p1 < 2 ^ 53) as Hlt by lia.
      assert (digits p1 <= 53) as Hd1 by (apply digits_le; lia).
      assert (-1074 < e1 -> digits p1 = 53) as Hd1n.
      { intros Hnorm. specialize (Hq52 Hnorm).
        pose proof (digits_ge p1 52 ltac:(lia) ltac:(lia)). lia. }
      assert (fexp 53 1024 (digits p1 + e1) - e1 = 0) as Hn2.
      { rewrite fexp64. destruct (Z.eq_dec e1 (-1074)); [lia|]. rewrite Hd1n by lia. lia. }
      rewrite Hn2. exists (Z.pos p1), (Z.pos p1), e1. simpl shr. cbn [shr_m].
      replace (e1 - e1) with 0 by lia. rewrite Z.pow_0_r.
      split; [exact Hb|]. split; [exact Hex|]. repeat split; try lia.
      intros _. change (Zdigits2 (Z.pos p1)) with (digits p1). lia.
Qed.

(** ** Values *)

Lemma bpow_pos e : (0 < bpow e)%R.
Proof. apply powerRZ_lt. lra. Qed.

Lemma bpow_add a b : bpow (a + b) = (bpow a * bpow b)%R.
Proof. apply powerRZ_add. lra. Qed.

Lemma bpow_IZR n : 0 <= n -> bpow n = IZR (2 ^ n).
Proof.
  intros Hn. unfold bpow. rewrite <- (Z2Nat.id n) at 1 by lia.
  rewrite <- pow_powerRZ. rewrite pow_IZR. rewrite Z2Nat.id by lia. reflexivity.
Qed.

Lemma bpow_ge_1 n : 0 <= n -> (1 <= bpow n)%R.
Proof.
  intros Hn. rewrite bpow_IZR by lia. apply IZR_le.
  assert (0 < 2 ^ n) by (apply Z.pow_pos_nonneg; lia). lia.
Qed.

Lemma bpow_le a b : a <= b -> (bpow a <= bpow b)%R.
Proof.
  intros Hab. replace b with (a + (b - a)) by lia. rewrite bpow_add.
  pose proof (bpow_pos a). pose proof (bpow_ge_1 (b - a) ltac:(lia)). nra.
Qed.

Lemma bpow_lt a b : a < b -> (bpow a < bpow b)%R.
Proof.
  intros Hab. replace b with (a + 1 + (b - a - 1)) by lia. rewrite !bpow_add.
  pose proof (bpow_pos a). pose proof (bpow_ge_1 (b - a - 1) ltac:(lia)).
  change (bpow 1) with (2 * 1)%R. nra.
Qed.

Lemma bpow_lt_inv a b : (bpow a < bpow b)%R -> a < b.
Proof.
  intros Hlt. destruct (Z.lt_ge_cases a b) as [|Hge]; [assumption|].
  pose proof (bpow_le b a Hge). lra.
Qed.

Lemma F2R_shift m e k : 0 <= k -> F2R (m * 2 ^ k) e = F2R m (e + k).
Proof.
  intros Hk. unfold F2R. rewrite mult_IZR, bpow_add, <- bpow_IZR by lia.
  pose proof (bpow_pos e). lra.
Qed.

Lemma F2R_le m1 m2 e : m1 <= m2 -> (F2R m1 e <= F2R m2 e)%R.
Proof.
  intros Hm. unfold F2R. pose proof (bpow_pos e). apply IZR_le in Hm. nra.
Qed.

Lemma F2R_le_inv m1 m2 e : (F2R m1 e <= F2R m2 e)%R -> m1 <= m2.
Proof.
  unfold F2R. intros Hle. pose proof (bpow_pos e). apply le_IZR. nra.
Qed.

Lemma F2R_digits m e :
  (bpow (digits m - 1 + e) <= F2R (Zpos m) e < bpow (digits m + e))%R.
Proof.
  destruct (digits_bounds m) as [Hlo Hhi]. pose proof (digits_pos m).
  unfold F2R. rewrite !bpow_add.
  rewrite (bpow_IZR (digits m - 1)), (bpow_IZR (digits m)) by lia.
  pose proof (bpow_pos e). apply IZR_le in Hlo. apply IZR_lt in Hhi. nra.
Qed.

(** Larger values do not have fewer digits. *)
Lemma F2R_magnitude m1 e1 m2 e2 :
  (F2R (Zpos m1) e1 <= F2R (Zpos m2) e2)%R -> digits m1 + e1 <= digits m2 + e2.
Proof.
  intros Hle. pose proof (F2R_digits m1 e1) as [H1 _]. pose proof (F2R_digits m2 e2) as [_ H2].
  assert (bpow (digits m1 - 1 + e1) < bpow (digits m2 + e2))%R as Hlt by lra.
  apply bpow_lt_inv in Hlt. lia.
Qed.

Lemma canonical_mono m1 e1 m2 e2 :
  (F2R (Zpos m1) e1 <= F2R (Zpos m2) e2)%R ->
  fexp 53 1024 (digits m1 + e1) <= fexp 53 1024 (digits m2 + e2).
Proof. intros Hle%F2R_magnitude. rewrite !fexp64. lia. Qed.

(** Rounding a positive exact value [m * 2^e]: the result is zero, a
    number of the format or an infinity of the sign asked for; it is larger
    than the exact value by one unit in the last place at most, which is
    2^-52 of the value or the least subnormal; and it does not pass any
    number of the format above the exact value. *)
Lemma round_spec s m e :
  0 <= fexp 53 1024 (digits m + e) - e ->
  exists m2 e2,
    binary_round_aux 53 1024 s (Zpos m) e loc_Exact = rounded s m2 e2 /\
    0 <= m2 /\
    (0 < m2 -> fexp 53 1024 (Zdigits2 m2 + e2) = e2) /\
    (-1074 < fexp 53 1024 (digits m + e) -> 0 < m2) /\
    (fexp 53 1024 (digits m + e) - e = 0 -> F2R m2 e2 = F2R (Zpos m) e) /\
    (F2R m2 e2 <= F2R (Zpos m) e * (1 + bpow (-52)) + bpow (-1074))%R /\
    (forall mX eX, canonical mX eX ->
       (F2R (Zpos m) e <= F2R (Zpos mX) eX)%R ->
       (F2R m2 e2 <= F2R (Zpos mX) eX)%R /\ (0 < m2 -> e2 <= eX)).
Proof.
  intros Hn.
  destruct (binary_round_aux_spec s m e Hn)
    as (m1 & m2 & e2 & Hb & Hex & He2 & Hm1 & Hm2 & Hcan & Hnorm & Hr).
  set (n := fexp 53 1024 (digits m + e) - e) in *.
  set (e1 := e + n) in *.
  assert (0 < 2 ^ n) as Hpn by (apply Z.pow_pos_nonneg; lia).
  assert (0 < 2 ^ (e2 - e1)) as Hpe by (apply Z.pow_pos_nonneg; lia).
  assert (F2R m2 e2 = F2R m1 e1) as Hsame.
  { replace e2 with (e1 + (e2 - e1)) by lia. rewrite <- F2R_shift by lia. by rewrite <- Hm1. }
  exists m2, e2. split; [exact Hr|]. split; [exact Hm2|]. split; [exact Hcan|].
  split; [|split; [|split]].
  - intros Hn1. assert (2 ^ 52 <= m1) as H52 by (apply Hnorm; unfold e1, n; lia).
    assert (0 < m1) by lia. nia.
  - intros Hn0. rewrite Hsame. unfold e1. fold n in Hn0. rewrite Hn0 in *.
    rewrite Hex by (rewrite Z.pow_0_r; apply Z.mod_1_r).
    rewrite Z.pow_0_r, Z.div_1_r, Z.add_0_r. reflexivity.
  - rewrite Hsame.
    assert (F2R m1 e1 <= F2R (Zpos m) e + bpow e1)%R as Hulp.
    { assert (m1 * 2 ^ n <= Zpos m + 2 ^ n) as Hz.
      { pose proof (Z.mul_div_le (Zpos m) (2 ^ n) Hpn). nia. }
      apply (F2R_le _ _ e) in Hz. rewrite F2R_shift in Hz by lia. fold e1 in Hz.
      unfold F2R in Hz |- *. rewrite plus_IZR, <- bpow_IZR in Hz by lia.
      unfold e1 at 2. rewrite bpow_add. lra. }
    assert (bpow e1 <= F2R (Zpos m) e * bpow (-52) + bpow (-1074))%R as He1.
    { pose proof (F2R_digits m e) as [Hlo _]. pose proof (bpow_pos (-52)).
      pose proof (bpow_pos (-1074)). pose proof (bpow_pos (digits m - 1 + e)).
      assert (e1 = Z.max (digits m + e - 53) (-1074)) as -> by (unfold e1, n; rewrite fexp64; lia).
      destruct (Z.max_spec (digits m + e - 53) (-1074)) as [[_ ->]|[_ ->]].
      - nra.
      - replace (digits m + e - 53) with (digits m - 1 + e + -52) by lia. rewrite bpow_add. nra. }
    lra.
  - intros mX eX HX Hle.
    assert (e1 <= eX) as He1X.
    { unfold e1, n. pose proof (canonical_mono _ _ _ _ Hle). unfold canonical in HX. lia. }
    set (K := Zpos mX * 2 ^ (eX - e1)).
    assert (Zpos m <= K * 2 ^ n) as HmK.
    { apply (F2R_le_inv _ _ e). rewrite F2R_shift by lia. fold e1.
      unfold K. rewrite F2R_shift by lia. replace (e1 + (eX - e1)) with eX by lia. exact Hle. }
    assert (m1 <= K) as Hm1K.
    { destruct (Z.eq_dec (Zpos m mod 2 ^ n) 0) as [Hd|Hd].
      - rewrite (Hex Hd). apply Z.div_le_upper_bound; lia.
      - assert (Zpos m <> K * 2 ^ n) as Hne.
        { intros Heq. apply Hd. rewrite Heq. apply Z.mod_mul. lia. }
        assert (Zpos m / 2 ^ n < K); [|lia].
        apply Z.div_lt_upper_bound; lia. }
    assert (F2R m2 e2 <= F2R (Zpos mX) eX)%R as Hval.
    { rewrite Hsame.
      replace eX with (e1 + (eX - e1)) by lia. rewrite <- F2R_shift by lia. fold K.
      apply F2R_le. exact Hm1K. }
    split; [exact Hval|]. intros Hpos.
    destruct m2 as [|p2|p2]; try lia.
    specialize (Hcan ltac:(lia)). change (Zdigits2 (Zpos p2)) with (digits p2) in Hcan.
    pose proof (canonical_mono _ _ _ _ Hval). unfold canonical in HX. lia.
Qed.

Lemma iter_xO m d : Zpos (Pos.iter xO m d) = Zpos m * 2 ^ Zpos d.
Proof.
  induction d as [|d IH] using Pos.peano_ind.
  - simpl. lia.
  - rewrite Pos.iter_succ, Pos2Z.inj_xO, IH, Pos2Z.inj_succ, Z.pow_succ_r by lia. lia.
Qed.

Lemma shl_align_spec m e e' :
  exists mz ez, shl_align m e e' = (mz, ez) /\
    F2R (Zpos mz) ez = F2R (Zpos m) e /\
    ez = Z.min e e' /\ Zpos mz = Zpos m * 2 ^ (e - ez).
Proof.
  unfold shl_align. destruct (e' - e) as [|d|d] eqn:Hd.
  - exists m, e. split; [reflexivity|]. split; [reflexivity|]. split; [lia|].
    replace (e - e) with 0 by lia. lia.
  - exists m, e. split; [reflexivity|]. split; [reflexivity|]. split; [lia|].
    replace (e - e) with 0 by lia. lia.
  - exists (Pos.iter xO m d), e'. split; [reflexivity|].
    assert (e - e' = Zpos d) as Hd' by lia.
    split; [|split; [lia | rewrite iter_xO, Hd'; reflexivity]].
    rewrite iter_xO. rewrite F2R_shift by lia. f_equal. lia.
Qed.

Lemma digits_eq_of_value m1 e1 m2 e2 :
  F2R (Zpos m1) e1 = F2R (Zpos m2) e2 -> digits m1 + e1 = digits m2 + e2.
Proof.
  intros Heq. apply Z.le_antisymm; apply F2R_magnitude; rewrite Heq; lra.
Qed.

(** [binary_round] first aligns the mantissa and then rounds: the facts of
    [round_spec] hold of it for every mantissa and exponent. *)
Lemma binary_round_spec s m e :
  exists m2 e2,
    binary_round 53 1024 s m e = rounded s m2 e2 /\
    0 <= m2 /\
    (0 < m2 -> fexp 53 1024 (Zdigits2 m2 + e2) = e2) /\
    (-1074 < fexp 53 1024 (digits m + e) -> 0 < m2) /\
    (fexp 53 1024 (digits m + e) <= e -> F2R m2 e2 = F2R (Zpos m) e) /\
    (F2R m2 e2 <= F2R (Zpos m) e * (1 + bpow (-52)) + bpow (-1074))%R /\
    (forall mX eX, canonical mX eX ->
       (F2R (Zpos m) e <= F2R (Zpos mX) eX)%R ->
       (F2R m2 e2 <= F2R (Zpos mX) eX)%R /\ (0 < m2 -> e2 <= eX)).
Proof.
  unfold binary_round. change (Z.pos (digits2_pos m)) with (digits m).
  destruct (shl_align_spec m e (fexp 53 1024 (digits m + e))) as (mz & ez & -> & Hv & Hez & Hmz).
  pose proof (digits_eq_of_value _ _ _ _ Hv) as Hd.
  assert (0 <= fexp 53 1024 (digits mz + ez) - ez) as Hn by (rewrite Hd; lia).
  destruct (round_spec s mz ez Hn) as (m2 & e2 & Hr & Hm2 & Hcan & Hpos & Hexact & Herr & Hfmt).
  exists m2, e2. rewrite Hv, Hd in *.
  split; [exact Hr|]. split; [exact Hm2|]. split; [exact Hcan|]. split; [exact Hpos|].
  split; [|split; [exact Herr | exact Hfmt]].
  intros Hshort. apply Hexact. lia.
Qed.

(** ** Numbers of the format and the operations on them *)

Lemma F2R_pos m e : (0 < F2R (Zpos m) e)%R.
Proof.
  unfold F2R. pose proof (bpow_pos e). assert (0 < IZR (Zpos m))%R by (apply IZR_lt; lia). nra.
Qed.

Lemma F2R_opp m e : F2R (- m) e = (- F2R m e)%R.
Proof. unfold F2R. rewrite opp_IZR. lra. Qed.

Lemma F2R_0 e : F2R 0 e = 0%R.
Proof. unfold F2R. lra. Qed.

Lemma F2R_plus a b e : F2R (a + b) e = (F2R a e + F2R b e)%R.
Proof. unfold F2R. rewrite plus_IZR. lra. Qed.

Lemma val_nonneg x : nonneg_format x -> (0 <= val x)%R.
Proof.
  destruct x as [[|]|[|]| |[|] m e]; simpl; try tauto; try lra.
  intros _. pose proof (F2R_pos m e). lra.
Qed.

(** What [rounded] is for a mantissa that is canonical when positive. *)
Lemma rounded_cases s m2 e2 :
  0 <= m2 -> (0 < m2 -> fexp 53 1024 (Zdigits2 m2 + e2) = e2) ->
  (m2 = 0 /\ rounded s m2 e2 = S754_zero s) \/
  (exists p, m2 = Zpos p /\ canonical p e2 /\
     ((e2 <= 971 /\ rounded s m2 e2 = S754_finite s p e2) \/
      (971 < e2 /\ rounded s m2 e2 = S754_infinity s))).
Proof.
  intros Hm2 Hcan. destruct m2 as [|p|p]; [left; split; reflexivity | | lia].
  right. exists p. split; [reflexivity|]. split; [apply Hcan; lia|].
  unfold rounded. destruct (Z.leb_spec e2 971); [left | right]; split; (lia || reflexivity).
Qed.

Lemma mul_spec sx mx ex sy my ey :
  2 ^ 52 <= Zpos mx \/ 2 ^ 52 <= Zpos my ->
  exists m2 e2,
    SFmul 53 1024 (S754_finite sx mx ex) (S754_finite sy my ey) = rounded (xorb sx sy) m2 e2 /\
    0 <= m2 /\
    (0 < m2 -> fexp 53 1024 (Zdigits2 m2 + e2) = e2) /\
    (F2R m2 e2 <= F2R (Zpos mx) ex * F2R (Zpos my) ey * (1 + bpow (-52)) + bpow (-1074))%R /\
    (forall mX eX, canonical mX eX ->
       (F2R (Zpos mx) ex * F2R (Zpos my) ey <= F2R (Zpos mX) eX)%R ->
       (F2R m2 e2 <= F2R (Zpos mX) eX)%R /\ (0 < m2 -> e2 <= eX)).
Proof.
  intros Hnorm.
  assert (F2R (Zpos (mx * my)) (ex + ey) = F2R (Zpos mx) ex * F2R (Zpos my) ey)%R as Hv.
  { unfold F2R. rewrite Pos2Z.inj_mul, mult_IZR, bpow_add. lra. }
  assert (0 <= fexp 53 1024 (digits (mx * my) + (ex + ey)) - (ex + ey)) as Hn.
  { assert (53 <= digits (mx * my)); [|rewrite fexp64; lia].
    apply (digits_ge _ 52); [lia|]. rewrite Pos2Z.inj_mul. nia. }
  destruct (round_spec (xorb sx sy) (mx * my) (ex + ey) Hn)
    as (m2 & e2 & Hr & Hm2 & Hcan & _ & _ & Herr & Hfmt).
  exists m2, e2. rewrite Hv in *. unfold SFmul. auto.
Qed.

(** The sum of a positive number and a number that is not larger in
    magnitude. *)
Lemma add_spec mx ex sy my ey :
  (F2R (Zpos my) ey <= F2R (Zpos mx) ex)%R ->
  let v := (val (S754_finite false mx ex) + val (S754_finite sy my ey))%R in
  (0 <= v)%R /\
  ((v = 0%R /\ SFadd 53 1024 (S754_finite false mx ex) (S754_finite sy my ey) = S754_zero false) \/
   (0 < v)%R /\
   exists m2 e2,
     SFadd 53 1024 (S754_finite false mx ex) (S754_finite sy my ey) = rounded false m2 e2 /\
     0 <= m2 /\
     (0 < m2 -> fexp 53 1024 (Zdigits2 m2 + e2) = e2) /\
     (F2R m2 e2 <= v * (1 + bpow (-52)) + bpow (-1074))%R /\
     (forall mX eX, canonical mX eX ->
        (v <= F2R (Zpos mX) eX)%R ->
        (F2R m2 e2 <= F2R (Zpos mX) eX)%R /\ (0 < m2 -> e2 <= eX))).
Proof.
  intros Hle v. unfold SFadd.
  set (ez := Z.min ex ey).
  destruct (shl_align_spec mx ex ez) as (ax & ezx & -> & Hvx & Hezx & Hax).
  destruct (shl_align_spec my ey ez) as (ay & ezy & -> & Hvy & Hezy & Hay).
  cbn [fst].
  assert (ezx = ez) as -> by (unfold ez in *; lia).
  assert (ezy = ez) as -> by (unfold ez in *; lia).
  set (S := cond_Zopp false (Zpos ax) + cond_Zopp sy (Zpos ay)).
  assert (F2R S ez = v) as HS.
  { unfold S, v, val. rewrite F2R_plus.
    destruct sy; cbn [cond_Zopp]; rewrite ?F2R_opp, Hvx, Hvy; lra. }
  assert (0 <= v)%R as Hv0.
  { unfold v, val. destruct sy; cbn [cond_Zopp]; rewrite ?F2R_opp;
      pose proof (F2R_pos mx ex); pose proof (F2R_pos my ey); lra. }
  split; [exact Hv0|].
  assert (0 <= S) as HS0.
  { apply (F2R_le_inv _ _ ez). rewrite F2R_0, HS. exact Hv0. }
  unfold binary_normalize. destruct S as [|p|p] eqn:ES; [| |lia].
  - left. split; [|reflexivity]. rewrite <- HS. apply F2R_0.
  - right. split; [rewrite <- HS; apply F2R_pos|].
    destruct (binary_round_spec false p ez)
      as (m2 & e2 & Hr & Hm2 & Hcan & _ & _ & Herr & Hfmt).
    exists m2, e2. rewrite HS in *. auto.
Qed.

(** ** Conversions, comparison and Min *)

Lemma bpow_neg k : 0 <= k -> bpow (- k) = (/ IZR (2 ^ k))%R.
Proof.
  intros Hk. unfold bpow. rewrite powerRZ_neg'. fold (bpow k). rewrite bpow_IZR by lia. reflexivity.
Qed.

Lemma canonical_2_52 e : -1074 <= e -> canonical 4503599627370496 e.
Proof. intros He. unfold canonical. rewrite fexp64. change (digits 4503599627370496) with 53. lia. Qed.

Lemma of_int_0 : float64.of_int 0 = S754_zero false.
Proof. reflexivity. Qed.

Lemma of_int_pos z :
  0 < z ->
  float64.of_int z = S754_infinity false \/ exists m e, float64.of_int z = S754_finite false m e.
Proof.
  intros Hz. destruct z as [|p|p]; try lia.
  unfold float64.of_int, float64.prec, float64.emax, binary_normalize.
  destruct (binary_round_spec false p 0) as (m2 & e2 & Hr & Hm2 & Hcan & Hpos & _).
  pose proof (digits_pos p).
  specialize (Hpos ltac:(rewrite fexp64; lia)).
  destruct (rounded_cases false m2 e2 Hm2 Hcan) as [[-> _]|(q & -> & _ & [[_ Hq]|[_ Hq]])]; [lia| |].
  - right. exists q, e2. congruence.
  - left. congruence.
Qed.

Lemma of_int_exact z :
  0 < z < 2 ^ 53 ->
  exists m e, float64.of_int z = S754_finite false m e /\
    canonical m e /\ e <= 971 /\ F2R (Zpos m) e = IZR z.
Proof.
  intros Hz. destruct z as [|p|p]; try lia.
  unfold float64.of_int, float64.prec, float64.emax, binary_normalize.
  destruct (binary_round_spec false p 0) as (m2 & e2 & Hr & Hm2 & Hcan & Hpos & Hexact & _ & Hfmt).
  pose proof (digits_pos p). pose proof (digits_le p 53 ltac:(lia) ltac:(lia)).
  specialize (Hpos ltac:(rewrite fexp64; lia)).
  specialize (Hexact ltac:(rewrite fexp64; lia)).
  destruct (Hfmt 4503599627370496%positive 1 (canonical_2_52 1 ltac:(lia))) as [_ He2].
  { unfold F2R. change (bpow 0) with 1%R. change (bpow 1) with (2 * 1)%R.
    assert (IZR (Zpos p) < IZR (2 ^ 53))%R by (apply IZR_lt; lia).
    change (2 ^ 53) with 9007199254740992 in *. lra. }
  specialize (He2 Hpos).
  destruct (rounded_cases false m2 e2 Hm2 Hcan) as [[-> _]|(q & -> & Hq & [[_ Hfin]|[Hbig _]])];
    [lia| |lia].
  exists q, e2. split; [congruence|]. split; [exact Hq|]. split; [lia|].
  rewrite Hexact. unfold F2R. change (bpow 0) with 1%R. lra.
Qed.

(** The order of two positive numbers of the format is the order of their
    exponents and then of their mantissas. *)
Lemma ltb_correct m1 e1 m2 e2 :
  canonical m1 e1 -> canonical m2 e2 ->
  float64.ltb (S754_finite false m1 e1) (S754_finite false m2 e2) = true ->
  (F2R (Zpos m1) e1 < F2R (Zpos m2) e2)%R.
Proof.
  unfold canonical. rewrite !fexp64. intros H1 H2.
  unfold float64.ltb, SFltb, SFcompare.
  destruct (Z.compare_spec e1 e2) as [->|Hlt|Hgt]; [| |discriminate].
  - rewrite Pos.compare_cont_spec. simpl.
    destruct (Pos.compare_spec m1 m2) as [|Hm|]; try discriminate. intros _.
    unfold F2R. pose proof (bpow_pos e2).
    assert (IZR (Zpos m1) < IZR (Zpos m2))%R by (apply IZR_lt; lia). nra.
  - intros _.
    assert (digits m2 = 53) as Hd2 by lia.
    assert (digits m1 <= 53) as Hd1 by lia.
    pose proof (F2R_digits m1 e1) as [_ Hhi]. pose proof (F2R_digits m2 e2) as [Hlo _].
    rewrite Hd2 in Hlo.
    assert (bpow (digits m1 + e1) <= bpow (53 - 1 + e2))%R by (apply bpow_le; lia).
    lra.
Qed.

Lemma Min_spec x y :
  nonneg_or_inf x -> nonneg_format y ->
  nonneg_format (math.Min x y) /\ (val (math.Min x y) <= val y)%R.
Proof.
  intros [->|Hx] Hy.
  - destruct y as [[|]|[|]| |[|] m e]; simpl in Hy; try tauto; simpl; (split; [assumption || trivial | lra]).
  - destruct x as [[|]|[|]| |[|] mx ex]; simpl in Hx; try tauto;
      destruct y as [[|]|[|]| |[|] my ey]; simpl in Hy; try tauto.
    + simpl. split; [trivial | lra].
    + simpl. split; [trivial|]. pose proof (F2R_pos my ey). lra.
    + simpl. split; [trivial | lra].
    + destruct Hx as [Hcx Hex], Hy as [Hcy Hey].
      unfold math.Min. cbn [math.is_zero andb].
      destruct (float64.ltb (S754_finite false mx ex) (S754_finite false my ey)) eqn:Hlt.
      * split; [simpl; tauto|]. apply ltb_correct in Hlt; [|assumption..]. simpl. lra.
      * split; [simpl; tauto|]. lra.
Qed.

Lemma wrap_le_max z : wrap z <= max_int.
Proof.
  unfold wrap, max_int. pose proof (Z.mod_pos_bound (z + 2 ^ 63) (2 ^ 64) ltac:(lia)). lia.
Qed.

Lemma to_int64_spec x B :
  nonneg_format x -> (val x <= IZR B)%R -> B <= max_int ->
  exists d, float64.to_int64 x = Some d /\ 0 <= d /\ (IZR d <= val x)%R.
Proof.
  intros Hx Hv HB. destruct x as [[|]|[|]| |[|] m e]; simpl in Hx; try tauto.
  - exists 0. split; [reflexivity|]. simpl. split; [lia | lra].
  - unfold float64.to_int64. cbn [cond_Zopp].
    assert (0 <= Z.shiftl (Z.pos m) e /\ (IZR (Z.shiftl (Z.pos m) e) <= F2R (Z.pos m) e)%R) as [H0 Hle].
    { destruct (Z.le_gt_cases 0 e) as [He|He].
      - rewrite Z.shiftl_mul_pow2 by lia.
        assert (0 < 2 ^ e) by (apply Z.pow_pos_nonneg; lia). split; [lia|].
        unfold F2R. rewrite mult_IZR, bpow_IZR by lia. lra.
      - rewrite Z.shiftl_div_pow2 by lia.
        assert (0 < 2 ^ (- e)) as Hp by (apply Z.pow_pos_nonneg; lia).
        split; [apply Z.div_pos; lia|].
        pose proof (Z.mul_div_le (Z.pos m) (2 ^ (- e)) Hp) as Hmul.
        apply IZR_le in Hmul. rewrite mult_IZR in Hmul.
        unfold F2R. replace e with (- (- e)) at 2 by lia. rewrite bpow_neg by lia.
        assert (0 < IZR (2 ^ (- e)))%R as HpR by (apply IZR_lt; lia).
        apply (Rmult_le_reg_r (IZR (2 ^ (- e)))); [exact HpR|].
        rewrite Rmult_assoc, Rinv_l by lra. lra. }
    simpl in Hv. assert (Z.shiftl (Z.pos m) e <= B) as HdB by (apply le_IZR; lra).
    exists (Z.shiftl (Z.pos m) e).
    assert ((min_int <=? Z.shiftl (Z.pos m) e) && (Z.shiftl (Z.pos m) e <=? max_int) = true) as ->.
    { apply andb_true_intro. unfold min_int, max_int in *. split; apply Z.leb_le; lia. }
    split; [reflexivity|]. split; [lia | exact Hle].
Qed.

(** ** The jitter factor *)

Lemma factor_table :
  forallb (fun k => common.jitter_factor_ok (common.jitter_factor (Z.of_nat k))) (seq 0 1000) = true.
Proof. vm_compute. reflexivity. Qed.

Lemma factor_ok_rand now :
  0 <= now ->
  common.jitter_factor_ok (float64.sub (float64.mul (float64.of_int 2) (common.rand now))
                         (float64.of_int 1)) = true.
Proof.
  intros Hnow. unfold common.rand. fold (common.jitter_factor (Z.rem now 1000)).
  pose proof (Z.rem_bound_pos now 1000 Hnow ltac:(lia)) as Hk.
  pose proof (proj1 (forallb_forall _ _) factor_table (Z.to_nat (Z.rem now 1000))) as Hall.
  cbv beta in Hall. rewrite Z2Nat.id in Hall by lia. apply Hall.
  apply in_seq. lia.
Qed.

Lemma factor_ok_spec t :
  common.jitter_factor_ok t = true ->
  (exists s, t = S754_zero s) \/
  (exists s m e, t = S754_finite s m e /\ 2 ^ 52 <= Zpos m /\
     (F2R (Zpos m) e <= 1)%R /\ (s = false -> (F2R (Zpos m) e <= 499 / 500)%R)).
Proof.
  destruct t as [s|s| |s m e]; simpl; try discriminate.
  - intros _. left. by exists s.
  - intros [[[H52 He]%andb_prop Hm]%andb_prop Hs]%andb_prop.
    apply Z.leb_le in H52, He, Hm.
    right. exists s, m, e. split; [reflexivity|]. split; [exact H52|].
    assert (0 < 2 ^ (- e)) as Hp by (apply Z.pow_pos_nonneg; lia).
    assert (0 < IZR (2 ^ (- e)))%R as HpR by (apply IZR_lt; lia).
    assert (F2R (Zpos m) e = IZR (Zpos m) / IZR (2 ^ (- e)))%R as ->.
    { unfold F2R. replace e with (- (- e)) at 1 by lia. rewrite bpow_neg by lia. reflexivity. }
    split.
    + apply IZR_le in Hm. apply (Rmult_le_reg_r (IZR (2 ^ (- e)))); [exact HpR|].
      unfold Rdiv. rewrite Rmult_assoc, Rinv_l by lra. lra.
    + intros ->. simpl in Hs. apply Z.leb_le in Hs. apply IZR_le in Hs.
      rewrite !mult_IZR in Hs.
      apply (Rmult_le_reg_r (IZR (2 ^ (- e)))); [exact HpR|].
      unfold Rdiv. rewrite Rmult_assoc, Rinv_l by lra. lra.
Qed.

(** ** The backoff *)

Lemma const_1_5 : float64.const 1 5 = S754_finite false 7205759403792794 (-55).
Proof. reflexivity. Qed.

Lemma mul_zero_l s t :
  (exists st, t = S754_zero st) \/ (exists st mt et, t = S754_finite st mt et) ->
  exists s', float64.mul (S754_zero s) t = S754_zero s'.
Proof. intros [[st ->]|(st & mt & et & ->)]; simpl; eauto. Qed.

Lemma add_zero_r mx ex s :
  float64.add (S754_finite false mx ex) (S754_zero s) = S754_finite false mx ex.
Proof. reflexivity. Qed.

(** The jitter step: from the capped base backoff [b1], at most [maxB], to
    the backoff with jitter. *)
Lemma jitter_step b1 t maxB :
  nonneg_format b1 -> (val b1 <= IZR maxB)%R -> 0 <= maxB < 2 ^ 53 ->
  common.jitter_factor_ok t = true ->
  let b2 := float64.add b1 (float64.mul (float64.mul b1 (float64.const 1 5)) t) in
  nonneg_format b2 /\ (val b2 <= 6 / 5 * IZR maxB)%R /\ (val b2 <= IZR (2 ^ 54))%R.
Proof.
  intros Hb1 Hmax HmaxB Ht b2.
  assert (b2 = float64.add b1
                 (float64.mul (float64.mul b1 (S754_finite false 7205759403792794 (-55))) t))
    as Hb2 by reflexivity.
  clearbody b2.
  assert (IZR maxB < IZR (2 ^ 53))%R as HmaxR by (apply IZR_lt; lia).
  assert (0 <= IZR maxB)%R as Hmax0 by (apply IZR_le; lia).
  change (2 ^ 53) with 9007199254740992 in HmaxR.
  change (2 ^ 54) with 18014398509481984.
  apply factor_ok_spec in Ht.
  assert ((exists st, t = S754_zero st) \/ (exists st mt et, t = S754_finite st mt et)) as Htshape.
  { destruct Ht as [?|(st & mt & et & -> & _)]; [left; assumption | right; eauto]. }
  destruct b1 as [[|]|[|]| |[|] mb eb]; simpl in Hb1; try tauto.
  - (* the base is zero *)
    change (float64.mul (S754_zero false) (S754_finite false 7205759403792794 (-55)))
      with (S754_zero false) in Hb2.
    destruct (mul_zero_l false t Htshape) as [s' Hj]. rewrite Hj in Hb2.
    assert (b2 = S754_zero false) as -> by (rewrite Hb2; by destruct s').
    simpl. split; [trivial|]. split; lra.
  - destruct Hb1 as [Hcb Heb]. simpl in Hmax.
    set (B := F2R (Z.pos mb) eb) in *.
    assert (0 < B)%R as HB by apply F2R_pos.
    set (C := F2R 7205759403792794 (-55)).
    assert (C = 7205759403792794 / 36028797018963968)%R as HC.
    { unfold C, F2R. replace (bpow (-55)) with (/ IZR (2 ^ 55))%R
        by (symmetry; apply (bpow_neg 55); lia). reflexivity. }
    assert (bpow (-52) = / 4503599627370496)%R as Hu by (apply (bpow_neg 52); lia).
    assert (0 < bpow (-1074) <= / 4503599627370496)%R as Heta.
    { split; [apply bpow_pos|]. rewrite <- Hu. apply bpow_le. lia. }
    assert (nonneg_format (S754_finite false mb eb) /\
            (val (S754_finite false mb eb) <= 6 / 5 * IZR maxB)%R /\
            (val (S754_finite false mb eb) <= 18014398509481984)%R) as Hsame.
    { simpl. fold B. split; [tauto|]. split; lra. }
    (* p1 = b1 * 0.2 *)
    destruct (mul_spec false mb eb false 7205759403792794 (-55) ltac:(right; lia))
      as (mp & ep & Hp1 & Hmp & Hcp & Herrp & Hfmtp).
    fold B C in Herrp, Hfmtp. simpl xorb in Hp1.
    change (float64.mul (S754_finite false mb eb) (S754_finite false 7205759403792794 (-55)))
      with (SFmul 53 1024 (S754_finite false mb eb) (S754_finite false 7205759403792794 (-55)))
      in Hb2.
    rewrite Hp1 in Hb2. clear Hp1.
    destruct (Hfmtp mb eb Hcb) as [HpB Hep]; [fold B; rewrite HC; nra|]. fold B in HpB.
    destruct (rounded_cases false mp ep Hmp Hcp) as [[-> Hp1]|(pp & -> & Hcpp & [[_ Hp1]|[Hbig _]])];
      [| |specialize (Hep ltac:(lia)); lia]; rewrite Hp1 in Hb2; clear Hp1.
    { (* the product rounded to zero *)
      destruct (mul_zero_l false t Htshape) as [s' Hj]. rewrite Hj, add_zero_r in Hb2.
      rewrite Hb2. exact Hsame. }
    set (P := F2R (Z.pos pp) ep) in *.
    assert (0 < P)%R as HP by apply F2R_pos.
    destruct Ht as [[s ->]|(st & mt & et & -> & Hmt & HT1 & HTpos)].
    { (* the factor is zero *)
      assert (b2 = S754_finite false mb eb) as -> by (rewrite Hb2; reflexivity). exact Hsame. }
    set (T := F2R (Z.pos mt) et) in *.
    assert (0 < T)%R as HT by apply F2R_pos.
    (* j = p1 * t *)
    destruct (mul_spec false pp ep st mt et ltac:(right; lia))
      as (mj & ej & Hj & Hmj & Hcj & Herrj & Hfmtj).
    fold P T in Herrj, Hfmtj. simpl xorb in Hj.
    change (float64.mul (S754_finite false pp ep) (S754_finite st mt et))
      with (SFmul 53 1024 (S754_finite false pp ep) (S754_finite st mt et)) in Hb2.
    rewrite Hj in Hb2. clear Hj.
    destruct (Hfmtj mb eb Hcb) as [HjB Hej]; [fold B; nra|]. fold B in HjB.
    destruct (rounded_cases st mj ej Hmj Hcj) as [[-> Hj]|(pj & -> & Hcpj & [[_ Hj]|[Hbig _]])];
      [| |specialize (Hej ltac:(lia)); lia]; rewrite Hj in Hb2; clear Hj.
    { rewrite add_zero_r in Hb2. rewrite Hb2. exact Hsame. }
    set (J := F2R (Z.pos pj) ej) in *.
    assert (0 < J)%R as HJ by apply F2R_pos.
    (* b2 = b1 + j *)
    destruct (add_spec mb eb st pj ej HjB) as [Hv0 Hadd].
    change (float64.add (S754_finite false mb eb) (S754_finite st pj ej))
      with (SFadd 53 1024 (S754_finite false mb eb) (S754_finite st pj ej)) in Hb2.
    cbn [val cond_Zopp] in Hv0, Hadd. fold B in Hv0, Hadd.
    destruct Hadd as [[_ Hsum]|[Hvpos (m2 & e2 & Hsum & Hm2 & Hc2 & Herr2 & Hfmt2)]];
      rewrite Hsum in Hb2; clear Hsum; rewrite Hb2; clear Hb2.
    { simpl. split; [trivial|]. split; lra. }
    assert (F2R (cond_Zopp st (Z.pos pj)) ej <= B /\
            F2R (cond_Zopp st (Z.pos pj)) ej <= B * (1999 / 10000) + / 1000000000)%R
      as [HjleB Hjle].
    { destruct st; cbn [cond_Zopp]; rewrite ?F2R_opp; fold J.
      - split; lra.
      - split; [lra|]. specialize (HTpos eq_refl).
        assert (P <= B * (2001 / 10000) + / 4503599627370496)%R as HPb.
        { rewrite Hu in Herrp. rewrite HC in Herrp. nra. }
        assert (P * T <= P * (499 / 500))%R as HPT by nra.
        rewrite Hu in Herrj. lra. }
    assert (F2R 4503599627370496 2 = 18014398509481984)%R as H54.
    { unfold F2R. change (bpow 2) with (2 * (2 * 1))%R. lra. }
    destruct (Hfmt2 4503599627370496%positive 2 (canonical_2_52 2 ltac:(lia))) as [HW54 He2].
    { rewrite H54. lra. }
    rewrite H54 in HW54.
    assert (F2R m2 e2 <= 6 / 5 * IZR maxB)%R as HW.
    { rewrite Hu in Herr2.
      assert (1 <= IZR maxB)%R as Hmax1.
      { apply IZR_le. assert (0 < maxB); [|lia]. apply lt_IZR. lra. }
      lra. }
    destruct (rounded_cases false m2 e2 Hm2 Hc2) as [[-> ->]|(p2 & -> & Hcp2 & [[Hfin ->]|[Hbig _]])];
      [| |specialize (He2 ltac:(lia)); lia].
    + simpl. split; [trivial|]. split; lra.
    + simpl. split; [tauto|]. split; assumption.
Qed.

Lemma base_step minB a maxB :
  1 <= minB \/ (minB = 0 /\ a <= 1023) -> 0 <= a -> 0 <= maxB < 2 ^ 53 ->
  let b1 := math.Min (float64.mul (float64.of_int minB) (math.Pow_2 a)) (float64.of_int maxB) in
  nonneg_format b1 /\ (val b1 <= IZR maxB)%R.
Proof.
  intros Hmin Ha Hmax b1.
  assert (nonneg_format (float64.of_int maxB) /\ val (float64.of_int maxB) = IZR maxB) as [HM HMv].
  { destruct (Z.eq_dec maxB 0) as [->|Hnz].
    - split; [exact I | reflexivity].
    - destruct (of_int_exact maxB ltac:(lia)) as (m & e & -> & Hc & He & Hv).
      split; [split; assumption | exact Hv]. }
  assert (nonneg_or_inf (float64.mul (float64.of_int minB) (math.Pow_2 a))) as Hb0.
  { unfold math.Pow_2, float64.inf.
    destruct Hmin as [Hmin|[-> Ha1023]].
    2: { right. destruct (Z.leb_spec a 1023); [exact I | lia]. }
    destruct (a <=? 1023).
    2: { left. destruct (of_int_pos minB ltac:(lia)) as [->|(m & e & ->)]; reflexivity. }
    destruct (of_int_pos minB ltac:(lia)) as [->|(m & e & ->)]; [left; reflexivity|].
    change (2 ^ 52)%positive with 4503599627370496%positive.
    destruct (mul_spec false m e false 4503599627370496 (a - 52) ltac:(right; lia))
      as (m2 & e2 & Hr & Hm2 & Hc2 & _).
    unfold float64.mul, float64.prec, float64.emax. rewrite Hr. simpl xorb.
    destruct (rounded_cases false m2 e2 Hm2 Hc2) as [[-> ->]|(p & -> & Hcp & [[Hfin ->]|[_ ->]])].
    - right. exact I.
    - right. split; assumption.
    - left. reflexivity. }
  destruct (Min_spec _ _ Hb0 HM) as [Hfmt Hle]. split; [exact Hfmt|]. fold b1 in Hle. lra.
Qed.

(** The backoff in milliseconds, before it is scaled to a Duration. *)
Lemma CalculateBackoff_milliseconds now attempt config :
  0 <= now ->
  1 <= common.MinBackoff config \/ (common.MinBackoff config = 0 /\ attempt <= 1023) ->
  0 <= common.MaxBackoff config < 2 ^ 53 ->
  exists ms,
    common.CalculateBackoff now attempt config = Some (int_mul ms time.Millisecond) /\
    0 <= ms /\ 5 * ms <= 6 * common.MaxBackoff config.
Proof.
  intros Hnow Hmin Hmax. unfold common.CalculateBackoff.
  set (a := if attempt <? 0 then 0 else attempt).
  assert (0 <= a /\ (attempt <= 1023 -> a <= 1023)) as [Ha Ha']
    by (unfold a; destruct (Z.ltb_spec attempt 0); lia).
  destruct (base_step (common.MinBackoff config) a (common.MaxBackoff config)
              ltac:(lia) Ha Hmax) as [Hb1 Hb1v].
  set (b1 := math.Min _ _) in *.
  destruct (jitter_step b1 _ (common.MaxBackoff config) Hb1 Hb1v Hmax (factor_ok_rand now Hnow))
    as (Hb2 & Hb2v & Hb2max).
  set (b2 := float64.add _ _) in *.
  destruct (to_int64_spec b2 (2 ^ 54) Hb2 Hb2max ltac:(unfold max_int; lia)) as (ms & -> & Hms0 & Hmsv).
  exists ms. split; [reflexivity|]. split; [exact Hms0|].
  apply le_IZR. rewrite !mult_IZR. lra.
Qed.

(** ** Claims about the backoff *)

Section backoff_on_fixtures.

(** C6 as stated fails for a policy whose maximum backoff is negative: the
    default minimum with a maximum of -5000 ms gives, with the clock at 999
    ns, a backoff of -5998 ms, which is above -6000 ms. *)
Lemma CalculateBackoff_bound_counterexample :
  exists d,
    common.CalculateBackoff 999 0 (fixtures.policy 100 (-5000)) = Some d /\
    6 * (common.MaxBackoff (fixtures.policy 100 (-5000)) * time.Millisecond) < 5 * d.
Proof. exists (-5998000000). split; [reflexivity | reflexivity]. Qed.

(** C7 as stated fails: nothing floors the result at zero.  A negative
    minimum backoff gives a negative duration, and so does a backoff too
    long for a Duration, whose count of nanoseconds wraps around. *)
Lemma CalculateBackoff_negative_counterexample :
  (exists d, common.CalculateBackoff 0 0 (fixtures.policy (-100) 5000) = Some d /\ d < 0) /\
  (exists d, common.CalculateBackoff 999 0
               (fixtures.policy 7700000000000 7700000000000) = Some d /\ d < 0).
Proof.
  split.
  - exists (-80000000). split; reflexivity.
  - exists (-9209824073709551616). split; reflexivity.
Qed.

(** With a minimum of zero the base backoff of attempt 1024 is 0 times +Inf,
    not a number, and its conversion to a Duration is left to the
    implementation. *)
Lemma CalculateBackoff_not_a_number :
  common.CalculateBackoff 0 1024 (fixtures.policy 0 5000) = None.
Proof. reflexivity. Qed.

End backoff_on_fixtures.

(** C6, amended.  For every attempt count, every clock reading (every value
    of the jitter source in [0,1)) and every retry policy whose maximum
    backoff is not negative and is below 2^53 ms, and whose minimum backoff
    is positive, or zero with an attempt count of at most 1023:
    CalculateBackoff returns a duration, and it is at most 1.2 times the
    maximum backoff. *)
Theorem CalculateBackoff_upper_bound now attempt config :
  0 <= now ->
  1 <= common.MinBackoff config \/ (common.MinBackoff config = 0 /\ attempt <= 1023) ->
  0 <= common.MaxBackoff config < 2 ^ 53 ->
  exists d,
    common.CalculateBackoff now attempt config = Some d /\
    5 * d <= 6 * (common.MaxBackoff config * time.Millisecond).
Proof.
  intros Hnow Hmin Hmax.
  destruct (CalculateBackoff_milliseconds now attempt config Hnow Hmin Hmax)
    as (ms & -> & Hms0 & Hms).
  eexists. split; [reflexivity|].
  unfold int_mul, time.Millisecond in *.
  destruct (Z.le_gt_cases (ms * 1000000) max_int) as [Hfit|Hover].
  - rewrite wrap_in_int by (unfold in_int, min_int, max_int in *; lia). lia.
  - pose proof (wrap_le_max (ms * 1000000)). lia.
Qed.

(** The hypotheses of the amended C6 at the default policy. *)
Lemma CalculateBackoff_upper_bound_witness :
  exists d,
    common.CalculateBackoff 999 3 common.DefaultRetryConfig = Some d /\
    5 * d <= 6 * (common.MaxBackoff common.DefaultRetryConfig * time.Millisecond).
Proof.
  apply (CalculateBackoff_upper_bound 999 3 common.DefaultRetryConfig).
  - lia.
  - left. simpl. lia.
  - simpl. lia.
Defined.

(** C7, amended.  For every attempt count, every clock reading and every
    retry policy whose maximum backoff is between 0 and 7686143364045 ms
    (so that 1.2 times it fits a Duration) and whose minimum backoff is
    positive, or zero with an attempt count of at most 1023:
    CalculateBackoff returns a duration that is not negative.  The result
    is not floored: it is the jitter, at most a fifth of the base, that
    keeps it from passing below zero. *)
Theorem CalculateBackoff_nonnegative now attempt config :
  0 <= now ->
  1 <= common.MinBackoff config \/ (common.MinBackoff config = 0 /\ attempt <= 1023) ->
  0 <= common.MaxBackoff config <= 7686143364045 ->
  exists d,
    common.CalculateBackoff now attempt config = Some d /\ 0 <= d.
Proof.
  intros Hnow Hmin Hmax.
  destruct (CalculateBackoff_milliseconds now attempt config Hnow Hmin ltac:(lia))
    as (ms & -> & Hms0 & Hms).
  eexists. split; [reflexivity|].
  unfold int_mul, time.Millisecond.
  rewrite wrap_in_int by (unfold in_int, min_int, max_int; lia). lia.
Qed.

(** The hypotheses of the amended C7 at the default policy. *)
Lemma CalculateBackoff_nonnegative_witness :
  exists d, common.CalculateBackoff 0 0 common.DefaultRetryConfig = Some d /\ 0 <= d.
Proof.
  apply (CalculateBackoff_nonnegative 0 0 common.DefaultRetryConfig).
  - lia.
  - left. simpl. lia.
  - simpl. lia.
Defined.

(** * Further properties

    Properties of the functions around those above: the listings and Init
    of the model registry, NewLLM, the configuration options and the
    constructors of the connectors, the request builders and the shape of
    the backoff schedule. *)

(** ** More about the model registry *)

Section models_listing.

Context `{regexp.Engine}.

Implicit Types (st : models.state) (order : list (string * models.ModelInfo)).
Implicit Types (info : models.ModelInfo) (patterns : list string).

(** The registry after registering [info] under each of [patterns]. *)
Local Abbreviation registered info patterns m :=
  (foldl (λ m' p, <[p := info]> m') m patterns).

Lemma registered_lookup info patterns : ∀ (m : gmap string models.ModelInfo) p,
  registered info patterns m !! p =
    if decide (p ∈ patterns) then Some info else m !! p.
Proof.
  induction patterns as [|q patterns IH]; intros m p; simpl.
  - destruct (decide (p ∈ [])) as [Hin|]; [by apply elem_of_nil in Hin | done].
  - rewrite IH.
    destruct (decide (p ∈ patterns)) as [Hin|Hnin], (decide (p ∈ q :: patterns)) as [Hin'|Hnin'];
      try done.
    + destruct Hnin'. by right.
    + apply elem_of_cons in Hin' as [->|Hin']; [apply lookup_insert_eq | done].
    + apply lookup_insert_ne. intros ->. apply Hnin'. left.
Qed.

Lemma NewModelInfo_compiling info : ∀ patterns st,
  Forall (λ p, ∃ re, regexp.Compile p = Ok re) patterns →
  models.NewModelInfo info patterns st =
    (None, match patterns with
           | [] => st
           | _ :: _ => {| models.registry := registered info patterns (models.registry st);
                          models.cache := ∅ |}
           end).
Proof.
  induction patterns as [|p patterns IH]; intros st Hall; [done|].
  apply Forall_cons in Hall as [[re Hp] Hall].
  simpl. unfold models.Register. rewrite Hp. rewrite (IH _ Hall).
  by destruct patterns.
Qed.

Lemma NewModelInfo_failing info good bad rest st err :
  Forall (λ p, ∃ re, regexp.Compile p = Ok re) good →
  regexp.Compile bad = Err err →
  models.NewModelInfo info (good ++ bad :: rest) st =
    (Some (models.ErrInvalidRegex bad err),
     match good with
     | [] => st
     | _ :: _ => {| models.registry := registered info good (models.registry st);
                    models.cache := ∅ |}
     end).
Proof.
  intros Hgood Hbad. revert st.
  induction good as [|p good IH]; intros st.
  - simpl. unfold models.Register. by rewrite Hbad.
  - apply Forall_cons in Hgood as [[re Hp] Hgood].
    simpl. unfold models.Register at 1. rewrite Hp. rewrite (IH Hgood).
    by destruct good.
Qed.

(** X1.  NewModelInfo registers its patterns one by one and returns at the
    first that does not compile, with that pattern's invalid-regex error:
    the patterns before it stay registered under the metadata (and the
    cache is emptied if there was any), the patterns after it are never
    looked at. *)
Theorem NewModelInfo_stops_at_invalid_pattern info good bad rest st err :
  Forall (λ p, ∃ re, regexp.Compile p = Ok re) good →
  regexp.Compile bad = Err err →
  (models.NewModelInfo info (good ++ bad :: rest) st).1 =
    Some (models.ErrInvalidRegex bad err) ∧
  (∀ p, models.registry (models.NewModelInfo info (good ++ bad :: rest) st).2 !! p =
          if decide (p ∈ good) then Some info else models.registry st !! p) ∧
  (good = [] → (models.NewModelInfo info (good ++ bad :: rest) st).2 = st) ∧
  (good ≠ [] → models.cache (models.NewModelInfo info (good ++ bad :: rest) st).2 = ∅) ∧
  (∀ rest', models.NewModelInfo info (good ++ bad :: rest') st =
            models.NewModelInfo info (good ++ bad :: rest) st).
Proof.
  intros Hgood Hbad.
  rewrite (NewModelInfo_failing _ _ _ _ _ _ Hgood Hbad). simpl.
  split; [done|]. split; [|split; [|split]].
  - intros p. destruct good as [|q good].
    + destruct (decide (p ∈ [])) as [Hin|]; [by apply elem_of_nil in Hin | done].
    + simpl. apply (registered_lookup info (q :: good)).
  - by intros ->.
  - by destruct good.
  - intros rest'. by rewrite (NewModelInfo_failing _ _ _ _ _ _ Hgood Hbad).
Qed.

(** X2.  NewModelInfo returns nil exactly when every pattern compiles;
    then each of the patterns maps to the metadata, every other pattern
    keeps its entry, and with at least one pattern the cache is empty. *)
Theorem NewModelInfo_registers_every_pattern info patterns st :
  ((models.NewModelInfo info patterns st).1 = None ↔
   Forall (λ p, ∃ re, regexp.Compile p = Ok re) patterns) ∧
  (Forall (λ p, ∃ re, regexp.Compile p = Ok re) patterns →
   (∀ p, models.registry (models.NewModelInfo info patterns st).2 !! p =
           if decide (p ∈ patterns) then Some info else models.registry st !! p) ∧
   (patterns ≠ [] → models.cache (models.NewModelInfo info patterns st).2 = ∅)).
Proof.
  split.
  - split.
    + revert st. induction patterns as [|p patterns IH]; intros st; [done|].
      simpl. unfold models.Register.
      destruct (regexp.Compile p) as [re|err] eqn:Hp; [|done].
      intros Hrest. apply Forall_cons. split; [eauto|]. by apply (IH _ Hrest).
    + intros Hall. by rewrite (NewModelInfo_compiling _ _ _ Hall).
  - intros Hall. rewrite (NewModelInfo_compiling _ _ _ Hall). simpl. split.
    + intros p. destruct patterns as [|q patterns].
      * destruct (decide (p ∈ [])) as [Hin|]; [by apply elem_of_nil in Hin | done].
      * apply (registered_lookup info (q :: patterns)).
    + by destruct patterns.
Qed.

End models_listing.

Section models_listing2.

Context `{regexp.Engine}.

Implicit Types (st : models.state) (order : list (string * models.ModelInfo)).
Implicit Types (info : models.ModelInfo) (patterns : list string).

Lemma ListModels_range_spec order : ∀ patterns,
  models.ListModels_range order patterns = patterns ++ order.*1.
Proof.
  induction order as [|[p i] order IH]; intros patterns; simpl.
  - by rewrite app_nil_r.
  - by rewrite IH, <- app_assoc.
Qed.

Lemma ListModels_fst order : models.ListModels order = order.*1.
Proof. apply ListModels_range_spec. Qed.

Lemma NoDup_fst_visits (m : gmap string models.ModelInfo) order :
  models.visits m order → NoDup order.*1.
Proof. unfold models.visits. intros ->. apply NoDup_fst_map_to_list. Qed.

(** X3.  Whatever order the map is visited in, ListModels returns the
    registered patterns, each once: a pattern is listed exactly when it has
    an entry, and the length is the size of the registry.  A pattern just
    registered with success is listed. *)
Theorem ListModels_lists_registered_patterns st order :
  models.visits (models.registry st) order →
  (∀ p, p ∈ models.ListModels order ↔ is_Some (models.registry st !! p)) ∧
  NoDup (models.ListModels order) ∧
  length (models.ListModels order) = size (models.registry st) ∧
  (∀ p info order',
     (models.Register p info st).1 = None →
     models.visits (models.registry (models.Register p info st).2) order' →
     p ∈ models.ListModels order').
Proof.
  intros Hv. rewrite ListModels_fst.
  assert (∀ (m : gmap string models.ModelInfo) o p,
            models.visits m o → p ∈ o.*1 ↔ is_Some (m !! p)) as Hmem.
  { intros m o p Hm. rewrite list_elem_of_fmap. split.
    - intros ([p' i] & -> & Hin). exists i. by apply (models_visits_elem _ o).
    - intros [i Hi]. exists (p, i). split; [done|]. by apply (models_visits_elem m). }
  split; [intros p; by apply Hmem|]. split; [by apply (NoDup_fst_visits (models.registry st))|].
  split.
  - rewrite length_fmap. unfold models.visits in Hv. rewrite Hv. apply length_map_to_list.
  - intros p info order' [_ Hst]%models_Register_Ok Hv'. rewrite Hst in Hv'. simpl in Hv'.
    rewrite ListModels_fst. apply (Hmem _ _ _ Hv'). rewrite lookup_insert_eq. by eexists.
Qed.

Lemma has_profile_elem profiles profile :
  models.has_profile profiles profile = true ↔ profile ∈ profiles.
Proof.
  induction profiles as [|p profiles IH]; simpl.
  - split; [done | by intros ?%elem_of_nil].
  - destruct (String.eqb_spec p profile) as [->|Hne].
    + split; [intros _; left | done].
    + rewrite IH. split; [by right|]. intros [?|?]%elem_of_cons; [congruence | done].
Qed.

Lemma ListModelsByProfile_range_spec profile order : ∀ models,
  models.ListModelsByProfile_range order profile models =
  models ++ (filter (λ e, profile ∈ models.Profiles e.2) order).*2.
Proof.
  induction order as [|[p i] order IH]; intros models; simpl.
  - by rewrite app_nil_r.
  - rewrite IH. rewrite filter_cons. simpl.
    destruct (models.has_profile (models.Profiles i) profile) eqn:Hp.
    + apply has_profile_elem in Hp. rewrite decide_True by done.
      by rewrite <- app_assoc.
    + rewrite decide_False; [done|]. intros Hin%has_profile_elem. congruence.
Qed.

(** X4.  ListModelsByProfile returns, up to the order of the visit, the
    stored metadata of the entries whose profiles contain the profile: one
    element for each such pattern, so metadata registered under two
    patterns is listed twice, and the ID is the stored one. *)
Theorem ListModelsByProfile_lists_entries_with_profile st order profile :
  models.visits (models.registry st) order →
  models.ListModelsByProfile order profile ≡ₚ
    (filter (λ e, profile ∈ models.Profiles e.2) (map_to_list (models.registry st))).*2 ∧
  (∀ info, info ∈ models.ListModelsByProfile order profile ↔
     ∃ pattern, models.registry st !! pattern = Some info ∧ profile ∈ models.Profiles info).
Proof.
  intros Hv. unfold models.ListModelsByProfile. rewrite ListModelsByProfile_range_spec. simpl.
  split; [unfold models.visits in Hv; by rewrite Hv|].
  intros info. rewrite list_elem_of_fmap. split.
  - intros ([p i] & -> & [Hp Hin]%list_elem_of_filter). exists p. split; [|done].
    by apply (models_visits_elem _ order).
  - intros (p & Hreg & Hp). exists (p, info). split; [done|].
    apply list_elem_of_filter. split; [done|]. by apply (models_visits_elem (models.registry st)).
Qed.

Lemma ListModelsByProvider_range_spec `{strings.Folding} provider order : ∀ models,
  models.ListModelsByProvider_range order provider models =
  models ++ (filter (λ e, strings.EqualFold (models.Provider e.2) provider = true) order).*2.
Proof.
  induction order as [|[p i] order IH]; intros models; simpl.
  - by rewrite app_nil_r.
  - rewrite IH. rewrite filter_cons. simpl.
    destruct (strings.EqualFold (models.Provider i) provider) eqn:Hp.
    + rewrite decide_True by done. by rewrite <- app_assoc.
    + by rewrite decide_False by done.
Qed.

(** X5.  ListModelsByProvider returns, up to the order of the visit, the
    stored metadata of the entries whose provider equals the argument under
    case folding, one element for each such pattern. *)
Theorem ListModelsByProvider_lists_entries_of_provider `{strings.Folding} st order provider :
  models.visits (models.registry st) order →
  models.ListModelsByProvider order provider ≡ₚ
    (filter (λ e, strings.EqualFold (models.Provider e.2) provider = true)
            (map_to_list (models.registry st))).*2 ∧
  (∀ info, info ∈ models.ListModelsByProvider order provider ↔
     ∃ pattern, models.registry st !! pattern = Some info ∧
                strings.EqualFold (models.Provider info) provider = true).
Proof.
  intros Hv. unfold models.ListModelsByProvider. rewrite ListModelsByProvider_range_spec. simpl.
  split; [unfold models.visits in Hv; by rewrite Hv|].
  intros info. rewrite list_elem_of_fmap. split.
  - intros ([p i] & -> & [Hp Hin]%list_elem_of_filter). exists p. split; [|done].
    by apply (models_visits_elem _ order).
  - intros (p & Hreg & Hp). exists (p, info). split; [done|].
    apply list_elem_of_filter. split; [done|]. by apply (models_visits_elem (models.registry st)).
Qed.

(** A successful Resolve in a reachable state returns the rewritten copy
    of the metadata of a registered pattern that matches the model. *)
Lemma models_Resolve_matching st order model resolved st' :
  models.reachable st →
  models.visits (models.registry st) order →
  models.Resolve order model st = (Ok resolved, st') →
  ∃ pattern info,
    models.registry st !! pattern = Some info ∧
    regexp.MatchString pattern model = Ok true ∧
    resolved = models.with_ID info model.
Proof.
  intros Hst Hv Hr.
  destruct (models.cache st !! model) as [c|] eqn:Hc.
  - rewrite (models_Resolve_hit _ _ _ _ Hc) in Hr. injection Hr as -> <-.
    by apply (proj1 (models_invariant _ Hst)).
  - rewrite (models_Resolve_miss _ _ _ Hc) in Hr.
    destruct (models.range_registry order model) as [[c|e]|] eqn:Hrange; [|done..].
    injection Hr as -> <-.
    destruct (models_range_found _ _ _ Hrange) as (p & i & Hin & Hm & ->).
    exists p, i. split; [|done]. by apply (models_visits_elem _ order).
Qed.

(** X6.  HasProfile resolves the model as Resolve does, with the same
    error and the same effect on the cache; its answer is whether the
    profile is among those of a registered pattern that matches the model,
    and of the pattern when only one matches. *)
Theorem HasProfile_reads_resolved_profiles st order model profile :
  models.reachable st →
  models.visits (models.registry st) order →
  (models.HasProfile order model profile st).2 = (models.Resolve order model st).2 ∧
  (∀ err, (models.HasProfile order model profile st).1 = Err err ↔
          (models.Resolve order model st).1 = Err err) ∧
  (∀ b, (models.HasProfile order model profile st).1 = Ok b →
     ∃ pattern info,
       models.registry st !! pattern = Some info ∧
       regexp.MatchString pattern model = Ok true ∧
       (b = true ↔ profile ∈ models.Profiles info)) ∧
  (∀ pattern info,
     models.registry st !! pattern = Some info →
     regexp.MatchString pattern model = Ok true →
     (∀ pattern', is_Some (models.registry st !! pattern') →
                  regexp.MatchString pattern' model = Ok true → pattern' = pattern) →
     (models.HasProfile order model profile st).1 =
       Ok (bool_decide (profile ∈ models.Profiles info))).
Proof.
  intros Hst Hv. unfold models.HasProfile.
  destruct (models.Resolve order model st) as [[resolved|e] st'] eqn:Hr; simpl.
  - destruct (models_Resolve_matching _ _ _ _ _ Hst Hv Hr) as (p & i & Hreg & Hm & ->).
    split; [done|]. split; [done|]. split.
    + intros b [= <-]. exists p, i. split; [done|]. split; [done|]. simpl.
      apply has_profile_elem.
    + intros pattern info Hreg' Hm' Huniq.
      assert (p = pattern) as -> by (apply Huniq; [by eexists | done]).
      assert (i = info) as -> by congruence. simpl. f_equal.
      destruct (models.has_profile (models.Profiles info) profile) eqn:Hp; symmetry.
      * apply bool_decide_eq_true. exact (proj1 (has_profile_elem _ _) Hp).
      * apply bool_decide_eq_false. intros Hin%has_profile_elem. congruence.
  - split; [done|]. split; [intros err; split; by intros [= ->]|]. split; [by intros b [=]|].
    intros pattern info Hreg Hm Huniq. exfalso.
    pose proof Hr as [-> Hmiss]%models_Resolve_Err.
    rewrite (models_Resolve_miss _ _ _ Hmiss) in Hr.
    destruct (models.range_registry order model) as [[c|e1]|] eqn:Hrange; [done| |].
    + destruct (models_range_error _ _ _ Hrange) as (p & i & err & Hin & Hcomp).
      apply (models_visits_elem _ _ _ _ Hv) in Hin.
      destruct (proj2 (models_invariant _ Hst) p i Hin) as [re Hre]. congruence.
    + pose proof (proj1 (models_range_none _ _) Hrange pattern info) as Hno.
      rewrite Hno in Hm; [done|]. by apply (models_visits_elem (models.registry st)).
Qed.

(** X7.  After ClearRegistry nothing is listed and no model resolves, not
    even one whose resolution was cached before: Resolve and HasProfile
    return the model-not-found error and leave the state empty. *)
Theorem ClearRegistry_forgets_everything st order model profile :
  models.visits (models.registry (models.ClearRegistry st)) order →
  models.ListModels order = [] ∧
  models.Resolve order model (models.ClearRegistry st) =
    (Err (models.ErrModelNotFound model), models.ClearRegistry st) ∧
  models.HasProfile order model profile (models.ClearRegistry st) =
    (Err (models.ErrModelNotFound model), models.ClearRegistry st).
Proof.
  unfold models.visits. simpl. rewrite map_to_list_empty. intros ->%Permutation_nil_r.
  done.
Qed.

End models_listing2.

Section models_init.

Context `{regexp.Engine}.

Implicit Types (st : models.state) (l : list (string * models.ModelInfo)).

Lemma NewModelInfo_registered info patterns :
  ∃ l, ∀ st, (models.NewModelInfo info patterns st).2 = models.registered l st.
Proof.
  induction patterns as [|p patterns [l' IH]]; [by exists []|].
  destruct (regexp.Compile p) as [re|err] eqn:Hp.
  - exists ((p, info) :: l'). intros st. simpl. unfold models.Register. rewrite Hp, IH.
    by destruct l'.
  - exists []. intros st. simpl. unfold models.Register. by rewrite Hp.
Qed.

Lemma registered_app l1 l2 st :
  models.registered l2 (models.registered l1 st) = models.registered (l1 ++ l2) st.
Proof.
  destruct l1 as [|e1 l1], l2 as [|e2 l2]; simpl; try done.
  - by rewrite app_nil_r.
  - by rewrite foldl_app.
Qed.

Lemma foldl_insert_union l : ∀ m : gmap string models.ModelInfo,
  foldl (λ m' (e : string * models.ModelInfo), <[e.1 := e.2]> m') m l =
  list_to_map (reverse l) ∪ m.
Proof.
  induction l as [|[k v] l IH]; intros m; simpl.
  - by rewrite (left_id_L ∅ (∪)).
  - rewrite IH, reverse_cons, list_to_map_app. simpl.
    rewrite <- (assoc_L (∪)). f_equal.
    by rewrite <- insert_union_l, (left_id_L ∅ (∪)).
Qed.

Lemma registered_twice l st :
  models.registered l (models.registered l st) = models.registered l st.
Proof.
  destruct l as [|e l]; [done|]. unfold models.registered.
  cbn [models.registry models.cache]. f_equal.
  rewrite !(foldl_insert_union (e :: l)).
  by rewrite (assoc_L (∪)), (idemp_L (∪)).
Qed.

Lemma Init_registered : ∃ l, ∀ st, models.Init st = models.registered l st.
Proof.
  unfold models.Init.
  repeat match goal with
  | |- context [models.NewModelInfo ?i ?p _] =>
    let l := fresh "l" in let Hl := fresh "Hl" in
    destruct (NewModelInfo_registered i p) as [l Hl];
    setoid_rewrite Hl; clear Hl
  end.
  eexists. intros st. rewrite !registered_app. reflexivity.
Qed.

(** X8.  Init is idempotent: a second call leaves the registry and the
    cache as the first left them, whatever the state before and whichever
    of its patterns the regexp library accepts. *)
Theorem Init_twice st : models.Init (models.Init st) = models.Init st.
Proof.
  destruct Init_registered as [l Hl]. rewrite !Hl. apply registered_twice.
Qed.

End models_init.

Section models_unique.

Context `{regexp.Engine}.

(** In a reachable state, a model that exactly one registered pattern
    matches resolves to the rewritten copy of that pattern's metadata. *)
Lemma models_Resolve_unique (st : models.state) order model pattern info :
  models.reachable st →
  models.visits (models.registry st) order →
  models.registry st !! pattern = Some info →
  regexp.MatchString pattern model = Ok true →
  (∀ pattern', is_Some (models.registry st !! pattern') →
               regexp.MatchString pattern' model = Ok true → pattern' = pattern) →
  (models.Resolve order model st).1 = Ok (models.with_ID info model).
Proof.
  intros Hst Hv Hreg Hm Huniq.
  destruct (models.Resolve order model st) as [[resolved|e] st'] eqn:Hr; simpl.
  - destruct (models_Resolve_matching _ _ _ _ _ Hst Hv Hr) as (p & i & Hreg' & Hm' & ->).
    assert (p = pattern) as -> by (apply Huniq; [by eexists | done]).
    congruence.
  - exfalso.
    pose proof Hr as [-> Hmiss]%models_Resolve_Err.
    rewrite (models_Resolve_miss _ _ _ Hmiss) in Hr.
    destruct (models.range_registry order model) as [[c|e1]|] eqn:Hrange; [done| |].
    + destruct (models_range_error _ _ _ Hrange) as (p & i & err & Hin & Hcomp).
      apply (models_visits_elem _ _ _ _ Hv) in Hin.
      destruct (proj2 (models_invariant _ Hst) p i Hin) as [re Hre]. congruence.
    + pose proof (proj1 (models_range_none _ _) Hrange pattern info) as Hno.
      rewrite Hno in Hm; [done|]. by apply (models_visits_elem (models.registry st)).
Qed.

(** Uniqueness of the matching pattern among [keys], by running the
    matcher on each. *)
Lemma unique_by_table (keys : list string) model pattern :
  forallb (λ p, match regexp.MatchString p model with
                | Ok true => String.eqb p pattern
                | _ => true
                end) keys = true →
  ∀ p, p ∈ keys → regexp.MatchString p model = Ok true → p = pattern.
Proof.
  intros Hall p Hin%list_elem_of_In Hm.
  pose proof (proj1 (forallb_forall _ _) Hall p Hin) as Hp. simpl in Hp.
  rewrite Hm in Hp. by apply String.eqb_eq.
Qed.

(** Every registered pattern that matches a model not yet cached wins in
    some visit order: the one that starts with it. *)
Lemma models_Resolve_first_visited (st : models.state) model pattern info :
  models.cache st !! model = None →
  models.registry st !! pattern = Some info →
  regexp.MatchString pattern model = Ok true →
  ∃ order, models.visits (models.registry st) order ∧
           (models.Resolve order model st).1 = Ok (models.with_ID info model).
Proof.
  intros Hmiss Hreg Hm.
  exists ((pattern, info) :: map_to_list (delete pattern (models.registry st))). split.
  - unfold models.visits. rewrite <- map_to_list_insert by apply lookup_delete_eq.
    by rewrite insert_delete_id.
  - rewrite (models_Resolve_miss _ _ _ Hmiss). simpl. by rewrite Hm.
Qed.

Lemma Init_reachable (st : models.state) : models.reachable st → models.reachable (models.Init st).
Proof.
  intros Hst. unfold models.Init. by repeat apply models_NewModelInfo_reachable.
Qed.

End models_unique.

Section models_init_re2.

#[local] Existing Instance re2.engine.

(** X9.  After ClearRegistry and Init, with Go's regular expressions on
    these patterns: each of gpt-4, gpt-3.5-turbo, claude-3-opus,
    claude-3-sonnet, gemini-pro and mistral-large resolves, in every visit
    order, to metadata with that ID and its own token limit and provider.
    The model gpt-4-turbo does not: gpt-4-turbo.* and gpt-4-.* both match
    it, and one visit order gives the limit 128000, another 8192. *)
Theorem Init_resolves_model_IDs (st : models.state) order :
  models.visits (models.registry (models.Init (models.ClearRegistry st))) order →
  (∀ model maxTokens provider,
     (model, maxTokens, provider) ∈
       [("gpt-4", 8192, models.ProviderOpenAI);
        ("gpt-3.5-turbo", 16385, models.ProviderOpenAI);
        ("claude-3-opus", 200000, models.ProviderAnthropic);
        ("claude-3-sonnet", 200000, models.ProviderAnthropic);
        ("gemini-pro", 32768, models.ProviderGoogle);
        ("mistral-large", 32768, models.ProviderMistral)] →
     ∃ info,
       (models.Resolve order model (models.Init (models.ClearRegistry st))).1 = Ok info ∧
       models.ID info = model ∧
       models.MaxTokens info = maxTokens ∧
       models.Provider info = provider) ∧
  (∃ order1 order2 info1 info2,
     models.visits (models.registry (models.Init (models.ClearRegistry st))) order1 ∧
     models.visits (models.registry (models.Init (models.ClearRegistry st))) order2 ∧
     (models.Resolve order1 "gpt-4-turbo" (models.Init (models.ClearRegistry st))).1 = Ok info1 ∧
     (models.Resolve order2 "gpt-4-turbo" (models.Init (models.ClearRegistry st))).1 = Ok info2 ∧
     models.MaxTokens info1 = 128000 ∧
     models.MaxTokens info2 = 8192).
Proof.
  change (models.ClearRegistry st) with models.init.
  intros Hv.
  assert (models.reachable (models.Init models.init)) as Hreach
    by apply Init_reachable, models.reachable_init.
  assert (∀ pattern', is_Some (models.registry (models.Init models.init) !! pattern') →
            pattern' ∈ ["gemini-pro.*"; "gpt-3.5-turbo.*"; "gpt-4-.*"; "gpt-4-turbo.*";
                        "gpt-4$"; "claude-3-opus.*"; "claude-3-sonnet.*"; "mistral-large.*"])
    as Hkeys.
  { intros p [i Hi]. apply elem_of_map_to_list in Hi.
    apply (list_elem_of_fmap_2 fst) in Hi. simpl in Hi.
    vm_compute in Hi. exact Hi. }
  split.
  - intros model maxTokens provider Hin.
    assert (∀ pattern info,
              models.registry (models.Init models.init) !! pattern = Some info →
              regexp.MatchString pattern model = Ok true →
              (∀ pattern', pattern' ∈ ["gemini-pro.*"; "gpt-3.5-turbo.*"; "gpt-4-.*";
                                        "gpt-4-turbo.*"; "gpt-4$"; "claude-3-opus.*";
                                        "claude-3-sonnet.*"; "mistral-large.*"] →
                 regexp.MatchString pattern' model = Ok true → pattern' = pattern) →
              (models.Resolve order model (models.Init models.init)).1 =
                Ok (models.with_ID info model)) as Hres.
    { intros pattern info Hreg Hm Huniq.
      apply (models_Resolve_unique _ _ _ pattern); try done.
      intros p Hp. apply Huniq. by apply Hkeys. }
    repeat (apply elem_of_cons in Hin as [[= -> -> ->]|Hin]).
    + eexists. split; [apply (Hres "gpt-4$"); [vm_compute; reflexivity | vm_compute; reflexivity | apply unique_by_table; vm_compute; reflexivity]|]. done.
    + eexists. split; [apply (Hres "gpt-3.5-turbo.*"); [vm_compute; reflexivity | vm_compute; reflexivity | apply unique_by_table; vm_compute; reflexivity]|]. done.
    + eexists. split; [apply (Hres "claude-3-opus.*"); [vm_compute; reflexivity | vm_compute; reflexivity | apply unique_by_table; vm_compute; reflexivity]|]. done.
    + eexists. split; [apply (Hres "claude-3-sonnet.*"); [vm_compute; reflexivity | vm_compute; reflexivity | apply unique_by_table; vm_compute; reflexivity]|]. done.
    + eexists. split; [apply (Hres "gemini-pro.*"); [vm_compute; reflexivity | vm_compute; reflexivity | apply unique_by_table; vm_compute; reflexivity]|]. done.
    + eexists. split; [apply (Hres "mistral-large.*"); [vm_compute; reflexivity | vm_compute; reflexivity | apply unique_by_table; vm_compute; reflexivity]|]. done.
    + by apply elem_of_nil in Hin.
  - edestruct (models_Resolve_first_visited (models.Init models.init) "gpt-4-turbo"
                 "gpt-4-turbo.*") as (order1 & Hv1 & Hr1);
      [reflexivity | vm_compute; reflexivity | vm_compute; reflexivity |].
    edestruct (models_Resolve_first_visited (models.Init models.init) "gpt-4-turbo"
                 "gpt-4-.*") as (order2 & Hv2 & Hr2);
      [reflexivity | vm_compute; reflexivity | vm_compute; reflexivity |].
    exists order1, order2. eexists _, _.
    split; [exact Hv1|]. split; [exact Hv2|]. split; [exact Hr1|]. split; [exact Hr2|].
    split; reflexivity.
Qed.

End models_init_re2.

Section models_listing_on_fixtures.

#[local] Existing Instance re2.engine.
#[local] Existing Instance strings.ascii.

Lemma setupTestRegistry_reachable : models.reachable (fixtures.setupTestRegistry models.init).
Proof.
  unfold fixtures.setupTestRegistry.
  repeat apply models_NewModelInfo_reachable.
  apply models.reachable_ClearRegistry, models.reachable_init.
Qed.

Lemma test_order_visits :
  models.visits (models.registry (fixtures.setupTestRegistry models.init)) fixtures.test_order.
Proof.
  apply visits_of_list_to_map; [|reflexivity].
  apply (bool_decide_unpack _). reflexivity.
Qed.

(** The hypotheses of X1 at the metadata of gpt-4, registered under a
    pattern that compiles, one that does not, and one more. *)
Lemma NewModelInfo_stops_at_invalid_pattern_witness :
  (models.NewModelInfo (H := re2.engine) fixtures.gpt_4
     (["gpt-4$"] ++ "[invalid" :: ["gpt-4-.*"]) models.init).1 =
    Some (models.ErrInvalidRegex "[invalid" re2.ErrMissingBracket) ∧
  models.registry
    (models.NewModelInfo fixtures.gpt_4 (["gpt-4$"] ++ "[invalid" :: ["gpt-4-.*"])
       models.init).2 !! "gpt-4-.*" = None.
Proof.
  destruct (NewModelInfo_stops_at_invalid_pattern (H := re2.engine) fixtures.gpt_4
              ["gpt-4$"] "[invalid" ["gpt-4-.*"] models.init re2.ErrMissingBracket)
    as (Herr & Hreg & _).
  - repeat constructor. eexists. reflexivity.
  - reflexivity.
  - split; [exact Herr|]. rewrite Hreg. reflexivity.
Defined.

(** The hypotheses of X3 at the registry of the tests of package models. *)
Lemma ListModels_lists_registered_patterns_witness :
  NoDup (models.ListModels fixtures.test_order) ∧
  length (models.ListModels fixtures.test_order) =
    size (models.registry (fixtures.setupTestRegistry models.init)).
Proof.
  destruct (ListModels_lists_registered_patterns (fixtures.setupTestRegistry models.init)
              fixtures.test_order) as (_ & Hnd & Hlen & _).
  - exact test_order_visits.
  - split; [exact Hnd | exact Hlen].
Defined.

(** The hypotheses of X4 at the test registry: the one model with the
    profile rag. *)
Lemma ListModelsByProfile_lists_entries_with_profile_witness :
  fixtures.test_model_2 ∈ models.ListModelsByProfile fixtures.test_order models.ProfileRAG.
Proof.
  destruct (ListModelsByProfile_lists_entries_with_profile
              (fixtures.setupTestRegistry models.init) fixtures.test_order models.ProfileRAG)
    as [_ Hmem].
  - exact test_order_visits.
  - apply Hmem. exists "test-model-2". split; [reflexivity|].
    apply (bool_decide_unpack _). reflexivity.
Defined.

(** The hypotheses of X5 at the test registry, with the provider in mixed
    case as in the test. *)
Lemma ListModelsByProvider_lists_entries_of_provider_witness :
  fixtures.test_model_2 ∈
    models.ListModelsByProvider fixtures.test_order "AnThRoPiC".
Proof.
  destruct (ListModelsByProvider_lists_entries_of_provider
              (fixtures.setupTestRegistry models.init) fixtures.test_order "AnThRoPiC")
    as [_ Hmem].
  - exact test_order_visits.
  - apply Hmem. exists "test-model-2". split; reflexivity.
Defined.

(** The hypotheses of X6 at the test registry and a model its pattern
    matches. *)
Lemma HasProfile_reads_resolved_profiles_witness :
  (models.HasProfile fixtures.test_order "test-regex-abc" models.ProfileChat
     (fixtures.setupTestRegistry models.init)).2 =
  (models.Resolve fixtures.test_order "test-regex-abc"
     (fixtures.setupTestRegistry models.init)).2 ∧
  ∃ pattern info,
    models.registry (fixtures.setupTestRegistry models.init) !! pattern = Some info ∧
    regexp.MatchString pattern "test-regex-abc" = Ok true ∧
    (true = true ↔ models.ProfileChat ∈ models.Profiles info).
Proof.
  destruct (HasProfile_reads_resolved_profiles (fixtures.setupTestRegistry models.init)
              fixtures.test_order "test-regex-abc" models.ProfileChat)
    as (Hst & _ & Hok & _).
  - exact setupTestRegistry_reachable.
  - exact test_order_visits.
  - split; [exact Hst|]. apply Hok. reflexivity.
Defined.

(** The hypotheses of X7 at the test registry, cleared. *)
Lemma ClearRegistry_forgets_everything_witness :
  models.Resolve [] "test-model-1"
    (models.ClearRegistry (fixtures.setupTestRegistry models.init)) =
  (Err (models.ErrModelNotFound "test-model-1"),
   models.ClearRegistry (fixtures.setupTestRegistry models.init)).
Proof.
  destruct (ClearRegistry_forgets_everything (fixtures.setupTestRegistry models.init) []
              "test-model-1" models.ProfileChat) as (_ & Hr & _).
  - unfold models.visits. simpl. rewrite map_to_list_empty. reflexivity.
  - exact Hr.
Defined.

(** The hypotheses of X9 at the order in which the map lists its entries. *)
Lemma Init_resolves_model_IDs_witness :
  ∃ info,
    (models.Resolve (map_to_list (models.registry (models.Init (models.ClearRegistry models.init))))
       "gpt-4" (models.Init (models.ClearRegistry models.init))).1 = Ok info ∧
    models.ID info = "gpt-4" ∧
    models.MaxTokens info = 8192 ∧
    models.Provider info = models.ProviderOpenAI.
Proof.
  destruct (Init_resolves_model_IDs models.init
              (map_to_list (models.registry (models.Init (models.ClearRegistry models.init)))))
    as [Hids _].
  - unfold models.visits. reflexivity.
  - apply Hids. apply (bool_decide_unpack _). reflexivity.
Defined.

End models_listing_on_fixtures.

(** ** More about the constructor registry *)

Section connectors_llm.

Context `{regexp.Engine} {constructorFn : Type}.

Implicit Types (st : connectors.state (constructorFn := constructorFn)).
Implicit Types (order : list (string * constructorFn)).

Lemma connectors_Resolve_matching st order model ctor st' :
  connectors.reachable st →
  connectors.visits (connectors.registry st) order →
  connectors.Resolve order model st = (Ok ctor, st') →
  ∃ regex, connectors.registry st !! regex = Some ctor ∧
           regexp.MatchString regex model = Ok true.
Proof.
  intros Hst Hv Hr.
  destruct (connectors.resolveCache st !! model) as [c|] eqn:Hc.
  - rewrite (connectors_Resolve_hit _ _ _ _ Hc) in Hr. injection Hr as -> <-.
    by apply (connectors_cache_consistent _ Hst).
  - rewrite (connectors_Resolve_miss _ _ _ Hc) in Hr.
    destruct (connectors.range_registry order model) as [[c|e]|] eqn:Hrange; [|done..].
    injection Hr as -> <-.
    destruct (connectors_range_found _ _ _ Hrange) as (regex & Hin & Hm).
    exists regex. split; [|done]. by apply (connectors_visits_elem _ order).
Qed.

Lemma connectors_Resolve_first_visited st model regex ctor :
  connectors.resolveCache st !! model = None →
  connectors.registry st !! regex = Some ctor →
  regexp.MatchString regex model = Ok true →
  ∃ order, connectors.visits (connectors.registry st) order ∧
           (connectors.Resolve order model st).1 = Ok ctor.
Proof.
  intros Hmiss Hreg Hm.
  exists ((regex, ctor) :: map_to_list (delete regex (connectors.registry st))). split.
  - unfold connectors.visits. rewrite <- map_to_list_insert by apply lookup_delete_eq.
    by rewrite insert_delete_id.
  - rewrite (connectors_Resolve_miss _ _ _ Hmiss). simpl. by rewrite Hm.
Qed.

(** X10.  In a reachable state of the constructor registry, a successful
    Resolve returns the constructor of a registered pattern that matches
    the model, caches it and leaves the registry as it was; every
    registered pattern that matches an uncached model is the one returned
    in some visit order; and when every registered pattern compiles and
    none matches, Resolve returns the no-constructor error. *)
Theorem connectors_Resolve_returns_matching_constructor st order model :
  connectors.reachable st →
  connectors.visits (connectors.registry st) order →
  (∀ ctor st', connectors.Resolve order model st = (Ok ctor, st') →
     (∃ regex, connectors.registry st !! regex = Some ctor ∧
               regexp.MatchString regex model = Ok true) ∧
     connectors.registry st' = connectors.registry st ∧
     connectors.resolveCache st' !! model = Some ctor) ∧
  (∀ regex ctor,
     connectors.resolveCache st !! model = None →
     connectors.registry st !! regex = Some ctor →
     regexp.MatchString regex model = Ok true →
     ∃ order', connectors.visits (connectors.registry st) order' ∧
               (connectors.Resolve order' model st).1 = Ok ctor) ∧
  ((∀ regex ctor, connectors.registry st !! regex = Some ctor →
                  regexp.MatchString regex model = Ok false) →
   connectors.Resolve order model st = (Err (connectors.ErrNoConstructor model), st)).
Proof.
  intros Hst Hv. split; [|split].
  - intros ctor st' Hr. split; [by apply (connectors_Resolve_matching st order model ctor st')|].
    destruct (connectors_Resolve_Ok _ _ _ _ _ Hr) as [Hc Hreg]. done.
  - intros regex ctor. apply connectors_Resolve_first_visited.
  - intros Hnone.
    assert (connectors.resolveCache st !! model = None) as Hmiss.
    { destruct (connectors.resolveCache st !! model) as [c|] eqn:Hc; [|done].
      destruct (connectors_cache_consistent _ Hst model c Hc) as (regex & Hreg & Hm).
      rewrite (Hnone regex c Hreg) in Hm. done. }
    rewrite (connectors_Resolve_miss _ _ _ Hmiss).
    assert (connectors.range_registry order model = None) as ->; [|done].
    apply connectors_range_none. intros regex ctor Hin. apply (Hnone regex ctor).
    by apply (connectors_visits_elem _ order).
Qed.

End connectors_llm.

Section connectors_NewLLM.

Context `{regexp.Engine} {Option LLM constructor_error : Type}.

Local Abbreviation constructorFn := (string → list Option → result LLM constructor_error).

Implicit Types (st : connectors.state (constructorFn := constructorFn)).
Implicit Types (order : list (string * constructorFn)).

(** X11.  NewLLM returns the error of Resolve without calling any
    constructor, or else what the resolved constructor returns for the
    requested model name and the options as given.  The constructor is that
    of a registered pattern matching the model, and the resolution is
    cached even when the constructor fails. *)
Theorem NewLLM_calls_resolved_constructor st order model (opts : list Option) :
  connectors.reachable st →
  connectors.visits (connectors.registry st) order →
  (connectors.NewLLM order model opts st).2 = (connectors.Resolve order model st).2 ∧
  (∀ err, (connectors.Resolve order model st).1 = Err err →
     (connectors.NewLLM order model opts st).1 = Err (connectors.ErrResolve err)) ∧
  (∀ ctor, (connectors.Resolve order model st).1 = Ok ctor →
     (connectors.NewLLM order model opts st).1 =
       match ctor model opts with
       | Ok llm => Ok llm
       | Err err => Err (connectors.ErrConstructor err)
       end ∧
     (∃ regex, connectors.registry st !! regex = Some ctor ∧
               regexp.MatchString regex model = Ok true) ∧
     connectors.resolveCache (connectors.NewLLM order model opts st).2 !! model = Some ctor).
Proof.
  intros Hst Hv. unfold connectors.NewLLM.
  destruct (connectors.Resolve order model st) as [[ctor|e] st'] eqn:Hr; simpl.
  - split; [by destruct (ctor model opts)|]. split; [done|].
    intros ? [= <-]. split; [by destruct (ctor model opts)|].
    split; [by apply (connectors_Resolve_matching st order model ctor st')|].
    destruct (connectors_Resolve_Ok _ _ _ _ _ Hr) as [Hc _].
    by destruct (ctor model opts).
  - split; [done|]. split; [by intros ? [= <-]|]. by intros ? [=].
Qed.

End connectors_NewLLM.

(** ** The order of registrations *)

(** X12.  The registries do not depend on the order in which different
    patterns are registered, as when the connectors register themselves
    from their init functions: two registrations of different patterns
    commute, and registering a pattern again replaces its payload.  In the
    model registry this holds whether or not the patterns compile. *)
Theorem registrations_commute `{regexp.Engine} {constructorFn : Type} :
  (∀ (st : connectors.state (constructorFn := constructorFn)) regex1 ctor1 regex2 ctor2,
     regex1 ≠ regex2 →
     (connectors.Register regex1 ctor1 (connectors.Register regex2 ctor2 st).2).2 =
     (connectors.Register regex2 ctor2 (connectors.Register regex1 ctor1 st).2).2) ∧
  (∀ (st : connectors.state (constructorFn := constructorFn)) regex ctor1 ctor2,
     (connectors.Register regex ctor2 (connectors.Register regex ctor1 st).2).2 =
     (connectors.Register regex ctor2 st).2) ∧
  (∀ (st : models.state) pattern1 info1 pattern2 info2,
     pattern1 ≠ pattern2 →
     (models.Register pattern1 info1 (models.Register pattern2 info2 st).2).2 =
     (models.Register pattern2 info2 (models.Register pattern1 info1 st).2).2) ∧
  (∀ (st : models.state) pattern info1 info2,
     (models.Register pattern info2 (models.Register pattern info1 st).2).2 =
     (models.Register pattern info2 st).2).
Proof.
  split; [|split; [|split]].
  - intros st regex1 ctor1 regex2 ctor2 Hne. simpl. f_equal. by apply insert_insert_ne.
  - intros st regex ctor1 ctor2. simpl. f_equal. apply insert_insert_eq.
  - intros st pattern1 info1 pattern2 info2 Hne. unfold models.Register.
    destruct (regexp.Compile pattern1), (regexp.Compile pattern2); simpl; try done.
    f_equal. by apply insert_insert_ne.
  - intros st pattern info1 info2. unfold models.Register.
    destruct (regexp.Compile pattern); simpl; [|done]. f_equal. apply insert_insert_eq.
Qed.

(** ** Configuration and options *)

Section options.

Context {any error : Type}.

Implicit Types (config : common.LLMConfig any) (opts : list (common.Option any error)).
Implicit Types (opt : common.Option any error).

Lemma ApplyOptions_app config opts1 opts2 :
  common.ApplyOptions config (opts1 ++ opts2) =
    match common.ApplyOptions config opts1 with
    | (Some err, config') => (Some err, config')
    | (None, config') => common.ApplyOptions config' opts2
    end.
Proof.
  revert config. induction opts1 as [|opt opts1 IH]; intros config; simpl; [done|].
  destruct (opt config) as [[err|] config']; [done|]. apply IH.
Qed.

(** X13.  ApplyOptions runs the options in order and returns the error
    of the first that fails: the options after it are not run, and the
    configuration stays as the failing option left it.  Options that
    succeed compose: applying a list is applying its parts one after the
    other. *)
Theorem ApplyOptions_stops_at_first_error config opts opt err config1 config2 :
  common.ApplyOptions config opts = (None, config1) →
  opt config1 = (Some err, config2) →
  (∀ rest, common.ApplyOptions config (opts ++ opt :: rest) = (Some err, config2)) ∧
  (∀ opts', common.ApplyOptions config (opts ++ opts') = common.ApplyOptions config1 opts').
Proof.
  intros Hopts Hopt. split.
  - intros rest. rewrite ApplyOptions_app, Hopts. simpl. by rewrite Hopt.
  - intros opts'. by rewrite ApplyOptions_app, Hopts.
Qed.

Lemma provided_succeeds opt config : common.provided opt → (opt config).1 = None.
Proof. by destruct 1. Qed.

Lemma ApplyOptions_provided opts : ∀ config,
  Forall common.provided opts → (common.ApplyOptions config opts).1 = None.
Proof.
  induction opts as [|opt opts IH]; intros config Hall; [done|].
  apply Forall_cons in Hall as [Hopt Hall]. simpl.
  pose proof (provided_succeeds opt config Hopt) as Hnone.
  destruct (opt config) as [[err|] config']; [done|]. by apply IH.
Qed.

(** The provided options other than WithAPIKey leave the key as it is. *)
Lemma ApplyOptions_keeps_APIKey opts : ∀ config,
  Forall (λ opt, common.provided opt ∧ ∀ apiKey, opt ≠ common.WithAPIKey apiKey) opts →
  common.APIKey (common.ApplyOptions config opts).2 = common.APIKey config.
Proof.
  induction opts as [|opt opts IH]; intros config Hall; [done|].
  apply Forall_cons in Hall as [[Hopt Hne] Hall]. simpl.
  destruct Hopt; try (simpl; rewrite (IH _ Hall); reflexivity).
  by destruct (Hne apiKey).
Qed.

Lemma ApplyOptions_last_WithAPIKey config before apiKey after config1 :
  common.ApplyOptions config before = (None, config1) →
  Forall (λ opt, common.provided opt ∧ ∀ apiKey', opt ≠ common.WithAPIKey apiKey') after →
  (common.ApplyOptions config (before ++ common.WithAPIKey apiKey :: after)).1 = None ∧
  common.APIKey (common.ApplyOptions config (before ++ common.WithAPIKey apiKey :: after)).2 =
    apiKey.
Proof.
  intros Hbefore Hafter. rewrite ApplyOptions_app, Hbefore. simpl. split.
  - apply ApplyOptions_provided. by eapply Forall_impl; [exact Hafter | intros ? [? _]].
  - by rewrite (ApplyOptions_keeps_APIKey _ _ Hafter).
Qed.

(** X14.  The options the package provides never fail, and the API key
    is that of the last WithAPIKey in the list, or the one the
    configuration had when there is none. *)
Theorem provided_options_never_fail config opts :
  Forall common.provided opts →
  (common.ApplyOptions config opts).1 = None ∧
  (∀ before apiKey after,
     opts = before ++ common.WithAPIKey apiKey :: after →
     (∀ apiKey', common.WithAPIKey apiKey' ∉ after) →
     common.APIKey (common.ApplyOptions config opts).2 = apiKey) ∧
  ((∀ apiKey, common.WithAPIKey apiKey ∉ opts) →
   common.APIKey (common.ApplyOptions config opts).2 = common.APIKey config).
Proof.
  intros Hall. split; [by apply ApplyOptions_provided|].
  assert (∀ l, Forall common.provided l → (∀ apiKey', common.WithAPIKey apiKey' ∉ l) →
            Forall (λ opt, common.provided opt ∧ ∀ apiKey', opt ≠ common.WithAPIKey apiKey') l)
    as Hother.
  { intros l Hl Hnot. apply Forall_forall. intros opt Hin. split.
    - by apply (proj1 (Forall_forall _ _) Hl).
    - intros apiKey' ->. by apply (Hnot apiKey'). }
  split.
  - intros before apiKey after -> Hnot.
    apply Forall_app in Hall as [Hbefore [_ Hafter]%Forall_cons].
    pose proof (ApplyOptions_provided before config Hbefore) as Hnone.
    destruct (common.ApplyOptions config before) as [e config1] eqn:Hb. simpl in Hnone. subst e.
    by apply (ApplyOptions_last_WithAPIKey config before apiKey after config1 Hb), Hother.
  - intros Hnot. by apply ApplyOptions_keeps_APIKey, Hother.
Qed.

Lemma ApplyOptions_custom (kvs : list (string * any)) : ∀ config,
  kvs ≠ [] →
  common.ApplyOptions (error := error) config
    (map (λ kv, common.WithCustomOption kv.1 kv.2) kvs) =
  (None,
   {| common.APIKey := common.APIKey config;
      common.OrgID := common.OrgID config;
      common.EndpointOverride := common.EndpointOverride config;
      common.Timeout := common.Timeout config;
      common.LLMConfig_RetryConfig := common.LLMConfig_RetryConfig config;
      common.LLMConfig_RegionRouting := common.LLMConfig_RegionRouting config;
      common.CustomOptions :=
        Some (list_to_map (reverse kvs) ∪ default ∅ (common.CustomOptions config)) |}).
Proof.
  induction kvs as [|[k v] kvs IH]; intros config Hne; [done|]. simpl.
  destruct kvs as [|kv kvs].
  - simpl. do 3 f_equal. change (reverse [(k, v)]) with [(k, v)]. simpl.
    rewrite <- insert_union_l, (left_id_L ∅ (∪)).
    by destruct (common.CustomOptions config).
  - rewrite IH by done. simpl. do 3 f_equal.
    rewrite (reverse_cons _ (k, v)), list_to_map_app. simpl.
    rewrite <- (assoc_L (∪)). f_equal.
    rewrite <- insert_union_l, (left_id_L ∅ (∪)).
    by destruct (common.CustomOptions config).
Qed.

(** X15.  Custom options accumulate: after a list of WithCustomOption the
    map holds, for each key, the value written last, keeps what it held
    under the other keys, and exists even if it was nil before; every other
    field of the configuration is unchanged. *)
Theorem WithCustomOption_accumulates config (kvs : list (string * any)) :
  kvs ≠ [] →
  let result :=
    common.ApplyOptions (error := error) config
      (map (λ kv, common.WithCustomOption kv.1 kv.2) kvs) in
  result.1 = None ∧
  (∃ options,
     common.CustomOptions result.2 = Some options ∧
     (∀ before key value after,
        kvs = before ++ (key, value) :: after → key ∉ after.*1 →
        options !! key = Some value) ∧
     (∀ key, key ∉ kvs.*1 →
        options !! key = default ∅ (common.CustomOptions config) !! key)) ∧
  common.APIKey result.2 = common.APIKey config ∧
  common.OrgID result.2 = common.OrgID config ∧
  common.EndpointOverride result.2 = common.EndpointOverride config ∧
  common.Timeout result.2 = common.Timeout config ∧
  common.LLMConfig_RetryConfig result.2 = common.LLMConfig_RetryConfig config ∧
  common.LLMConfig_RegionRouting result.2 = common.LLMConfig_RegionRouting config.
Proof.
  intros Hne result. unfold result. rewrite (ApplyOptions_custom kvs config Hne). simpl.
  split; [done|]. split; [|done].
  eexists. split; [done|]. split.
  - intros before key value after -> Hnot.
    rewrite reverse_app, reverse_cons, <- (assoc_L (++)), list_to_map_app.
    apply lookup_union_Some_l, lookup_union_Some_raw. right. split.
    + apply not_elem_of_list_to_map. by rewrite fmap_reverse, elem_of_reverse.
    + simpl. apply lookup_insert_eq.
  - intros key Hnot. rewrite lookup_union_r; [done|].
    apply not_elem_of_list_to_map. by rewrite fmap_reverse, elem_of_reverse.
Qed.

(** X16.  CreateEndpointURL: an endpoint override, when set, is the
    result whatever the region settings; without it the base endpoint is
    returned unless region routing is enabled with a region, in which case
    the first preferred region is appended after a slash.  The failover
    strategy and the regions after the first play no part. *)
Theorem CreateEndpointURL_cases baseEndpoint config :
  (common.EndpointOverride config ≠ EmptyString →
   common.CreateEndpointURL baseEndpoint config = common.EndpointOverride config) ∧
  (common.EndpointOverride config = EmptyString →
   common.EnableRegionRouting (common.LLMConfig_RegionRouting config) = false ∨
   common.PreferredRegions (common.LLMConfig_RegionRouting config) = [] →
   common.CreateEndpointURL baseEndpoint config = baseEndpoint) ∧
  (∀ region regions,
     common.EndpointOverride config = EmptyString →
     common.EnableRegionRouting (common.LLMConfig_RegionRouting config) = true →
     common.PreferredRegions (common.LLMConfig_RegionRouting config) = region :: regions →
     common.CreateEndpointURL baseEndpoint config = baseEndpoint +:+ "/" +:+ region) ∧
  (∀ config',
     common.EndpointOverride config' = common.EndpointOverride config →
     common.EnableRegionRouting (common.LLMConfig_RegionRouting config') =
       common.EnableRegionRouting (common.LLMConfig_RegionRouting config) →
     head (common.PreferredRegions (common.LLMConfig_RegionRouting config')) =
       head (common.PreferredRegions (common.LLMConfig_RegionRouting config)) →
     common.CreateEndpointURL baseEndpoint config' =
       common.CreateEndpointURL baseEndpoint config).
Proof.
  unfold common.CreateEndpointURL. split; [|split; [|split]].
  - intros Hne. apply String.eqb_neq in Hne. by rewrite Hne.
  - intros -> Hoff. simpl.
    destruct (common.EnableRegionRouting _); [|done].
    destruct Hoff as [?| ->]; done.
  - intros region regions -> -> ->. done.
  - intros config' -> -> Hhead.
    destruct (negb _); [done|]. destruct (common.EnableRegionRouting _); [|done].
    destruct (common.PreferredRegions (common.LLMConfig_RegionRouting config')),
             (common.PreferredRegions (common.LLMConfig_RegionRouting config));
      simpl in Hhead; congruence.
Qed.

End options.

(** X17.  For every timeout of at most 9223372036 seconds the HTTP client
    has a positive timeout: the number of seconds given, or 30 seconds when
    it is zero or negative; the client never has the zero timeout that
    would disable it. *)
Theorem NewHTTPClientWithTimeout_is_positive timeoutSec :
  timeoutSec <= 9223372036 →
  http.Timeout (common.NewHTTPClientWithTimeout timeoutSec) =
    (if timeoutSec <=? 0 then 30 else timeoutSec) * time.Second ∧
  0 < http.Timeout (common.NewHTTPClientWithTimeout timeoutSec).
Proof.
  intros Hmax. unfold common.NewHTTPClientWithTimeout, common.DefaultTimeoutSeconds. simpl.
  unfold int_mul, time.Second.
  destruct (Z.leb_spec timeoutSec 0);
    rewrite wrap_in_int by (unfold in_int, min_int, max_int; lia); lia.
Qed.

(** X18.  ShouldRetry is true exactly for the status codes the policy
    lists: 429, 500, 502, 503 and 504 for the default policy, and the codes
    given to WithRetryConfig for a configuration that option wrote. *)
Theorem ShouldRetry_iff_listed statusCode config :
  (common.ShouldRetry statusCode config = true ↔
   statusCode ∈ common.StatusCodesToRetry config) ∧
  (common.ShouldRetry statusCode common.DefaultRetryConfig = true ↔
   statusCode = 429 ∨ statusCode = 500 ∨ statusCode = 502 ∨ statusCode = 503 ∨
   statusCode = 504) ∧
  (∀ (any error : Type) (c : common.LLMConfig any) maxRetries minBackoff maxBackoff statusCodes,
     common.ShouldRetry statusCode
       (common.LLMConfig_RetryConfig
          (common.WithRetryConfig (error := error)
             maxRetries minBackoff maxBackoff statusCodes c).2) = true ↔
     statusCode ∈ statusCodes).
Proof.
  assert (∀ codes, existsb (Z.eqb statusCode) codes = true ↔ statusCode ∈ codes) as Hmem.
  { intros codes. rewrite existsb_exists. split.
    - intros (x & Hin & ->%Z.eqb_eq). by apply list_elem_of_In.
    - intros Hin. exists statusCode. split; [by apply list_elem_of_In | apply Z.eqb_refl]. }
  split; [apply Hmem|]. split.
  - unfold common.ShouldRetry. rewrite Hmem. simpl. unfold common.DefaultRetryStatusCodes.
    rewrite !elem_of_cons, elem_of_nil. tauto.
  - intros any error c maxRetries minBackoff maxBackoff statusCodes. apply Hmem.
Qed.

(** ** The connectors' constructors *)

Section constructors.

Context {any option_error : Type}.

Implicit Types (opts before after : list (common.Option any option_error)).

Lemma ApplyOptions_keeps_EndpointOverride opts : ∀ config : common.LLMConfig any,
  Forall (λ opt, common.provided opt ∧ ∀ endpoint, opt ≠ common.WithEndpoint endpoint) opts →
  common.EndpointOverride (common.ApplyOptions config opts).2 = common.EndpointOverride config.
Proof.
  induction opts as [|opt opts IH]; intros config Hall; [done|].
  apply Forall_cons in Hall as [[Hopt Hne] Hall]. simpl.
  destruct Hopt; try (simpl; rewrite (IH _ Hall); reflexivity).
  by destruct (Hne endpoint).
Qed.

(** X21.  NewMistralClient needs an API key: with provided options none
    of which is WithAPIKey, or whose last WithAPIKey gives the empty
    string, it returns the API-key error; when the last WithAPIKey gives a
    key that is not empty it returns a client for the model name with that
    key; and an option that fails makes it return that option's error. *)
Theorem NewMistralClient_requires_an_API_key model :
  (∀ opts,
     Forall (λ opt, common.provided opt ∧ ∀ apiKey, opt ≠ common.WithAPIKey apiKey) opts →
     mistral.NewMistralClient model opts = Err mistral.ErrAPIKeyRequired) ∧
  (∀ before apiKey after config1,
     common.ApplyOptions common.DefaultLLMConfig before = (None, config1) →
     Forall (λ opt, common.provided opt ∧ ∀ apiKey', opt ≠ common.WithAPIKey apiKey') after →
     (apiKey = EmptyString →
      mistral.NewMistralClient model (before ++ common.WithAPIKey apiKey :: after) =
        Err mistral.ErrAPIKeyRequired) ∧
     (apiKey ≠ EmptyString →
      ∃ config,
        mistral.NewMistralClient model (before ++ common.WithAPIKey apiKey :: after) =
          Ok (config, {| mistral.modelName := model |}) ∧
        common.APIKey config = apiKey)) ∧
  (∀ opts err config,
     common.ApplyOptions common.DefaultLLMConfig opts = (Some err, config) →
     mistral.NewMistralClient model opts = Err (mistral.ErrApplyingOptions err)).
Proof.
  split; [|split].
  - intros opts Hall. unfold mistral.NewMistralClient.
    pose proof (ApplyOptions_provided opts common.DefaultLLMConfig
                  ltac:(by eapply Forall_impl; [exact Hall | intros ? [? _]])) as Hnone.
    pose proof (ApplyOptions_keeps_APIKey opts common.DefaultLLMConfig Hall) as Hkey.
    destruct (common.ApplyOptions common.DefaultLLMConfig opts) as [[err|] config];
      simpl in *; [done|].
    by rewrite Hkey.
  - intros before apiKey after config1 Hbefore Hafter.
    destruct (ApplyOptions_last_WithAPIKey common.DefaultLLMConfig before apiKey after config1
                Hbefore Hafter) as [Hnone Hkey].
    unfold mistral.NewMistralClient.
    destruct (common.ApplyOptions common.DefaultLLMConfig
                (before ++ common.WithAPIKey apiKey :: after)) as [[err|] config];
      simpl in *; [done|].
    rewrite Hkey. split.
    + by intros ->.
    + intros Hne. apply String.eqb_neq in Hne. rewrite Hne. by exists config.
  - intros opts err config Hopts. unfold mistral.NewMistralClient. by rewrite Hopts.
Qed.

End constructors.

Section endpoint.

Context {any option_error : Type}.

Implicit Types (opts before after : list (common.Option any option_error)).

Lemma ApplyOptions_last_WithEndpoint (config : common.LLMConfig any)
    before endpoint after config1 :
  common.ApplyOptions config before = (None, config1) →
  Forall (λ opt, common.provided opt ∧ ∀ endpoint', opt ≠ common.WithEndpoint endpoint') after →
  (common.ApplyOptions config (before ++ common.WithEndpoint endpoint :: after)).1 = None ∧
  common.EndpointOverride
    (common.ApplyOptions config (before ++ common.WithEndpoint endpoint :: after)).2 = endpoint.
Proof.
  intros Hbefore Hafter. rewrite ApplyOptions_app, Hbefore. simpl. split.
  - apply ApplyOptions_provided. by eapply Forall_impl; [exact Hafter | intros ? [? _]].
  - by rewrite (ApplyOptions_keeps_EndpointOverride _ _ Hafter).
Qed.

(** X22.  A client of the llama or the custom connector always has an
    endpoint.  NewLlamaClient never fails on provided options and falls
    back to the local default endpoint when none is set; NewCustomClient
    refuses to build a client without one; when the last WithEndpoint gives
    a non-empty endpoint both build a client with that endpoint. *)
Theorem clients_have_an_endpoint model :
  (∀ opts c, llama.NewLlamaClient model opts = Ok c →
     common.EndpointOverride (llama.config c) ≠ EmptyString ∧ llama.modelName c = model) ∧
  (∀ opts, Forall common.provided opts → ∃ c, llama.NewLlamaClient model opts = Ok c) ∧
  (∀ opts,
     Forall (λ opt, common.provided opt ∧ ∀ endpoint, opt ≠ common.WithEndpoint endpoint) opts →
     (∃ c, llama.NewLlamaClient model opts = Ok c ∧
           common.EndpointOverride (llama.config c) = llama.defaultLlamaEndpoint) ∧
     custom.NewCustomClient model opts = Err custom.ErrEndpointRequired) ∧
  (∀ opts c, custom.NewCustomClient model opts = Ok c →
     common.EndpointOverride (custom.config c) ≠ EmptyString ∧ custom.modelName c = model) ∧
  (∀ before endpoint after config1,
     common.ApplyOptions common.DefaultLLMConfig before = (None, config1) →
     Forall (λ opt, common.provided opt ∧ ∀ endpoint', opt ≠ common.WithEndpoint endpoint')
            after →
     endpoint ≠ EmptyString →
     (∃ c, llama.NewLlamaClient model (before ++ common.WithEndpoint endpoint :: after) = Ok c ∧
           common.EndpointOverride (llama.config c) = endpoint) ∧
     (∃ c, custom.NewCustomClient model (before ++ common.WithEndpoint endpoint :: after) = Ok c ∧
           common.EndpointOverride (custom.config c) = endpoint)).
Proof.
  split; [|split; [|split; [|split]]].
  - intros opts c. unfold llama.NewLlamaClient.
    destruct (common.ApplyOptions common.DefaultLLMConfig opts) as [[err|] config]; [done|].
    intros [= <-]. simpl. split; [|done].
    destruct (String.eqb_spec (common.EndpointOverride config) EmptyString); done.
  - intros opts Hall. unfold llama.NewLlamaClient.
    pose proof (ApplyOptions_provided opts common.DefaultLLMConfig Hall) as Hnone.
    destruct (common.ApplyOptions common.DefaultLLMConfig opts) as [[err|] config];
      simpl in *; [done|]. by eexists.
  - intros opts Hall.
    pose proof (ApplyOptions_provided opts common.DefaultLLMConfig
                  ltac:(by eapply Forall_impl; [exact Hall | intros ? [? _]])) as Hnone.
    pose proof (ApplyOptions_keeps_EndpointOverride opts common.DefaultLLMConfig Hall) as Hend.
    unfold llama.NewLlamaClient, custom.NewCustomClient.
    destruct (common.ApplyOptions common.DefaultLLMConfig opts) as [[err|] config];
      simpl in *; [done|].
    rewrite Hend. simpl. split; [|done]. by eexists.
  - intros opts c. unfold custom.NewCustomClient.
    destruct (common.ApplyOptions common.DefaultLLMConfig opts) as [[err|] config]; [done|].
    destruct (String.eqb_spec (common.EndpointOverride config) EmptyString); [done|].
    by intros [= <-].
  - intros before endpoint after config1 Hbefore Hafter Hne.
    destruct (ApplyOptions_last_WithEndpoint common.DefaultLLMConfig before endpoint after
                config1 Hbefore Hafter) as [Hnone Hend].
    unfold llama.NewLlamaClient, custom.NewCustomClient.
    destruct (common.ApplyOptions common.DefaultLLMConfig
                (before ++ common.WithEndpoint endpoint :: after)) as [[err|] config];
      simpl in *; [done|].
    rewrite Hend. apply String.eqb_neq in Hne. rewrite Hne. split; by eexists.
Qed.

End endpoint.

(** ** More about the Mistral connector *)

Section mistral_calls.

Context {any BaseTool : Type}.

Implicit Types (c : mistral.MistralClient) (ctx : nat → option context.error).
Implicit Types (request : models.LLMRequest any BaseTool).
Implicit Types (requests : list (models.LLMRequest any BaseTool)).
Implicit Types (responses : list (option (models.LLMResponse any))).

Lemma Validate_None request :
  models.Validate request = None ↔
  models.Model request ≠ EmptyString ∧ models.Contents request ≠ [].
Proof.
  unfold models.Validate.
  destruct (String.eqb_spec (models.Model request) EmptyString) as [->|Hne].
  - split; [done | by intros [? _]].
  - destruct (models.Contents request); simpl; split; try done. by intros [_ ?].
Qed.

Lemma Call_Ok c request :
  models.Validate request = None →
  mistral.Call c None request = Ok (models.CreateLLMResponse (mistral.mockResponse (any := any) c)).
Proof. intros Hv. unfold mistral.Call. by rewrite Hv. Qed.

(** X23.  The outcomes of the Mistral connector's Call: a context that has
    ended gives the context's error whatever the request; then a request
    without a model name, and then one without contents, gives the
    validation error; otherwise the response is the normalisation of the
    mock provider response: not an error, 130 tokens in total, and a
    message that names the client's model. *)
Theorem Call_outcomes c ctx_Err request :
  (∀ err, ctx_Err = Some err → mistral.Call c ctx_Err request = Err (mistral.ErrContext err)) ∧
  (ctx_Err = None → models.Model request = EmptyString →
   mistral.Call c ctx_Err request = Err (mistral.ErrInvalidRequest models.ErrModelRequired)) ∧
  (ctx_Err = None → models.Model request ≠ EmptyString → models.Contents request = [] →
   mistral.Call c ctx_Err request = Err (mistral.ErrInvalidRequest models.ErrNoContents)) ∧
  (ctx_Err = None → models.Model request ≠ EmptyString → models.Contents request ≠ [] →
   mistral.Call c ctx_Err request = Ok (models.CreateLLMResponse (mistral.mockResponse (any := any) c)) ∧
   models.IsError (models.CreateLLMResponse (mistral.mockResponse (any := any) c)) = false ∧
   models.TotalTokens (models.Usage (models.CreateLLMResponse (mistral.mockResponse (any := any) c))) = 130 ∧
   ∃ content,
     models.LLMResponse_Content (models.CreateLLMResponse (mistral.mockResponse (any := any) c)) =
       Some content ∧
     models.Message content = "This is a mock response from " +:+ mistral.modelName c).
Proof.
  split; [|split; [|split]].
  - by intros err ->.
  - intros -> Hm. unfold mistral.Call, models.Validate. by rewrite Hm.
  - intros -> Hm Hc. unfold mistral.Call, models.Validate.
    apply String.eqb_neq in Hm. by rewrite Hm, Hc.
  - intros -> Hm Hc. split; [by apply Call_Ok, Validate_None|].
    split; [done|]. split; [done|]. by eexists.
Qed.

Lemma BatchCall_from_all c ctx r : ∀ requests k responses,
  (∀ j request, requests !! j = Some request →
     mistral.Call c (ctx (k + j)%nat) request = Ok r) →
  length responses = (k + length requests)%nat →
  mistral.BatchCall_from c ctx k requests responses =
    (take k responses ++ replicate (length requests) (Some r), None).
Proof.
  induction requests as [|request requests IH]; intros k responses Hall Hlen; simpl in *.
  - rewrite app_nil_r, take_ge by lia. done.
  - pose proof (Hall 0%nat request eq_refl) as Hr. rewrite Nat.add_0_r in Hr. rewrite Hr.
    rewrite IH.
    + f_equal. rewrite (take_S_r _ _ (Some r)).
      * rewrite take_insert_ge by lia. by rewrite <- app_assoc.
      * apply list_lookup_insert_eq. lia.
    + intros j req Hj. replace (S k + j)%nat with (k + S j)%nat by lia. by apply Hall.
    + rewrite length_insert. lia.
Qed.

(** X24.  When the context stays live and every request is valid,
    BatchCall returns no error and a slice as long as the batch whose
    every element is the response of Call. *)
Theorem BatchCall_returns_every_response c ctx requests :
  (∀ j, (j < length requests)%nat → ctx j = None) →
  Forall (λ request, models.Validate request = None) requests →
  mistral.BatchCall c ctx requests =
    (replicate (length requests)
       (Some (models.CreateLLMResponse (mistral.mockResponse (any := any) c))), None).
Proof.
  intros Hctx Hvalid. unfold mistral.BatchCall.
  rewrite (BatchCall_from_all c ctx (models.CreateLLMResponse (mistral.mockResponse (any := any) c))).
  - done.
  - intros j request Hj. simpl. rewrite Hctx by (by eapply lookup_lt_Some).
    apply Call_Ok. by apply (proj1 (Forall_lookup _ _) Hvalid j).
  - by rewrite length_replicate.
Qed.

End mistral_calls.

(** ** From the registry to a client *)

Section end_to_end.

Context `{regexp.Engine} {any option_error : Type}.

Local Abbreviation LLM := (common.LLMConfig any * mistral.MistralClient)%type.
Local Abbreviation constructorFn :=
  (string → list (common.Option any option_error) → result LLM (mistral.constructor_error option_error)).

Implicit Types (order : list (string * constructorFn)).
Implicit Types (opts : list (common.Option any option_error)).

(** X25.  From the registry to the client: after the Mistral connector's
    init on the empty registry, NewLLM for a model that mistral-.* matches
    returns what NewMistralClient returns for that model and those options,
    with WithAPIKey of a non-empty key a client for the model name whose
    configuration has the key and the default timeout and retry policy;
    for a model the pattern does not match it returns the no-constructor
    error. *)
Theorem NewLLM_builds_the_Mistral_client order model :
  connectors.visits (connectors.registry (mistral.init connectors.init)) order →
  (regexp.MatchString "mistral-.*" model = Ok true →
   (∀ opts,
      (connectors.NewLLM order model opts (mistral.init connectors.init)).1 =
        match mistral.NewMistralClient model opts with
        | Ok llm => Ok llm
        | Err err => Err (connectors.ErrConstructor err)
        end) ∧
   (∀ apiKey, apiKey ≠ EmptyString →
      ∃ config,
        (connectors.NewLLM order model [common.WithAPIKey apiKey]
           (mistral.init connectors.init)).1 =
          Ok (config, {| mistral.modelName := model |}) ∧
        common.APIKey config = apiKey ∧
        common.Timeout config = common.DefaultTimeoutSeconds ∧
        common.LLMConfig_RetryConfig config = common.DefaultRetryConfig)) ∧
  (regexp.MatchString "mistral-.*" model = Ok false →
   ∀ opts,
     (connectors.NewLLM order model opts (mistral.init connectors.init)).1 =
       Err (connectors.ErrResolve (connectors.ErrNoConstructor model))).
Proof.
  unfold connectors.visits. simpl.
  rewrite insert_empty, map_to_list_singleton. intros ->%Permutation_singleton_r.
  split.
  - intros Hm.
    assert (∀ opts,
      (connectors.NewLLM [("mistral-.*", mistral.NewMistralClient)] model opts
         (mistral.init connectors.init)).1 =
        match mistral.NewMistralClient model opts with
        | Ok llm => Ok llm
        | Err err => Err (connectors.ErrConstructor err)
        end) as Hrun.
    { intros opts. unfold connectors.NewLLM, connectors.Resolve. simpl.
      rewrite lookup_empty, Hm. by destruct (mistral.NewMistralClient model opts). }
    split; [exact Hrun|].
    intros apiKey Hne. rewrite Hrun. unfold mistral.NewMistralClient. simpl.
    apply String.eqb_neq in Hne. rewrite Hne. by eexists.
  - intros Hm opts. unfold connectors.NewLLM, connectors.Resolve. simpl.
    by rewrite lookup_empty, Hm.
Qed.

End end_to_end.

Section connectors_on_fixtures.

#[local] Existing Instance re2.engine.

(** The hypotheses of X10 at the registry of the tests of package
    connectors. *)
Lemma connectors_Resolve_returns_matching_constructor_witness :
  ∃ regex, connectors.registry fixtures.connectors_test !! regex =
             Some fixtures.mockConstructor ∧
           regexp.MatchString regex "test-model" = Ok true.
Proof.
  destruct (connectors_Resolve_returns_matching_constructor fixtures.connectors_test
              [("test-.*", fixtures.mockConstructor)] "test-model") as (Hok & _).
  - apply connectors.reachable_Register, connectors.reachable_init.
  - apply visits_of_list_to_map; [|reflexivity].
    apply (bool_decide_unpack _). reflexivity.
  - destruct (Hok fixtures.mockConstructor _ eq_refl) as [Hmatch _]. exact Hmatch.
Defined.

(** The hypotheses of X11 at the registry the Mistral connector sets up. *)
Lemma NewLLM_calls_resolved_constructor_witness :
  (connectors.NewLLM [("mistral-.*", mistral.NewMistralClient)] "mistral-large"
     [common.WithAPIKey (any := string) (error := fixtures.option_error) "key"]
     (mistral.init connectors.init)).2 =
  (connectors.Resolve [("mistral-.*", mistral.NewMistralClient)] "mistral-large"
     (mistral.init connectors.init)).2.
Proof.
  destruct (NewLLM_calls_resolved_constructor (mistral.init connectors.init)
              [("mistral-.*", mistral.NewMistralClient)] "mistral-large"
              [common.WithAPIKey (any := string) (error := fixtures.option_error) "key"])
    as (Hst & _).
  - apply connectors.reachable_Register, connectors.reachable_init.
  - unfold connectors.visits. simpl. rewrite insert_empty, map_to_list_singleton. reflexivity.
  - exact Hst.
Defined.

(** The hypotheses of X25 at the model mistral-large. *)
Lemma NewLLM_builds_the_Mistral_client_witness :
  ∃ config,
    (connectors.NewLLM [("mistral-.*", mistral.NewMistralClient)] "mistral-large"
       [common.WithAPIKey (any := string) (error := fixtures.option_error) "key"]
       (mistral.init connectors.init)).1 =
      Ok (config, {| mistral.modelName := "mistral-large" |}) ∧
    common.APIKey config = "key" ∧
    common.Timeout config = common.DefaultTimeoutSeconds ∧
    common.LLMConfig_RetryConfig config = common.DefaultRetryConfig.
Proof.
  destruct (NewLLM_builds_the_Mistral_client (any := string)
              (option_error := fixtures.option_error)
              [("mistral-.*", mistral.NewMistralClient)] "mistral-large") as [Hmatch _].
  - unfold connectors.visits. simpl. rewrite insert_empty, map_to_list_singleton. reflexivity.
  - destruct (Hmatch eq_refl) as [_ Hkey]. apply Hkey. discriminate.
Defined.

End connectors_on_fixtures.

Section options_on_fixtures.

(** The hypotheses of X13 at an option that refuses, between two that
    succeed. *)
Lemma ApplyOptions_stops_at_first_error_witness :
  common.ApplyOptions common.DefaultLLMConfig
    ([common.WithTimeout 10] ++ fixtures.refusing :: [common.WithAPIKey "key"]) =
  (Some fixtures.ErrRefused,
   (common.WithTimeout (error := fixtures.option_error) 10 common.DefaultLLMConfig).2).
Proof.
  destruct (ApplyOptions_stops_at_first_error common.DefaultLLMConfig [common.WithTimeout 10]
              fixtures.refusing fixtures.ErrRefused
              (common.WithTimeout (error := fixtures.option_error) 10
                 common.DefaultLLMConfig).2
              (common.WithTimeout (error := fixtures.option_error) 10
                 common.DefaultLLMConfig).2) as [Hstop _].
  - reflexivity.
  - reflexivity.
  - exact (Hstop [common.WithAPIKey "key"]).
Defined.

(** The hypotheses of X14 at a list with two API keys. *)
Lemma provided_options_never_fail_witness :
  common.APIKey
    (common.ApplyOptions (any := string) (error := fixtures.option_error)
       common.DefaultLLMConfig
       [common.WithAPIKey "first"; common.WithTimeout 5; common.WithAPIKey "second";
        common.WithOrgID "org"]).2 = "second".
Proof.
  destruct (provided_options_never_fail (any := string) (error := fixtures.option_error)
              common.DefaultLLMConfig
              [common.WithAPIKey "first"; common.WithTimeout 5; common.WithAPIKey "second";
               common.WithOrgID "org"]) as (_ & Hlast & _).
  - repeat constructor.
  - apply (Hlast [common.WithAPIKey "first"; common.WithTimeout 5] "second"
             [common.WithOrgID "org"]); [reflexivity|].
    intros apiKey' [Heq|Hin]%elem_of_cons; [|by apply elem_of_nil in Hin].
    apply (f_equal (λ opt, common.OrgID (opt common.DefaultLLMConfig).2)) in Heq.
    discriminate Heq.
Defined.

(** The hypotheses of X15 at three custom options, two for the same key. *)
Lemma WithCustomOption_accumulates_witness :
  ∃ options,
    common.CustomOptions
      (common.ApplyOptions (error := fixtures.option_error) common.DefaultLLMConfig
         (map (λ kv, common.WithCustomOption kv.1 kv.2)
              [("region", "eu"); ("tier", "gold"); ("region", "us")])).2 = Some options ∧
    options !! "region" = Some "us".
Proof.
  destruct (WithCustomOption_accumulates (error := fixtures.option_error)
              common.DefaultLLMConfig [("region", "eu"); ("tier", "gold"); ("region", "us")])
    as (_ & (options & Hopts & Hlast & _) & _).
  - discriminate.
  - exists options. split; [exact Hopts|].
    apply (Hlast [("region", "eu"); ("tier", "gold")] "region" "us" []); [reflexivity|].
    apply not_elem_of_nil.
Defined.

(** The hypotheses of X17 at a negative number of seconds. *)
Lemma NewHTTPClientWithTimeout_is_positive_witness :
  http.Timeout (common.NewHTTPClientWithTimeout (-5)) = 30 * time.Second ∧
  0 < http.Timeout (common.NewHTTPClientWithTimeout (-5)).
Proof. apply (NewHTTPClientWithTimeout_is_positive (-5)). lia. Defined.

End options_on_fixtures.

(** ** The request builders *)

Lemma append_assoc (s1 s2 s3 : string) : (s1 +:+ s2) +:+ s3 = s1 +:+ (s2 +:+ s3).
Proof.
  induction s1 as [|c s1 IH]; [done|].
  change (String c ((s1 +:+ s2) +:+ s3) = String c (s1 +:+ (s2 +:+ s3))). by f_equal.
Qed.

Lemma append_nil_r (s : string) : s +:+ EmptyString = s.
Proof.
  induction s as [|c s IH]; [done|].
  change (String c (s +:+ EmptyString) = String c s). by f_equal.
Qed.

Lemma append_eq_nil (s1 s2 : string) :
  s1 +:+ s2 = EmptyString → s1 = EmptyString ∧ s2 = EmptyString.
Proof. by destruct s1. Qed.

Lemma concat_cons sep x (l : list string) :
  l ≠ [] → String.concat sep (x :: l) = x +:+ sep +:+ String.concat sep l.
Proof. by destruct l. Qed.

Lemma concat_app sep (l1 l2 : list string) :
  l1 ≠ [] → l2 ≠ [] →
  String.concat sep (l1 ++ l2) = String.concat sep l1 +:+ sep +:+ String.concat sep l2.
Proof.
  intros H1 H2. induction l1 as [|x l1 IH]; [done|].
  destruct l1 as [|y l1].
  - simpl. by destruct l2.
  - change ((x :: y :: l1) ++ l2) with (x :: ((y :: l1) ++ l2)).
    rewrite concat_cons by done. rewrite IH by done.
    rewrite (concat_cons sep x (y :: l1)) by done.
    by rewrite !append_assoc.
Qed.

Section builders.

Context {any BaseTool : Type}.

Implicit Types (r : models.LLMRequest any BaseTool).
Implicit Types (instructions first second : list string).

Lemma join_from_S instructions : ∀ i joined,
  models.join_from (S i) instructions joined =
    joined +:+ match instructions with
               | [] => EmptyString
               | _ :: _ => models.blank_line +:+ String.concat models.blank_line instructions
               end.
Proof.
  induction instructions as [|x l IH]; intros i joined.
  - simpl. by rewrite append_nil_r.
  - cbn [models.join_from]. change (0 <? S i)%nat with true. cbv iota.
    rewrite IH. destruct l as [|y l].
    + by rewrite append_nil_r, append_assoc.
    + rewrite (concat_cons _ x (y :: l)) by done. by rewrite !append_assoc.
Qed.

Lemma join_from_0 instructions :
  models.join_from 0 instructions EmptyString = String.concat models.blank_line instructions.
Proof.
  destruct instructions as [|x l]; [done|].
  cbn [models.join_from]. change (0 <? 0)%nat with false. cbv iota.
  rewrite join_from_S. destruct l as [|y l]; [by rewrite append_nil_r|].
  by rewrite (concat_cons _ x (y :: l)) by done.
Qed.

Lemma AppendInstructions_system r instructions :
  models.SystemInstruction (models.config_or_zero (models.AppendInstructions r instructions)) =
    if String.eqb (models.SystemInstruction (models.config_or_zero r)) EmptyString
    then String.concat models.blank_line instructions
    else models.SystemInstruction (models.config_or_zero r) +:+ models.blank_line +:+
         String.concat models.blank_line instructions.
Proof.
  unfold models.AppendInstructions. simpl. rewrite join_from_0.
  by destruct (String.eqb _ _).
Qed.

(** X26.  AppendInstructions joins the instructions with blank lines and
    appends them, after a blank line, to a system instruction that is not
    empty.  Two calls in a row are one call with both lists, provided both
    lists are non-empty and the text after the first call is not empty.
    A call without instructions is not neutral: it appends a blank line
    to a system instruction that is not empty. *)
Theorem AppendInstructions_joins_with_blank_lines r :
  (∀ instructions,
     models.SystemInstruction
       (models.config_or_zero (models.AppendInstructions r instructions)) =
       if String.eqb (models.SystemInstruction (models.config_or_zero r)) EmptyString
       then String.concat models.blank_line instructions
       else models.SystemInstruction (models.config_or_zero r) +:+ models.blank_line +:+
            String.concat models.blank_line instructions) ∧
  (∀ first second,
     first ≠ [] → second ≠ [] →
     models.SystemInstruction (models.config_or_zero r) ≠ EmptyString ∨
       String.concat models.blank_line first ≠ EmptyString →
     models.AppendInstructions (models.AppendInstructions r first) second =
       models.AppendInstructions r (first ++ second)) ∧
  (models.SystemInstruction (models.config_or_zero r) ≠ EmptyString →
   models.SystemInstruction (models.config_or_zero (models.AppendInstructions r [])) =
     models.SystemInstruction (models.config_or_zero r) +:+ models.blank_line).
Proof.
  split; [apply AppendInstructions_system|]. split.
  - intros first second H1 H2 Hne.
    pose proof (AppendInstructions_system r first) as Hsys.
    unfold models.AppendInstructions at 1 3.
    rewrite Hsys. rewrite !join_from_0.
    f_equal. f_equal. simpl.
    f_equal. rewrite (concat_app _ first second) by done.
    destruct (String.eqb_spec (models.SystemInstruction (models.config_or_zero r)) EmptyString)
      as [Heq|Hsi].
    + destruct Hne as [Hne|Hne]; [done|].
      apply String.eqb_neq in Hne. rewrite Hne. simpl. reflexivity.
    + assert (models.SystemInstruction (models.config_or_zero r) +:+ models.blank_line +:+
                String.concat models.blank_line first ≠ EmptyString) as Hne'.
      { intros [? _]%append_eq_nil. done. }
      apply String.eqb_neq in Hne'. rewrite Hne'. simpl.
      by rewrite !append_assoc.
  - intros Hne. rewrite AppendInstructions_system.
    apply String.eqb_neq in Hne. rewrite Hne. simpl. by rewrite append_nil_r.
Qed.

End builders.

Section tools.

Context {any BaseTool tool_error : Type} `{!models.Tool BaseTool tool_error}.

Implicit Types (r : models.LLMRequest any BaseTool).
Implicit Types (tools good rest : list BaseTool) (decls : list string).
Implicit Types (dict : gmap string BaseTool).

(** The dictionary after the tools [tools] have been written to it. *)
Local Abbreviation written tools dict :=
  (list_to_map (reverse ((λ tool, (models.Name tool, tool)) <$> tools)) ∪ dict).

Lemma written_cons tool tools dict :
  written (tool :: tools) dict = written tools (<[models.Name tool := tool]> dict).
Proof.
  rewrite fmap_cons, reverse_cons, list_to_map_app. simpl.
  rewrite <- (assoc_L (∪)). f_equal.
  by rewrite <- insert_union_l, (left_id_L ∅ (∪)).
Qed.

Lemma written_last before tool after dict :
  models.Name tool ∉ models.Name <$> after →
  written (before ++ tool :: after) dict !! models.Name tool = Some tool.
Proof.
  intros Hnot. rewrite fmap_app, fmap_cons, reverse_app, reverse_cons, <- (assoc_L (++)).
  rewrite list_to_map_app.
  apply lookup_union_Some_l, lookup_union_Some_raw. right. split.
  - apply not_elem_of_list_to_map. rewrite fmap_reverse, elem_of_reverse.
    by rewrite <- list_fmap_compose.
  - simpl. apply lookup_insert_eq.
Qed.

Lemma written_other tools dict name :
  name ∉ models.Name <$> tools → written tools dict !! name = dict !! name.
Proof.
  intros Hnot. rewrite lookup_union_r; [done|].
  apply not_elem_of_list_to_map. rewrite fmap_reverse, elem_of_reverse.
  by rewrite <- list_fmap_compose.
Qed.

Lemma AppendTools_range_Ok tools : ∀ declarations decls dict,
  Forall2 (λ tool declaration, models.Declaration tool = Ok declaration) tools declarations →
  models.AppendTools_range tools decls dict = (Ok (decls ++ declarations), written tools dict).
Proof.
  induction tools as [|tool tools IH]; intros declarations decls dict Hall.
  - apply Forall2_nil_inv_l in Hall as ->. simpl.
    rewrite app_nil_r. f_equal. symmetry. apply (left_id_L ∅ (∪)).
  - apply Forall2_cons_inv_l in Hall as (d & ds & Hd & Hall & ->).
    cbn [models.AppendTools_range]. rewrite Hd. rewrite (IH ds) by done.
    by rewrite <- app_assoc, written_cons.
Qed.

Lemma AppendTools_range_Err good : ∀ declarations bad err rest decls dict,
  Forall2 (λ tool declaration, models.Declaration tool = Ok declaration) good declarations →
  models.Declaration bad = Err err →
  models.AppendTools_range (good ++ bad :: rest) decls dict =
    (Err (models.ErrGettingDeclaration (models.Name bad) err), written good dict).
Proof.
  induction good as [|tool good IH]; intros declarations bad err rest decls dict Hall Hbad.
  - simpl. rewrite Hbad. f_equal. symmetry. apply (left_id_L ∅ (∪)).
  - apply Forall2_cons_inv_l in Hall as (d & ds & Hd & Hall & ->).
    rewrite <- app_comm_cons. cbn [models.AppendTools_range]. rewrite Hd.
    rewrite (IH ds _ _ _ _ _ Hall Hbad).
    by rewrite written_cons.
Qed.

(** X27.  When every tool's Declaration succeeds, AppendTools of a
    non-empty list returns nil, adds exactly one ToolDeclaration, holding
    the declarations in the order of the tools, after those the
    configuration had, and records each tool under its name, the last of
    the tools with a name winning; other names, the instructions, the
    schema and the validity of the request are unchanged. *)
Theorem AppendTools_attaches_one_declaration r tools declarations :
  tools ≠ [] →
  Forall2 (λ tool declaration, models.Declaration tool = Ok declaration) tools declarations →
  let r' := (models.AppendTools r tools).2 in
  (models.AppendTools r tools).1 = None ∧
  models.Tools (models.config_or_zero r') =
    models.Tools (models.config_or_zero r) ++
    [ {| models.FunctionDeclarations := declarations |} ] ∧
  models.Config r' ≠ None ∧
  (∀ before tool after,
     tools = before ++ tool :: after → models.Name tool ∉ models.Name <$> after →
     models.ToolsDict r' !! models.Name tool = Some tool) ∧
  (∀ name, name ∉ models.Name <$> tools →
     models.ToolsDict r' !! name = models.ToolsDict r !! name) ∧
  models.SystemInstruction (models.config_or_zero r') =
    models.SystemInstruction (models.config_or_zero r) ∧
  models.ResponseSchema (models.config_or_zero r') =
    models.ResponseSchema (models.config_or_zero r) ∧
  models.Validate r' = models.Validate r.
Proof.
  intros Hne Hall.
  assert (models.AppendTools r tools =
    (None,
     {| models.Model := models.Model r;
        models.Contents := models.Contents r;
        models.Config :=
          Some {| models.SystemInstruction :=
                    models.SystemInstruction (models.config_or_zero r);
                  models.Tools :=
                    models.Tools (models.config_or_zero r) ++
                    [ {| models.FunctionDeclarations := declarations |} ];
                  models.ResponseSchema := models.ResponseSchema (models.config_or_zero r);
                  models.ResponseMimeType := models.ResponseMimeType (models.config_or_zero r);
                  models.Temperature := models.Temperature (models.config_or_zero r);
                  models.TopP := models.TopP (models.config_or_zero r);
                  models.Config_MaxTokens := models.Config_MaxTokens (models.config_or_zero r);
                  models.StopSequences := models.StopSequences (models.config_or_zero r) |};
        models.LiveConnect := models.LiveConnect r;
        models.ToolsDict := written tools (models.ToolsDict r) |})) as Hrun.
  { unfold models.AppendTools.
    rewrite (AppendTools_range_Ok _ _ _ _ Hall). by destruct tools. }
  rewrite Hrun. simpl.
  split; [done|]. split; [done|]. split; [done|]. split; [|split; [|done]].
  - intros before t after -> Hnot. by apply written_last.
  - intros name Hnot. by apply written_other.
Qed.

(** X28.  AppendTools is not atomic: when the Declaration of a tool fails
    it returns the error naming that tool, no declaration is attached, but
    the configuration has been created and the tools before the failing one
    stay recorded in the dictionary; the tools after it are not looked at. *)
Theorem AppendTools_fails_half_way r good declarations bad err rest :
  Forall2 (λ tool declaration, models.Declaration tool = Ok declaration) good declarations →
  models.Declaration bad = Err err →
  let r' := (models.AppendTools r (good ++ bad :: rest)).2 in
  (models.AppendTools r (good ++ bad :: rest)).1 =
    Some (models.ErrGettingDeclaration (models.Name bad) err) ∧
  models.Config r' = Some (models.config_or_zero r) ∧
  (∀ before tool after,
     good = before ++ tool :: after → models.Name tool ∉ models.Name <$> after →
     models.ToolsDict r' !! models.Name tool = Some tool) ∧
  (∀ name, name ∉ models.Name <$> good →
     models.ToolsDict r' !! name = models.ToolsDict r !! name) ∧
  (∀ rest', models.AppendTools r (good ++ bad :: rest') =
            models.AppendTools r (good ++ bad :: rest)).
Proof.
  intros Hall Hbad.
  assert (∀ rest0, models.AppendTools r (good ++ bad :: rest0) =
    (Some (models.ErrGettingDeclaration (models.Name bad) err),
     {| models.Model := models.Model r;
        models.Contents := models.Contents r;
        models.Config := Some (models.config_or_zero r);
        models.LiveConnect := models.LiveConnect r;
        models.ToolsDict := written good (models.ToolsDict r) |})) as Hrun.
  { intros rest0. unfold models.AppendTools.
    rewrite (AppendTools_range_Err _ _ _ _ _ _ _ Hall Hbad).
    by destruct good. }
  rewrite Hrun. simpl. split; [done|]. split; [done|]. split; [|split].
  - intros before t after -> Hnot. by apply written_last.
  - intros name Hnot. by apply written_other.
  - intros rest'. by rewrite Hrun.
Qed.

End tools.

Section schema.

Context {any BaseTool : Type}.

Implicit Types (r : models.LLMRequest any BaseTool).

(** SetOutputSchema sets the schema and the mime type
    application/json and nothing else: the last schema set wins, the call
    commutes with AppendInstructions, and neither changes the instructions
    of the other, the tools or the validity of the request. *)
Theorem SetOutputSchema_last_schema_wins r (schema schema' : option any) instructions :
  models.ResponseSchema (models.config_or_zero (models.SetOutputSchema r schema)) = schema ∧
  models.ResponseMimeType (models.config_or_zero (models.SetOutputSchema r schema)) =
    "application/json" ∧
  models.SetOutputSchema (models.SetOutputSchema r schema') schema =
    models.SetOutputSchema r schema ∧
  models.AppendInstructions (models.SetOutputSchema r schema) instructions =
    models.SetOutputSchema (models.AppendInstructions r instructions) schema ∧
  models.SystemInstruction (models.config_or_zero (models.SetOutputSchema r schema)) =
    models.SystemInstruction (models.config_or_zero r) ∧
  models.Tools (models.config_or_zero (models.SetOutputSchema r schema)) =
    models.Tools (models.config_or_zero r) ∧
  models.Validate (models.SetOutputSchema r schema) = models.Validate r ∧
  models.Validate (models.AppendInstructions r instructions) = models.Validate r.
Proof. done. Qed.

End schema.

(** ** More about the response normaliser *)

Section responses.

Context {any : Type}.

Implicit Types (resp : models.GenerateContentResponse any).

(** X30.  A normalised response is either content or an error, never
    both and never neither: IsError holds exactly when the content is nil.
    For an error the text of Error() is the error message the provider
    gave, never the fallback built from the code; for a success it is the
    fixed text Unknown error, and the content is the usable content of the
    first candidate.  The streaming flags and the metadata are unset. *)
Theorem normalised_response_is_content_or_error resp :
  let r := models.CreateLLMResponse resp in
  (models.IsError r = true ↔ models.LLMResponse_Content r = None) ∧
  (models.IsError r = true → models.ErrorMessage r = Some (models.Error r)) ∧
  (models.IsError r = false →
   models.Error r = "Unknown error" ∧
   ∃ cand rest content,
     models.Candidates resp = cand :: rest ∧ models.usable cand content ∧
     models.LLMResponse_Content r = Some content) ∧
  models.Partial r = None ∧ models.TurnComplete r = None ∧ models.Interrupted r = None ∧
  models.CustomMetadata r = ∅.
Proof.
  unfold models.CreateLLMResponse.
  destruct (models.Candidates resp) as [|cand rest] eqn:Hc.
  - destruct (models.Response_PromptFeedback resp); simpl; repeat split; done.
  - destruct (models.has_content cand) eqn:Hh; simpl.
    + apply has_content_usable in Hh as [content Hu].
      pose proof Hu as [Hcontent _]. rewrite Hcontent.
      split; [done|]. split; [done|]. split; [|done].
      intros _. split; [done|]. by exists cand, rest, content.
    + repeat split; done.
Qed.

End responses.

(** ** More about the backoff *)





(** Multiplying a normal number by a power of two moves its exponent. *)
Lemma mul_Pow_2_exact m e a :
  canonical m e -> digits m = 53 -> 0 <= a <= 1023 ->
  float64.mul (S754_finite false m e) (math.Pow_2 a) =
    if e + a <=? 971 then S754_finite false m (e + a) else S754_infinity false.
Proof.
  intros Hc Hd Ha.
  assert (-1074 <= e) as He by (unfold canonical in Hc; rewrite fexp64 in Hc; lia).
  unfold math.Pow_2. destruct (Z.leb_spec a 1023); [|lia].
  change (2 ^ 52)%positive with 4503599627370496%positive.
  unfold float64.mul, float64.prec, float64.emax, SFmul. simpl xorb.
  destruct (digits_bounds m) as [Hlo Hhi]. rewrite Hd in Hlo, Hhi.
  assert (digits (m * 4503599627370496) = 105) as Hd'.
  { apply Z.le_antisymm.
    - apply digits_le; [lia|]. rewrite Pos2Z.inj_mul.
      change (2 ^ 105) with (2 ^ 53 * 4503599627370496). lia.
    - apply (digits_ge _ 104); [lia|]. rewrite Pos2Z.inj_mul.
      change (2 ^ 104) with (2 ^ (53 - 1) * 4503599627370496). lia. }
  assert (fexp 53 1024 (digits (m * 4503599627370496) + (e + (a - 52))) - (e + (a - 52)) = 52)
    as Hn by (rewrite Hd', fexp64; lia).
  destruct (binary_round_aux_spec false (m * 4503599627370496) (e + (a - 52)) ltac:(lia))
    as (m1 & m2 & e2 & _ & Hex & He2 & Hm1 & Hm2 & Hcan & _ & ->).
  rewrite Hn in Hex, He2, Hm1.
  assert (m1 = Zpos m) as ->.
  { rewrite Hex.
    - rewrite Pos2Z.inj_mul. change (2 ^ 52) with 4503599627370496. by rewrite Z.div_mul.
    - rewrite Pos2Z.inj_mul. change (2 ^ 52) with 4503599627370496. by rewrite Z.mod_mul. }
  assert (e2 = e + a) as ->.
  { destruct (Z.eq_dec (e2 - (e + (a - 52) + 52)) 0) as [|Hne]; [lia|].
    exfalso. replace (e2 - (e + (a - 52) + 52)) with 1 in Hm1 by lia.
    change (2 ^ 1) with 2 in Hm1.
    destruct m2 as [|p|p]; try lia.
    specialize (Hcan ltac:(lia)). rewrite fexp64 in Hcan.
    change (Zdigits2 (Z.pos p)) with (digits p) in Hcan.
    pose proof (digits_le p 52 ltac:(lia) ltac:(change (2 ^ 52) with 4503599627370496;
                                                 change (2 ^ 53) with 9007199254740992 in Hhi;
                                                 lia)).
    lia. }
  replace (e + a - (e + (a - 52) + 52)) with 0 in Hm1 by lia.
  change (2 ^ 0) with 1 in Hm1.
  assert (m2 = Zpos m) as -> by lia.
  reflexivity.
Qed.

Lemma base_capped minB a maxB :
  1 <= minB < 2 ^ 53 -> 0 <= a -> 0 <= maxB < 2 ^ 53 -> maxB <= minB * 2 ^ a ->
  math.Min (float64.mul (float64.of_int minB) (math.Pow_2 a)) (float64.of_int maxB) =
    float64.of_int maxB.
Proof.
  intros Hmin Ha Hmax Hcap.
  assert (0 < 2 ^ a) as Hpa by (apply Z.pow_pos_nonneg; lia).
  destruct (of_int_exact minB ltac:(lia)) as (m & e & -> & Hc & He & Hv).
  assert (digits m = 53) as Hd.
  { pose proof Hc as Hc'. unfold canonical in Hc'. rewrite fexp64 in Hc'.
    destruct (Z.eq_dec (digits m) 53) as [|Hne]; [assumption|]. exfalso.
    assert (e = -1074 /\ digits m <= 53) as [-> Hd] by lia.
    pose proof (F2R_digits m (-1074)) as [_ Hhi]. rewrite Hv in Hhi.
    assert (bpow (digits m + -1074) <= bpow 0)%R as Hb by (apply bpow_le; lia).
    change (bpow 0) with 1%R in Hb.
    assert (1 <= IZR minB)%R by (apply IZR_le; lia). lra. }
  assert (exists x,
            float64.mul (S754_finite false m e) (math.Pow_2 a) = x /\
            (x = S754_infinity false \/
             exists ex, x = S754_finite false m ex /\ canonical m ex /\
                        (IZR maxB <= F2R (Zpos m) ex)%R)) as (x & -> & Hx).
  { destruct (Z.le_gt_cases a 1023) as [Hsmall|Hbig].
    - rewrite (mul_Pow_2_exact m e a Hc Hd ltac:(lia)).
      destruct (e + a <=? 971); eexists; (split; [reflexivity|]); [right | left; reflexivity].
      exists (e + a). split; [reflexivity|]. split.
      + unfold canonical in *. rewrite fexp64 in *. lia.
      + unfold F2R in *. rewrite bpow_add, <- Rmult_assoc, Hv, (bpow_IZR a), <- mult_IZR by lia.
        by apply IZR_le.
    - eexists. split; [|left; reflexivity].
      unfold math.Pow_2. destruct (Z.leb_spec a 1023); [lia|]. reflexivity. }
  destruct (Z.eq_dec maxB 0) as [->|Hnz].
  { rewrite of_int_0. destruct Hx as [->|(ex & -> & _)]; reflexivity. }
  destruct (of_int_exact maxB ltac:(lia)) as (my & ey & -> & Hcy & Hey & Hvy).
  destruct Hx as [->|(ex & -> & Hcx & Hle)]; [reflexivity|].
  unfold math.Min. cbn [math.is_zero andb].
  destruct (float64.ltb (S754_finite false m ex) (S754_finite false my ey)) eqn:Hlt; [|reflexivity].
  apply ltb_correct in Hlt; [|assumption..]. lra.
Qed.

(** X20.  The cap is exact: once minBackoff * 2^attempt has reached
    maxBackoff, every later attempt gives the same backoff at the same
    clock reading, that of the base maxBackoff. *)
Theorem CalculateBackoff_is_capped now attempt attempt' config :
  1 <= common.MinBackoff config < 2 ^ 53 ->
  0 <= common.MaxBackoff config < 2 ^ 53 ->
  0 <= attempt <= attempt' ->
  common.MaxBackoff config <= common.MinBackoff config * 2 ^ attempt ->
  common.CalculateBackoff now attempt' config = common.CalculateBackoff now attempt config.
Proof.
  intros Hmin Hmax Ha Hcap.
  assert (common.MaxBackoff config <= common.MinBackoff config * 2 ^ attempt') as Hcap'.
  { assert (2 ^ attempt <= 2 ^ attempt') by (apply Z.pow_le_mono_r; lia). nia. }
  unfold common.CalculateBackoff.
  destruct (Z.ltb_spec attempt 0); [lia|]. destruct (Z.ltb_spec attempt' 0); [lia|].
  rewrite !base_capped by (assumption || lia). reflexivity.
Qed.

(** *** A lower bound

    Rounding loses at most one unit in the last place, and the conversion
    to an integer less than one. *)








Section calls_on_fixtures.

#[local] Existing Instance fixtures.mockTool_Tool.

(** The hypotheses of X24 at a batch of two valid requests. *)
Lemma BatchCall_returns_every_response_witness :
  mistral.BatchCall fixtures.client fixtures.background
    [fixtures.request "mistral-small"; fixtures.request "mistral-large"] =
  (replicate 2 (Some (models.CreateLLMResponse (mistral.mockResponse fixtures.client))), None).
Proof.
  apply (BatchCall_returns_every_response fixtures.client fixtures.background
           [fixtures.request "mistral-small"; fixtures.request "mistral-large"]).
  - reflexivity.
  - repeat constructor.
Defined.

(** The hypotheses of X27 at the two tools of request_test.go. *)
Lemma AppendTools_attaches_one_declaration_witness :
  (models.AppendTools fixtures.tool_request [fixtures.tool1; fixtures.tool2]).1 = None ∧
  models.Tools
    (models.config_or_zero
       (models.AppendTools fixtures.tool_request [fixtures.tool1; fixtures.tool2]).2) =
    [ {| models.FunctionDeclarations :=
           [fixtures.decl fixtures.tool1; fixtures.decl fixtures.tool2] |} ] ∧
  models.ToolsDict
    (models.AppendTools fixtures.tool_request [fixtures.tool1; fixtures.tool2]).2
    !! "tool2" = Some fixtures.tool2.
Proof.
  destruct (AppendTools_attaches_one_declaration fixtures.tool_request
              [fixtures.tool1; fixtures.tool2]
              [fixtures.decl fixtures.tool1; fixtures.decl fixtures.tool2])
    as (Hnone & Htools & _ & Hdict & _).
  - discriminate.
  - repeat constructor.
  - split; [exact Hnone|]. split; [exact Htools|].
    apply (Hdict [fixtures.tool1] fixtures.tool2 []); [reflexivity|].
    apply not_elem_of_nil.
Defined.

(** The hypotheses of X28 at a tool without declaration between the two
    tools of the test. *)
Lemma AppendTools_fails_half_way_witness :
  (models.AppendTools fixtures.tool_request
     ([fixtures.tool1] ++ fixtures.broken_tool :: [fixtures.tool2])).1 =
    Some (models.ErrGettingDeclaration "broken" fixtures.ErrNoDeclaration) ∧
  models.Config
    (models.AppendTools fixtures.tool_request
       ([fixtures.tool1] ++ fixtures.broken_tool :: [fixtures.tool2])).2 =
    Some models.zero_config ∧
  models.ToolsDict
    (models.AppendTools fixtures.tool_request
       ([fixtures.tool1] ++ fixtures.broken_tool :: [fixtures.tool2])).2
    !! "tool1" = Some fixtures.tool1.
Proof.
  destruct (AppendTools_fails_half_way fixtures.tool_request [fixtures.tool1]
              [fixtures.decl fixtures.tool1] fixtures.broken_tool fixtures.ErrNoDeclaration
              [fixtures.tool2]) as (Herr & Hconfig & Hdict & _).
  - repeat constructor.
  - reflexivity.
  - split; [exact Herr|]. split; [exact Hconfig|].
    apply (Hdict [] fixtures.tool1 []); [reflexivity|].
    apply not_elem_of_nil.
Defined.

End calls_on_fixtures.


(** The hypotheses of X20 at the default policy, whose backoff reaches the
    maximum at the seventh attempt. *)
Lemma CalculateBackoff_is_capped_witness :
  common.CalculateBackoff 999 50 common.DefaultRetryConfig =
  common.CalculateBackoff 999 6 common.DefaultRetryConfig.
Proof.
  apply (CalculateBackoff_is_capped 999 6 50 common.DefaultRetryConfig).
  - simpl. lia.
  - simpl. lia.
  - lia.
  - simpl. lia.
Defined.

